(** * AI-Writer: the live voice pipeline and the speech helpers

    A shallow embedding of the audio code of the repository:

    - [src/components/LiveVoice.tsx]: [createBlob], [decode],
      [decodeAudioData], the [connect] / [disconnect] handlers and the four
      session callbacks ([onopen], [onmessage], [onclose], [onerror]);
    - [src/services/gemini.ts]: [writeString], [withRetry], [pcmToWav],
      and the engines [generateSpeech], [generateImage] and
      [editImageWithPrompt];
    - [src/App.tsx]: [handleGenerateTTS].

    The browser built-ins those functions call (typed arrays, [btoa] /
    [atob], [AudioContext.createBuffer]) are modelled in [Module JS] from
    ECMAScript, the HTML standard and the Web Audio API.

    Numbers.  An audio sample is a [JS.number]: an exact rational, NaN, or
    a signed infinity.  For the PCM codec this is exact: scaling by 32768
    and dividing a 16-bit integer by 32768 never round.  The times of the
    playback clock ([currentTime], [duration], the cursor) are rationals
    ([Q]) in the component state, which idealises the double-precision sum
    as the exact one; the schedule of the playback is also given with the
    binary64 numbers the code computes ([JS.round64],
    [LiveVoice.handle_audio_output64]), where the sum is rounded.
    Lengths, sample rates and delays are integers. *)

From Stdlib Require Import ZArith QArith Qpower Qminmax Qabs Qround String Ascii List.
From Stdlib Require Import Lia Lqa.
From Stdlib Require SpecFloat.
From Stdlib.Strings Require Import Byte.
From stdpp Require Import base list.
From Equations Require Import Equations.
Import ListNotations.

Local Open Scope Z_scope.

(* ================================================================== *)
(** * The platform: numbers, typed arrays, base64, audio buffers       *)
(* ================================================================== *)

Module JS.

(** ** Exceptions and results *)

Inductive exn : Type :=
| RangeError
| TypeError
| InvalidCharacterError
| NotSupportedError
| NotAllowedError.

Inductive result (A : Type) : Type :=
| Ok (a : A)
| Throw (e : exn).
Arguments Ok {A} a.
Arguments Throw {A} e.

Definition bind {A B : Type} (r : result A) (k : A -> result B) : result B :=
  match r with
  | Ok a => k a
  | Throw e => Throw e
  end.

Notation "'try' x := r 'in' k" := (bind r (fun x => k))
  (at level 10, x name, r at level 100, k at level 200).

(** ** Numbers *)

Inductive number : Type :=
| Finite (q : Q)
| NaN
| Infinity (negative : bool).

(** [x * k] for a positive integer constant [k]. *)
Definition times (x : number) (k : positive) : number :=
  match x with
  | Finite q => Finite (q * inject_Z (Zpos k))
  | NaN => NaN
  | Infinity s => Infinity s
  end.

(** [a / b] for two integers held in numbers. *)
Definition quotient (a b : Z) : number :=
  if b =? 0 then (if a =? 0 then NaN else Infinity (a <? 0))
  else Finite (inject_Z a / inject_Z b).

(** [v / 32768.0] where [v] is an element read from an [Int16Array]:
    a read past the end gives [undefined], and [undefined / k] is NaN. *)
Definition element_over (v : option Z) (k : positive) : number :=
  match v with
  | Some z => Finite (z # k)
  | None => NaN
  end.

(** Rounding toward zero, the [truncate] of ECMAScript's integer
    conversions. *)
Definition truncate (q : Q) : Z := Z.quot (Qnum q) (Zpos (Qden q)).

(** ECMAScript [ToInt16]: non-finite values give 0; otherwise truncate, reduce
    modulo 2^16 and read the result as two's complement. *)
Definition wrap16 (z : Z) : Z :=
  let m := z mod 65536 in
  if 32768 <=? m then m - 65536 else m.

Definition ToInt16 (x : number) : Z :=
  match x with
  | Finite q => wrap16 (truncate q)
  | _ => 0
  end.

(** WebIDL conversion to [unsigned long] (no [EnforceRange]): non-finite
    values give 0; otherwise truncate and reduce modulo 2^32. *)
Definition ToUint32 (x : number) : Z :=
  match x with
  | Finite q => truncate q mod 4294967296
  | _ => 0
  end.

(** How many [i = 0, 1, 2, ...] satisfy [i < x]: the trip count of
    [for (let i = 0; i < x; i++)].  The count is unbounded for +Infinity; the
    one loop bounded by a number ([decodeAudioData]) is reached only after
    [createBuffer] accepted a positive channel count, which makes the bound
    finite, so 0 stands in for that case. *)
Definition trips_below (x : number) : nat :=
  match x with
  | Finite q => Z.to_nat (Qceiling q)
  | _ => 0%nat
  end.

(** ** Binary64 numbers

    A finite binary64 number is kept as the rational it denotes (so the two
    zeros are one).  [round64] is the rounding every binary64 operation ends
    with: to the nearest number with 53 significant bits and an exponent of
    at least -1074, ties to the one with an even significand. *)

(** The integer part of the base-2 logarithm of [x], for [x > 0]. *)
Definition ilog2 (x : Q) : Z :=
  let k := Z.log2 (Qnum x) - Z.log2 (Zpos (Qden x)) in
  if Qle_bool (2 ^ k) x then k else k - 1.

(** The nearest integer, ties to the even one. *)
Definition round_half_even (x : Q) : Z :=
  let f := Qfloor x in
  match (x - inject_Z f ?= 1 # 2)%Q with
  | Lt => f
  | Gt => f + 1
  | Eq => if Z.even f then f else f + 1
  end.

(** The exponent of the last place of the binary64 numbers next to [x]. *)
Definition exponent64 (x : Q) : Z := Z.max (ilog2 (Qabs x) - 52) (-1074).

Definition round64 (x : Q) : Q :=
  if Qeq_bool x 0 then 0
  else (inject_Z (round_half_even (x * 2 ^ (- exponent64 x))) * 2 ^ exponent64 x)%Q.

(** [Number.MAX_VALUE] *)
Definition MAX_VALUE : Q := (inject_Z (2 ^ 53 - 1) * 2 ^ 971)%Q.

(** The binary64 result of an operation whose exact result is [x]: rounded,
    and an infinity when the rounded value is beyond [MAX_VALUE]. *)
Definition binary64_of (x : Q) : number :=
  let r := round64 x in
  if Qle_bool (Qabs r) MAX_VALUE then Finite r else Infinity (negb (Qle_bool 0 r)).

(** [a + b] on binary64 numbers. *)
Definition add64 (a b : number) : number :=
  match a, b with
  | NaN, _ | _, NaN => NaN
  | Infinity s, Infinity s' => if Bool.eqb s s' then Infinity s else NaN
  | Infinity s, Finite _ | Finite _, Infinity s => Infinity s
  | Finite x, Finite y => binary64_of (x + y)
  end.

(** [Math.max(a, b)] *)
Definition Math_max (a b : number) : number :=
  match a, b with
  | NaN, _ | _, NaN => NaN
  | Infinity false, _ | _, Infinity false => Infinity false
  | Infinity true, x | x, Infinity true => x
  | Finite x, Finite y => Finite (Qmax x y)
  end.

(** [a / b] on two integers that binary64 holds exactly. *)
Definition quotient64 (a b : Z) : number :=
  if b =? 0 then (if a =? 0 then NaN else Infinity (a <? 0))
  else binary64_of (inject_Z a / inject_Z b).

(** ** Bytes and typed arrays *)

Abbreviation Uint8Array := (list byte) (only parsing).
Abbreviation Int16Array := (list Z) (only parsing).
Abbreviation Float32Array := (list number) (only parsing).

Definition byte_of_N (n : N) : byte :=
  match Byte.of_N (n mod 256)%N with
  | Some b => b
  | None => x00
  end.

(** ECMAScript [ToUint8], the conversion of a store into a [Uint8Array] or of
    [DataView.setUint8]. *)
Definition ToUint8 (z : Z) : byte := byte_of_N (Z.to_N (z mod 256)).

Definition byte_value (b : byte) : Z := Z.of_N (Byte.to_N b).

(** The two bytes of a 16-bit element in a little-endian buffer. *)
Definition int16_bytes (v : Z) : list byte :=
  let u := v mod 65536 in [ToUint8 u; ToUint8 (u / 256)].

(** [new Uint8Array(int16.buffer)]: the bytes under an [Int16Array].  Typed
    arrays use the byte order of the platform, little-endian wherever a
    browser runs. *)
Definition Uint8Array_of_buffer (a : Int16Array) : Uint8Array :=
  flat_map int16_bytes a.

Definition int16_of_bytes (lo hi : byte) : Z :=
  wrap16 (byte_value lo + 256 * byte_value hi).

Fixpoint int16_pairs (bs : list byte) : list Z :=
  match bs with
  | lo :: hi :: rest => int16_of_bytes lo hi :: int16_pairs rest
  | _ => []
  end.

(** [new Int16Array(buffer)]: a RangeError unless the byte length is a
    multiple of the element size. *)
Definition Int16Array_of_buffer (bs : Uint8Array) : result Int16Array :=
  if Nat.even (length bs) then Ok (int16_pairs bs) else Throw RangeError.

(** [String.fromCharCode(b)] for a byte and [s.charCodeAt(i)] for a character
    of a binary string.  Past the end, [charCodeAt] gives NaN, which a store
    into a [Uint8Array] turns into 0; and [fromCharCode(undefined)] is the
    character of code 0. *)
Definition fromCharCode (b : byte) : string := String (ascii_of_byte b) EmptyString.

Definition charCodeAt (s : string) (i : nat) : option Z :=
  match String.get i s with
  | Some c => Some (Z.of_N (N_of_ascii c))
  | None => None
  end.

(** A read [a[i]] of a [Float32Array] used as a number: past the end it is
    [undefined], which arithmetic turns into NaN. *)
Definition read_number (a : Float32Array) (i : nat) : number :=
  match a !! i with
  | Some x => x
  | None => NaN
  end.

(** ** Base64: [btoa] and [atob]

    A binary string (every code unit below 256) is a [string]; [btoa] never
    throws on one.  [atob] is the forgiving-base64 decode of the HTML
    standard: ASCII whitespace is skipped, padding is optional, and any other
    input throws [InvalidCharacterError]. *)

Definition base64_alphabet : string :=
  "ABCDEFGHIJKLMNOPQRSTUVWXYZabcdefghijklmnopqrstuvwxyz0123456789+/".

Definition sextet_char (n : N) : ascii :=
  match String.get (N.to_nat n) base64_alphabet with
  | Some c => c
  | None => "="%char
  end.

Definition char_sextet (c : ascii) : option N :=
  let k := N_of_ascii c in
  (if (65 <=? k) && (k <=? 90) then Some (k - 65)
   else if (97 <=? k) && (k <=? 122) then Some (k - 71)
   else if (48 <=? k) && (k <=? 57) then Some (k + 4)
   else if k =? 43 then Some 62
   else if k =? 47 then Some 63
   else None)%N.

Definition encode3 (a b c : byte) : list ascii :=
  let a := Byte.to_N a in
  let b := Byte.to_N b in
  let c := Byte.to_N c in
  [sextet_char (a / 4); sextet_char ((a mod 4) * 16 + b / 16);
   sextet_char ((b mod 16) * 4 + c / 64); sextet_char (c mod 64)]%N.

Definition encode2 (a b : byte) : list ascii :=
  let a := Byte.to_N a in
  let b := Byte.to_N b in
  [sextet_char (a / 4); sextet_char ((a mod 4) * 16 + b / 16);
   sextet_char ((b mod 16) * 4); "="%char]%N.

Definition encode1 (a : byte) : list ascii :=
  let a := Byte.to_N a in
  [sextet_char (a / 4); sextet_char ((a mod 4) * 16); "="%char; "="%char]%N.

Fixpoint encode_groups (bs : list byte) : list ascii :=
  match bs with
  | [] => []
  | [a] => encode1 a
  | [a; b] => encode2 a b
  | a :: b :: c :: rest => encode3 a b c ++ encode_groups rest
  end.

Definition btoa (s : string) : string :=
  string_of_list_ascii (encode_groups (list_byte_of_string s)).

Definition is_ascii_whitespace (c : ascii) : bool :=
  let k := N_of_ascii c in
  ((k =? 9) || (k =? 10) || (k =? 12) || (k =? 13) || (k =? 32))%N.

Definition is_padding (c : ascii) : bool := (N_of_ascii c =? 61)%N.

(** A final group of two characters holds one byte (its last four bits are
    discarded), one of three characters holds two (two bits discarded). *)
Definition decode2 (a b : ascii) : option (list byte) :=
  match char_sextet a, char_sextet b with
  | Some s0, Some s1 => Some [byte_of_N (s0 * 4 + s1 / 16)]
  | _, _ => None
  end.

Definition decode3 (a b c : ascii) : option (list byte) :=
  match char_sextet a, char_sextet b, char_sextet c with
  | Some s0, Some s1, Some s2 =>
      Some [byte_of_N (s0 * 4 + s1 / 16); byte_of_N ((s1 mod 16) * 16 + s2 / 4)]
  | _, _, _ => None
  end.

Definition decode4 (a b c d : ascii) : option (list byte) :=
  match char_sextet a, char_sextet b, char_sextet c, char_sextet d with
  | Some s0, Some s1, Some s2, Some s3 =>
      Some [byte_of_N (s0 * 4 + s1 / 16); byte_of_N ((s1 mod 16) * 16 + s2 / 4);
            byte_of_N ((s2 mod 4) * 64 + s3)]
  | _, _, _, _ => None
  end.

(** Padding is removed only from an input whose length is a multiple of four,
    that is, only from the last group of four; a single leftover character is
    an error. *)
Fixpoint decode_groups (cs : list ascii) : option (list byte) :=
  match cs with
  | [] => Some []
  | [_] => None
  | [a; b] => decode2 a b
  | [a; b; c] => decode3 a b c
  | [a; b; c; d] =>
      if is_padding d
      then (if is_padding c then decode2 a b else decode3 a b c)
      else decode4 a b c d
  | a :: b :: c :: d :: rest =>
      match decode4 a b c d, decode_groups rest with
      | Some x, Some y => Some (x ++ y)
      | _, _ => None
      end
  end.

Definition atob (s : string) : result string :=
  let cs := List.filter (fun c => negb (is_ascii_whitespace c)) (list_ascii_of_string s) in
  match decode_groups cs with
  | Some bs => Ok (string_of_list_byte bs)
  | None => Throw InvalidCharacterError
  end.

(** ** Audio buffers *)

Record AudioBuffer : Type := {
  sampleRate : Z;
  channels : list Float32Array
}.

(** [buffer.length], in sample frames, and [buffer.duration], in seconds. *)
Definition frames (b : AudioBuffer) : nat :=
  match channels b with
  | ch :: _ => length ch
  | [] => 0%nat
  end.

Definition duration (b : AudioBuffer) : Q :=
  inject_Z (Z.of_nat (frames b)) / inject_Z (sampleRate b).

(** [buffer.duration] as the binary64 number it is: the length divided by
    the sample rate, rounded. *)
Definition duration64 (b : AudioBuffer) : number :=
  quotient64 (Z.of_nat (frames b)) (sampleRate b).

(** [ctx.createBuffer(numberOfChannels, length, sampleRate)].  The Web Audio
    API throws NotSupportedError when an argument is zero or outside its
    nominal range; the ranges taken here are the ones every implementation
    has to support (up to 32 channels, 8000 to 96000 Hz).  An implementation
    may accept more, so what is stated of a rejection below is stated for
    no channel and for no frame only, and what is stated of a buffer for
    arguments inside these ranges.  The buffer is zero-filled. *)
Definition createBuffer (numberOfChannels : nat) (length : number) (rate : Z)
  : result AudioBuffer :=
  let n := ToUint32 length in
  if (1 <=? numberOfChannels)%nat && (numberOfChannels <=? 32)%nat
     && (1 <=? n) && (8000 <=? rate) && (rate <=? 96000)
  then Ok {| sampleRate := rate;
             channels := replicate numberOfChannels (replicate (Z.to_nat n) (Finite 0)) |}
  else Throw NotSupportedError.

(** [buffer.getChannelData(c)[i] = v]: the channel data is a live view of the
    buffer, and a store past the end of a typed array is ignored.  (A channel
    index out of range would throw; no caller produces one.) *)
Definition set_sample (b : AudioBuffer) (c i : nat) (v : number) : AudioBuffer :=
  match channels b !! c with
  | Some chData =>
      {| sampleRate := sampleRate b;
         channels := <[c := <[i := v]> chData]> (channels b) |}
  | None => b
  end.

(** ** Data views *)

(** [view.setUint8(offset, v)], [view.setUint16(offset, v, true)] and
    [view.setUint32(offset, v, true)] on a view of a whole buffer: a
    RangeError outside the buffer, little-endian bytes otherwise. *)
Abbreviation DataView := (list byte) (only parsing).

Fixpoint le_bytes (width : nat) (v : Z) : list byte :=
  match width with
  | O => []
  | Datatypes.S w => ToUint8 v :: le_bytes w (v / 256)
  end.

Fixpoint write_bytes (view : DataView) (offset : nat) (bs : list byte) : DataView :=
  match bs with
  | [] => view
  | b :: rest => write_bytes (<[offset := b]> view) (Datatypes.S offset) rest
  end.

Definition set_uint (width : nat) (view : DataView) (offset : nat) (v : Z)
  : result DataView :=
  if (offset + width <=? length view)%nat
  then Ok (write_bytes view offset (le_bytes width (v mod 2 ^ (8 * Z.of_nat width))))
  else Throw RangeError.

Definition setUint8 := set_uint 1.
Definition setUint16 := set_uint 2.
Definition setUint32 := set_uint 4.

(** ** Loops *)

(** [for (let i = start; i < start + count; i++) body], threading the
    mutable state [s]. *)
Fixpoint for_loop {S : Type} (count start : nat) (body : nat -> S -> S) (s : S) : S :=
  match count with
  | O => s
  | Datatypes.S count' => for_loop count' (Datatypes.S start) body (body start s)
  end.

End JS.

(* ================================================================== *)
(** * src/components/LiveVoice.tsx                                     *)
(* ================================================================== *)

Module LiveVoice.
Import JS.

(** ** The codec helpers *)

Record Blob : Type := {
  data : string;
  mimeType : string
}.

(** [createBlob(data)]: scale every sample by 32768 into an [Int16Array],
    view its buffer as bytes, build the binary string one character per byte,
    and base64-encode it. *)
Definition createBlob (data : Float32Array) : Blob :=
  let l := length data in
  let int16 :=
    for_loop l 0
      (fun i int16 => <[i := ToInt16 (times (read_number data i) 32768)]> int16)
      (replicate l 0) in
  let binary := Uint8Array_of_buffer int16 in
  let str :=
    for_loop (length binary) 0
      (fun i str =>
         match binary !! i with
         | Some b => String.append str (fromCharCode b)
         | None => String.append str (fromCharCode x00)
         end)
      EmptyString in
  {| data := btoa str; mimeType := "audio/pcm;rate=16000" |}.

(** [decode(base64)]: the bytes of the decoded binary string. *)
Definition decode (base64 : string) : result Uint8Array :=
  try binaryString := atob base64 in
  let n := String.length binaryString in
  Ok (for_loop n 0
        (fun i bytes =>
           match charCodeAt binaryString i with
           | Some code => <[i := ToUint8 code]> bytes
           | None => <[i := x00]> bytes
           end)
        (replicate n x00)).

(** [decodeAudioData(data, ctx, sampleRate, numChannels)]; [ctx] is only
    used for its [createBuffer]. *)
Definition decodeAudioData (data : Uint8Array) (sampleRate : Z) (numChannels : nat)
  : result AudioBuffer :=
  try dataInt16 := Int16Array_of_buffer data in
  let frameCount := quotient (Z.of_nat (length dataInt16)) (Z.of_nat numChannels) in
  try buffer := createBuffer numChannels frameCount sampleRate in
  Ok (for_loop numChannels 0
        (fun c buffer =>
           for_loop (trips_below frameCount) 0
             (fun i buffer =>
                set_sample buffer c i
                  (element_over (dataInt16 !! (i * numChannels + c)%nat) 32768))
             buffer)
        buffer).

(** ** Inbound messages *)

Record Transcription : Type := { text : option string }.
Record InlineData : Type := { inline_data : option string }.
Record Part : Type := { inlineData : option InlineData }.
Record Content : Type := { parts : option (list Part) }.
Record ServerContent : Type := {
  outputTranscription : option Transcription;
  modelTurn : option Content
}.
Record LiveServerMessage : Type := { serverContent : option ServerContent }.

(** A string or [undefined] used as a condition: only a non-empty string is
    truthy. *)
Definition truthy (s : option string) : bool :=
  match s with
  | Some (String _ _) => true
  | _ => false
  end.

(** [msg.serverContent?.outputTranscription?.text] *)
Definition transcript_text (msg : LiveServerMessage) : option string :=
  match serverContent msg with
  | Some sc =>
      match outputTranscription sc with
      | Some t => text t
      | None => None
      end
  | None => None
  end.

(** [msg.serverContent?.modelTurn?.parts[0]?.inlineData?.data]: the chain
    stops at a missing [serverContent] or [modelTurn], but [parts] is indexed
    without a guard, so a turn without [parts] is a TypeError. *)
Definition base64Audio (msg : LiveServerMessage) : result (option string) :=
  match serverContent msg with
  | Some sc =>
      match modelTurn sc with
      | Some turn =>
          match parts turn with
          | Some ps =>
              match ps !! 0%nat with
              | Some p =>
                  match inlineData p with
                  | Some d => Ok (inline_data d)
                  | None => Ok None
                  end
              | None => Ok None
              end
          | None => Throw TypeError
          end
      | None => Ok None
      end
  | None => Ok None
  end.

(** ** Component state and effects *)

Abbreviation MediaStream := (list nat) (only parsing).   (* the ids of its tracks *)
Record AudioContext : Type := { contextRate : Z }.

Record State : Type := {
  active : bool;
  status : string;
  transcription : string;
  instruction : string;
  audioContextRef : option AudioContext;
  mediaStreamRef : option MediaStream;
  sessionRef : bool;
  nextStartTimeRef : Q;
  outputNodeRef : bool
}.

Definition initial : State := {|
  active := false;
  status := "Ready to connect";
  transcription := "";
  instruction := "You are an expert SEO consultant and Content Strategist. Help the user plan their content strategy verbally. Keep responses concise.";
  audioContextRef := None;
  mediaStreamRef := None;
  sessionRef := false;
  nextStartTimeRef := 0;
  outputNodeRef := false
|}.

Definition setStatus (s : string) (st : State) : State :=
  {| active := active st; status := s; transcription := transcription st;
     instruction := instruction st; audioContextRef := audioContextRef st;
     mediaStreamRef := mediaStreamRef st; sessionRef := sessionRef st;
     nextStartTimeRef := nextStartTimeRef st; outputNodeRef := outputNodeRef st |}.

Definition setActive (a : bool) (st : State) : State :=
  {| active := a; status := status st; transcription := transcription st;
     instruction := instruction st; audioContextRef := audioContextRef st;
     mediaStreamRef := mediaStreamRef st; sessionRef := sessionRef st;
     nextStartTimeRef := nextStartTimeRef st; outputNodeRef := outputNodeRef st |}.

Definition setTranscription (f : string -> string) (st : State) : State :=
  {| active := active st; status := status st; transcription := f (transcription st);
     instruction := instruction st; audioContextRef := audioContextRef st;
     mediaStreamRef := mediaStreamRef st; sessionRef := sessionRef st;
     nextStartTimeRef := nextStartTimeRef st; outputNodeRef := outputNodeRef st |}.

Definition set_nextStartTime (t : Q) (st : State) : State :=
  {| active := active st; status := status st; transcription := transcription st;
     instruction := instruction st; audioContextRef := audioContextRef st;
     mediaStreamRef := mediaStreamRef st; sessionRef := sessionRef st;
     nextStartTimeRef := t; outputNodeRef := outputNodeRef st |}.

Definition set_output (ctx : AudioContext) (st : State) : State :=
  {| active := active st; status := status st; transcription := transcription st;
     instruction := instruction st; audioContextRef := Some ctx;
     mediaStreamRef := mediaStreamRef st; sessionRef := sessionRef st;
     nextStartTimeRef := nextStartTimeRef st; outputNodeRef := true |}.

Definition set_mediaStream (stream : MediaStream) (st : State) : State :=
  {| active := active st; status := status st; transcription := transcription st;
     instruction := instruction st; audioContextRef := audioContextRef st;
     mediaStreamRef := Some stream; sessionRef := sessionRef st;
     nextStartTimeRef := nextStartTimeRef st; outputNodeRef := outputNodeRef st |}.

Definition set_session (st : State) : State :=
  {| active := active st; status := status st; transcription := transcription st;
     instruction := instruction st; audioContextRef := audioContextRef st;
     mediaStreamRef := mediaStreamRef st; sessionRef := true;
     nextStartTimeRef := nextStartTimeRef st; outputNodeRef := outputNodeRef st |}.

(** What a handler does to the world outside the component state. *)
Inductive effect : Type :=
| console_error (what : string)
| new_GoogleGenAI (apiKey : string)
| new_AudioContext (rate : Z)
| createGain
| getUserMedia
| live_connect (model systemInstruction : string)
| createMediaStreamSource
| createScriptProcessor (bufferSize inputs outputs : nat)
| sendRealtimeInput (media : Blob)
| source_start (when : Q) (buffer : AudioBuffer)
| track_stop (track : nat)
| context_close (ctx : AudioContext)
| location_reload.

(** ** [connect] *)

(** What [connect] reads from its surroundings: the two places an API key may
    come from, and how the microphone request settles. *)
Record Environment : Type := {
  VITE_API_KEY : option string;
  window_API_KEY : option string;
  microphone : result MediaStream
}.

(** [env.VITE_API_KEY || window.API_KEY || ''] *)
Definition apiKey (env : Environment) : string :=
  if truthy (VITE_API_KEY env) then default EmptyString (VITE_API_KEY env)
  else if truthy (window_API_KEY env) then default EmptyString (window_API_KEY env)
  else EmptyString.

Definition connect (env : Environment) (st : State) : list effect * State :=
  let st := setStatus "Connecting..." st in
  let apiKey := apiKey env in
  if negb (truthy (Some apiKey)) then
    ([console_error "Missing API key. Set VITE_API_KEY in your environment."],
     setActive false (setStatus "Missing API key" st))
  else
    let setup :=
      [new_GoogleGenAI apiKey; new_AudioContext 16000; new_AudioContext 24000;
       createGain; getUserMedia] in
    let st := set_output {| contextRate := 24000 |} st in
    match microphone env with
    | Ok stream =>
        (setup ++ [live_connect "gemini-2.5-flash-native-audio-preview-09-2025"
                     (instruction st)],
         set_session (set_mediaStream stream st))
    | Throw _ =>
        (setup ++ [console_error "Connection failed"],
         setActive false (setStatus "Failed to connect" st))
    end.

(** ** The session callbacks *)

Definition onopen (st : State) : list effect * State :=
  ([createMediaStreamSource; createScriptProcessor 4096 1 1],
   setActive true (setStatus "Connected - Listening..." st)).

Definition onaudioprocess (inputData : Float32Array) (st : State) : list effect * State :=
  ([sendRealtimeInput (createBlob inputData)], st).

(** The outcome of one [onmessage] call: the effects, the state it leaves,
    and the exception that rejected the handler's promise, if any.
    [currentTime] is the reading of [outputAudioContext.currentTime].  The
    handler has one [await], on a promise that is already settled: it resumes
    before the event loop delivers anything else, with the clock reading the
    same, so the call is modelled as one step.  (Were two handlers started
    by one event, both would raise the cursor to the same reading before
    either schedules, which gives the same starts as running them one after
    the other.) *)
Record Reaction : Type := {
  effects : list effect;
  next : State;
  rejected : option exn
}.

(** The first block of [onmessage]: "Handle Text Transcription". *)
Definition handle_text_transcription (msg : LiveServerMessage) (st : State) : State :=
  match serverContent msg with
  | Some {| outputTranscription := Some _ |} =>
      setTranscription
        (fun prev =>
           if truthy (transcript_text msg)
           then String.append prev (default EmptyString (transcript_text msg))
           else prev)
        st
  | _ => st
  end.

(** The second block of [onmessage]: "Handle Audio Output".  The cursor is
    a rational here and [+=] adds exactly; [handle_audio_output64] below has
    the cursor as the binary64 number it is, with the sum rounded. *)
Definition handle_audio_output (currentTime : Q) (msg : LiveServerMessage) (st : State)
  : Reaction :=
  match base64Audio msg with
  | Throw e => {| effects := []; next := st; rejected := Some e |}
  | Ok audio =>
      if truthy audio then
        let st := set_nextStartTime (Qmax (nextStartTimeRef st) currentTime) st in
        match (try bytes := decode (default EmptyString audio) in
               decodeAudioData bytes 24000 1) with
        | Throw e => {| effects := []; next := st; rejected := Some e |}
        | Ok audioBuffer =>
            {| effects := [source_start (nextStartTimeRef st) audioBuffer];
               next := set_nextStartTime
                         (nextStartTimeRef st + duration audioBuffer)%Q st;
               rejected := None |}
        end
      else {| effects := []; next := st; rejected := None |}
  end.

Definition onmessage (currentTime : Q) (msg : LiveServerMessage) (st : State) : Reaction :=
  handle_audio_output currentTime msg (handle_text_transcription msg st).

(** "Handle Audio Output" on the cursor alone, with the cursor, the clock
    reading and the duration as the binary64 numbers they are: [Math.max]
    is exact and [+=] rounds its sum.  The result is the [source.start]
    calls, as start time and buffer, and the cursor the block leaves. *)
Definition handle_audio_output64 (currentTime : number) (msg : LiveServerMessage)
  (nextStartTime : number) : list (number * AudioBuffer) * number :=
  match base64Audio msg with
  | Throw e => ([], nextStartTime)
  | Ok audio =>
      if truthy audio then
        let nextStartTime := Math_max nextStartTime currentTime in
        match (try bytes := decode (default EmptyString audio) in
               decodeAudioData bytes 24000 1) with
        | Throw e => ([], nextStartTime)
        | Ok audioBuffer =>
            ([(nextStartTime, audioBuffer)],
             add64 nextStartTime (duration64 audioBuffer))
        end
      else ([], nextStartTime)
  end.

Definition onclose (st : State) : list effect * State :=
  ([], setActive false (setStatus "Disconnected" st)).

Definition onerror (e : string) (st : State) : list effect * State :=
  ([console_error e], setActive false (setStatus "Error occurred" st)).

(** ** [disconnect] *)

Definition disconnect (st : State) : list effect * State :=
  let stops :=
    match mediaStreamRef st with
    | Some stream => map track_stop stream
    | None => []
    end in
  let closes :=
    match audioContextRef st with
    | Some ctx => [context_close ctx]
    | None => []
    end in
  (stops ++ closes ++ [location_reload],
   setStatus "Disconnected" (setActive false st)).



(** ** A session as a sequence of callbacks *)

Inductive event : Type :=
| Open
| AudioProcess (inputData : Float32Array)
| Message (currentTime : Q) (msg : LiveServerMessage)
| Close
| Error (e : string).

Definition handle (ev : event) (st : State) : list effect * State :=
  match ev with
  | Open => onopen st
  | AudioProcess inputData => onaudioprocess inputData st
  | Message currentTime msg =>
      let r := onmessage currentTime msg st in (effects r, next r)
  | Close => onclose st
  | Error e => onerror e st
  end.

Fixpoint run (evs : list event) (st : State) : list effect * State :=
  match evs with
  | [] => ([], st)
  | ev :: rest =>
      let '(out, st') := handle ev st in
      let '(outs, st'') := run rest st' in
      (out ++ outs, st'')
  end.

End LiveVoice.

(* ================================================================== *)
(** * src/services/gemini.ts                                           *)
(* ================================================================== *)

Module Gemini.
Import JS.

(** ** [writeString] *)

(** [writeString(view, offset, string)]: one [setUint8] per character. *)
Definition writeString (view : DataView) (offset : nat) (s : string) : result DataView :=
  for_loop (String.length s) 0
    (fun i acc =>
       try view := acc in
       match charCodeAt s i with
       | Some code => setUint8 view (offset + i) code
       | None => setUint8 view (offset + i) 0
       end)
    (Ok view).

(** ** [withRetry] *)

(** A thrown value, as far as [withRetry] looks at it: [null] / [undefined],
    or an object with an optional numeric [status] and an optional string
    [message]. *)
Inductive thrown : Type :=
| nullish
| error_object (status : option Z) (message : option string).

Definition error_status (e : thrown) : option Z :=
  match e with
  | nullish => None
  | error_object s _ => s
  end.

Definition error_message (e : thrown) : option string :=
  match e with
  | nullish => None
  | error_object _ m => m
  end.

(** [hay.includes(needle)] *)
Definition includes (hay needle : string) : bool :=
  match String.index 0 needle hay with
  | Some _ => true
  | None => false
  end.

(** [error?.status === 503 || error?.status === 500 || error?.status === 429
     || error?.message?.includes('unavailable')], as a condition. *)
Definition shouldRetry (error : thrown) : bool :=
  let status_is (k : Z) :=
    match error_status error with
    | Some s => s =? k
    | None => false
    end in
  status_is 503 || status_is 500 || status_is 429
  || match error_message error with
     | Some m => includes m "unavailable"
     | None => false
     end.

(** What [withRetry] does besides returning: it calls [fn], warns, and waits.
    The call is logged with the way it settled. *)
Inductive step (T : Type) : Type :=
| called (outcome : T + thrown)
| console_warn (attemptsLeft : nat) (message : option string)
| setTimeout (delay : Z).
Arguments called {T} outcome.
Arguments console_warn {T} attemptsLeft message.
Arguments setTimeout {T} delay.

(** [fn] may depend on and change the world [W] (the remote service); a call
    settles with a value or a thrown error.  [withRetry fn retries delay]
    returns how the returned promise settles, the log, and the world. *)
Fixpoint withRetry {W T : Type} (fn : W -> (T + thrown) * W) (retries : nat) (delay : Z)
  (w : W) : (T + thrown) * list (step T) * W :=
  let '(outcome, w) := fn w in
  match outcome with
  | inl v => (inl v, [called outcome], w)
  | inr error =>
      match retries with
      | Datatypes.S retries' =>
          if shouldRetry error then
            let '(final, log, w) := withRetry fn retries' (delay * 2) w in
            (final,
             called outcome :: console_warn retries (error_message error)
               :: setTimeout delay :: log,
             w)
          else (inr error, [called outcome], w)
      | O => (inr error, [called outcome], w)
      end
  end.

(** The defaults of the signature: [retries = 3, delay = 1000]. *)
Definition withRetry_default {W T : Type} (fn : W -> (T + thrown) * W) (w : W) :=
  withRetry fn 3 1000 w.

(** ** [pcmToWav] *)

(** [target.set(source, offset)] on typed arrays. *)
Definition typed_set (target source : Uint8Array) (offset : nat) : result Uint8Array :=
  if (offset + length source <=? length target)%nat
  then Ok (write_bytes target offset source)
  else Throw RangeError.

(** [a.subarray(i, j)] for [i <= j <= a.length]. *)
Definition subarray (a : Uint8Array) (i j : nat) : Uint8Array :=
  take (j - i) (drop i a).

Definition chunkSize : nat := Pos.to_nat 32768.   (* 0x8000 *)

(** [for (let i = 0; i < len; i += chunkSize)
       binary += String.fromCharCode.apply(null, Array.from(chunk))] *)
Equations? chunk_loop (wavBytes : Uint8Array) (i : nat) (binary : string) : string
  by wf (length wavBytes - i)%nat lt :=
  chunk_loop wavBytes i binary with lt_dec i (length wavBytes) => {
    | left _ =>
        let chunk := subarray wavBytes i (Nat.min (i + chunkSize) (length wavBytes)) in
        chunk_loop wavBytes (i + chunkSize) (String.append binary (string_of_list_byte chunk));
    | right _ => binary }.
Proof.
  pose proof (Pos2Nat.is_pos 32768). unfold chunkSize. lia.
Qed.

(** [pcmToWav(pcmBase64, sampleRate)]; the sample rate is an integer number
    of Hz.  [atob] may throw; the writes into the 44-byte header are all in
    bounds. *)
Definition pcmToWav (pcmBase64 : string) (sampleRate : Z) : result string :=
  try pcmBinary := atob pcmBase64 in
  let pcmLen := String.length pcmBinary in
  let view : DataView := replicate 44 x00 in
  (* RIFF identifier *)
  try view := writeString view 0 "RIFF" in
  (* file length *)
  try view := setUint32 view 4 (36 + Z.of_nat pcmLen) in
  (* RIFF type *)
  try view := writeString view 8 "WAVE" in
  (* format chunk identifier *)
  try view := writeString view 12 "fmt " in
  (* format chunk length *)
  try view := setUint32 view 16 16 in
  (* sample format (raw) *)
  try view := setUint16 view 20 1 in
  (* channel count *)
  try view := setUint16 view 22 1 in
  (* sample rate *)
  try view := setUint32 view 24 sampleRate in
  (* byte rate (sample rate * block align) *)
  try view := setUint32 view 28 (sampleRate * 2) in
  (* block align (channel count * bytes per sample) *)
  try view := setUint16 view 32 2 in
  (* bits per sample *)
  try view := setUint16 view 34 16 in
  (* data chunk identifier *)
  try view := writeString view 36 "data" in
  (* data chunk length *)
  try view := setUint32 view 40 (Z.of_nat pcmLen) in
  (* Merge header and data *)
  let headerBytes : Uint8Array := view in
  let pcmBytes :=
    for_loop pcmLen 0
      (fun i bytes =>
         match charCodeAt pcmBinary i with
         | Some code => <[i := ToUint8 code]> bytes
         | None => <[i := x00]> bytes
         end)
      (replicate pcmLen x00) in
  let wavBytes := replicate (length headerBytes + pcmLen) x00 in
  try wavBytes := typed_set wavBytes headerBytes 0 in
  try wavBytes := typed_set wavBytes pcmBytes (length headerBytes) in
  (* Convert back to Base64 *)
  Ok (btoa (chunk_loop wavBytes 0 EmptyString)).

End Gemini.

(* ================================================================== *)
(** * src/services/gemini.ts: the speech and image engines             *)
(* ================================================================== *)

Module Engines.
Import JS.
Import Gemini.

(** ** The remote service *)

(** The parts of an SDK response the engines read.  A [Content] and its
    parts are those of [LiveVoice]. *)
Record Candidate : Type := { content : option LiveVoice.Content }.
Record GenerateContentResponse : Type := {
  response_text : option string;
  candidates : option (list Candidate)
}.

Record Image : Type := { imageBytes : option string }.
Record GeneratedImage : Type := { image : option Image }.
Record GenerateImagesResponse : Type := {
  generatedImages : option (list GeneratedImage)
}.

(** What the engines put in a request. *)
Inductive Modality : Type := AUDIO | IMAGE.

Record ContentRequest : Type := {
  content_model : string;
  content_text : string;
  content_inline : option (string * string);      (* mimeType, data *)
  responseModalities : option Modality;
  voiceName : option string
}.

Record ImagesRequest : Type := {
  images_model : string;
  images_prompt : string;
  numberOfImages : nat;
  outputMimeType : string;
  aspectRatio : string
}.

(** [ai.models.generateContent] and [ai.models.generateImages]: a call
    settles with a response or a thrown error, and may change the state [W]
    of the service. *)
Record Service (W : Type) : Type := {
  generateContent : ContentRequest -> W -> (GenerateContentResponse + thrown) * W;
  generateImages : ImagesRequest -> W -> (GenerateImagesResponse + thrown) * W
}.
Arguments generateContent {W} _ _ _.
Arguments generateImages {W} _ _ _.

(** The world an engine runs in: the service, and the labels of the lines
    the engine writes to the console (the warnings of [withRetry] are in its
    log). *)
Record World (W : Type) : Type := {
  remote : W;
  console : list string
}.
Arguments remote {W} _.
Arguments console {W} _.

Definition answered {W : Type} (w : World W) (remote' : W) : World W :=
  {| remote := remote'; console := console w |}.

Definition log_line {W : Type} (line : string) (w : World W) : World W :=
  {| remote := remote w; console := console w ++ [line] |}.

(** [response.candidates?.[0]?.content?.parts] *)
Definition first_parts (response : GenerateContentResponse) : option (list LiveVoice.Part) :=
  match candidates response with
  | Some cs =>
      match cs !! 0%nat with
      | Some c =>
          match content c with
          | Some ct => LiveVoice.parts ct
          | None => None
          end
      | None => None
      end
  | None => None
  end.

(** [parts?.[0]?.inlineData] *)
Definition first_inlineData (ps : option (list LiveVoice.Part)) : option LiveVoice.InlineData :=
  match ps with
  | Some l =>
      match l !! 0%nat with
      | Some p => LiveVoice.inlineData p
      | None => None
      end
  | None => None
  end.

(** [response.candidates?.[0]?.content?.parts?.[0]?.inlineData?.data] *)
Definition first_data (response : GenerateContentResponse) : option string :=
  match first_inlineData (first_parts response) with
  | Some d => LiveVoice.inline_data d
  | None => None
  end.

(** A string or [undefined] inside a template literal. *)
Definition template (s : option string) : string :=
  match s with
  | Some t => t
  | None => "undefined"
  end.

(** ** [generateSpeech] *)

(** The white space [trim] removes, among the characters of a [string]. *)
Definition is_white_space (c : ascii) : bool :=
  let k := N_of_ascii c in
  ((9 <=? k) && (k <=? 13) || (k =? 32) || (k =? 160))%N.

Fixpoint trim_start (cs : list ascii) : list ascii :=
  match cs with
  | c :: rest => if is_white_space c then trim_start rest else cs
  | [] => []
  end.

(** [s.trim()] *)
Definition trim (s : string) : string :=
  string_of_list_ascii (rev (trim_start (rev (trim_start (list_ascii_of_string s))))).

Section WithService.
Context {W : Type}.
Variable service : Service W.

(** The message of a DOMException, which the platform words as it likes. *)
Variable exn_message : exn -> string.

Definition thrown_of (e : exn) : thrown := error_object None (Some (exn_message e)).

Definition speech_request (text : string) : ContentRequest :=
  {| content_model := "gemini-2.5-flash-preview-tts";
     content_text := text;
     content_inline := None;
     responseModalities := Some AUDIO;
     voiceName := Some "Fenrir"%string |}.

(** The operation [generateSpeech] hands to [withRetry]. *)
Definition speech_attempt (text : string) (w : World W)
  : (option string + thrown) * World W :=
  let '(settled, remote') := generateContent service (speech_request text) (remote w) in
  let w := answered w remote' in
  match settled with
  | inl response =>
      let base64Pcm := first_data response in
      if LiveVoice.truthy base64Pcm then
        (* Convert Raw PCM to WAV so browsers can play it via <audio> tag *)
        match pcmToWav (default EmptyString base64Pcm) 24000 with
        | Ok wav => (inl (Some wav), w)
        | Throw e => (inr (thrown_of e), log_line "TTS Error:" w)
        end
      else (inl None, w)
  | inr error => (inr error, log_line "TTS Error:" w)
  end.

(** [generateSpeech(text)]: [null] or the base64 text of a WAV file, with
    what [withRetry] did. *)
Definition generateSpeech (text : string) (w : World W)
  : option string * list (step (option string)) * World W :=
  if negb (LiveVoice.truthy (Some text)) || (String.length (trim text) =? 0)%nat
  then (None, [], w)
  else
    let '(settled, log, w) := withRetry_default (speech_attempt text) w in
    match settled with
    | inl result => (result, log, w)
    | inr err => (None, log, log_line "Final TTS Failure:" w)
    end.

(** ** [generateImage] *)

Definition placeholder : string :=
  "data:image/svg+xml;charset=UTF-8,%3Csvg xmlns='http://www.w3.org/2000/svg' width='800' height='450' viewBox='0 0 800 450'%3E%3Crect fill='%231e293b' width='800' height='450'/%3E%3Ctext x='50%25' y='50%25' dominant-baseline='middle' text-anchor='middle' fill='%23475569' font-family='sans-serif' font-size='24'%3EAI Image Unavailable%3C/text%3E%3C/svg%3E".

Definition safePrompt (prompt : string) : string :=
  String.append prompt ", safe content, no text, cinematic lighting, abstract, 8k resolution".

Definition imagen_request (prompt aspectRatio : string) : ImagesRequest :=
  {| images_model := "imagen-4.0-generate-001";
     images_prompt := safePrompt prompt;
     numberOfImages := 1;
     outputMimeType := "image/jpeg";
     aspectRatio := aspectRatio |}.

Definition flash_image_request (prompt : string) : ContentRequest :=
  {| content_model := "gemini-2.5-flash-image";
     content_text := safePrompt prompt;
     content_inline := None;
     responseModalities := Some IMAGE;
     voiceName := None |}.

(** [response.generatedImages && response.generatedImages.length > 0 &&
     response.generatedImages[0].image?.imageBytes], as the bytes when the
    condition holds. *)
Definition imagen_bytes (response : GenerateImagesResponse) : option string :=
  match generatedImages response with
  | Some (first :: _) =>
      match image first with
      | Some im => if LiveVoice.truthy (imageBytes im) then imageBytes im else None
      | None => None
      end
  | _ => None
  end.

(** The operation [generateImage] hands to [withRetry]: Imagen, then the
    fallback model, then the placeholder.  Each call sits in a [try] of its
    own, so the outer [catch] of the operation has nothing to catch. *)
Definition image_attempt (prompt aspectRatio : string) (w : World W)
  : (string + thrown) * World W :=
  (* Attempt 1: Try Imagen 4 *)
  let '(settled, remote') :=
    generateImages service (imagen_request prompt aspectRatio) (remote w) in
  let w := answered w remote' in
  let '(found, w) :=
    match settled with
    | inl response =>
        match imagen_bytes response with
        | Some base64 => (Some (String.append "data:image/jpeg;base64," base64), w)
        | None => (None, w)
        end
    | inr e =>
        (None, log_line "Imagen 4 generation failed or blocked, attempting fallback..." w)
    end in
  match found with
  | Some url => (inl url, w)
  | None =>
      (* Fallback: Try Gemini 2.5 Flash Image *)
      let '(settled, remote') :=
        generateContent service (flash_image_request prompt) (remote w) in
      let w := answered w remote' in
      let '(found, w) :=
        match settled with
        | inl response =>
            match first_inlineData (first_parts response) with
            | Some d =>
                (Some (String.append "data:image/png;base64,"
                         (template (LiveVoice.inline_data d))), w)
            | None => (None, w)
            end
        | inr e => (None, log_line "Flash Image fallback failed" w)
        end in
      match found with
      | Some url => (inl url, w)
      | None =>
          (* LAST RESORT: Return Placeholder *)
          (inl placeholder,
           log_line "All AI image generation failed. Returning placeholder." w)
      end
  end.

Definition generateImage (prompt aspectRatio : string) (w : World W)
  : (string + thrown) * list (step string) * World W :=
  withRetry_default (image_attempt prompt aspectRatio) w.

(** ** [editImageWithPrompt] *)

(** The text after the first comma of a string, if it has one, and the text
    before the first comma. *)
Fixpoint after_comma (s : string) : option string :=
  match s with
  | EmptyString => None
  | String c rest => if Ascii.eqb c ","%char then Some rest else after_comma rest
  end.

Fixpoint before_comma (s : string) : string :=
  match s with
  | EmptyString => EmptyString
  | String c rest => if Ascii.eqb c ","%char then EmptyString else String c (before_comma rest)
  end.

(** [s.split(',')[1]] *)
Definition split_comma_1 (s : string) : option string :=
  match after_comma s with
  | Some rest => Some (before_comma rest)
  | None => None
  end.

(** [base64Image.split(',')[1] || base64Image] *)
Definition cleanBase64 (base64Image : string) : string :=
  if LiveVoice.truthy (split_comma_1 base64Image)
  then default EmptyString (split_comma_1 base64Image)
  else base64Image.

Definition edit_request (base64Image prompt : string) : ContentRequest :=
  {| content_model := "gemini-2.5-flash-image";
     content_text := String.append prompt ", high quality";
     content_inline := Some ("image/jpeg"%string, cleanBase64 base64Image);
     responseModalities := Some IMAGE;
     voiceName := None |}.

Definition no_image : thrown := error_object None (Some "No image returned from edit"%string).

Definition edit_attempt (base64Image prompt : string) (w : World W)
  : (string + thrown) * World W :=
  let '(settled, remote') :=
    generateContent service (edit_request base64Image prompt) (remote w) in
  let w := answered w remote' in
  match settled with
  | inl response =>
      match first_inlineData (first_parts response) with
      | Some d =>
          (inl (String.append "data:image/png;base64," (template (LiveVoice.inline_data d))),
           w)
      | None => (inr no_image, log_line "Error editing image:" w)
      end
  | inr error => (inr error, log_line "Error editing image:" w)
  end.

Definition editImageWithPrompt (base64Image prompt : string) (w : World W)
  : (string + thrown) * list (step string) * World W :=
  withRetry_default (edit_attempt base64Image prompt) w.

End WithService.

End Engines.

(* ================================================================== *)
(** * src/App.tsx: the text-to-speech handler                          *)
(* ================================================================== *)

Module App.
Import Gemini.
Import Engines.

(** The state [handleGenerateTTS] reads and writes, and the alerts it
    raises. *)
Record TtsState : Type := {
  ttsText : string;
  ttsAudioSrc : option string;
  isGeneratingTTS : bool
}.

Definition setTtsAudioSrc (src : string) (st : TtsState) : TtsState :=
  {| ttsText := ttsText st; ttsAudioSrc := Some src; isGeneratingTTS := isGeneratingTTS st |}.

Definition setIsGeneratingTTS (b : bool) (st : TtsState) : TtsState :=
  {| ttsText := ttsText st; ttsAudioSrc := ttsAudioSrc st; isGeneratingTTS := b |}.

(** [handleGenerateTTS()]: the state after the handler, the alerts it
    raised, and the world.  [generateSpeech] never rejects, so the [catch]
    of the handler has nothing to catch. *)
Definition handleGenerateTTS {W : Type} (service : Service W)
  (exn_message : JS.exn -> string) (st : TtsState) (w : World W)
  : TtsState * list string * World W :=
  if negb (LiveVoice.truthy (Some (ttsText st))) then (st, [], w)
  else
    let st := setIsGeneratingTTS true st in
    let '(base64, _, w) := generateSpeech service exn_message (ttsText st) w in
    let '(st, alerts) :=
      if LiveVoice.truthy base64
      then (setTtsAudioSrc
              (String.append "data:audio/wav;base64," (default EmptyString base64)) st,
            [])
      else (st, ["Audio generation failed."%string]) in
    (setIsGeneratingTTS false st, alerts, w).

End App.

(* ================================================================== *)
(** * Vocabulary of the statements                                     *)
(* ================================================================== *)

Import JS.
Import LiveVoice.
Import Gemini.
Import Engines.
Import App.

(** ** The codec *)

(** A character [atob] does not skip. *)
Definition base64_text (c : ascii) : Prop := is_ascii_whitespace c = false.

(** The bytes a base64 text stands for. *)
Definition base64_bytes (text : string) : result (list byte) :=
  try binary := atob text in Ok (list_byte_of_string binary).

(** The 16-bit value [createBlob] stores for a sample. *)
Definition pcm16 (x : number) : Z := ToInt16 (times x 32768).

(** Encode a frame of finite samples, then decode the chunk as one channel. *)
Definition roundtrip (samples : list Q) (rate : Z) : result AudioBuffer :=
  try bytes := decode (data (createBlob (map Finite samples))) in
  decodeAudioData bytes rate 1.

Definition within_quantization (q : Q) (y : number) : Prop :=
  exists r : Q, y = Finite r /\ (Qabs (r - q) <= 1 # 32768)%Q.

(** The round trip gives back one channel with as many samples, each within
    1/32768 of the original. *)
Definition reconstructs (samples : list Q) (rate : Z) : Prop :=
  exists out : list number,
    roundtrip samples rate = Ok {| sampleRate := rate; channels := [out] |}
    /\ Forall2 within_quantization samples out.

(** The samples of [numChannels] channels of [frames] frames, read from
    interleaved 16-bit data. *)
Definition deinterleaved (dataInt16 : list Z) (numChannels frames : nat)
  : list (list number) :=
  map (fun c =>
         map (fun i => Finite (nth (i * numChannels + c) dataInt16 0 # 32768))
           (seq 0 frames))
    (seq 0 numChannels).

(** A sample in the range of 16-bit PCM: finite, at least -1, below 1. *)
Definition unit_sample (y : number) : Prop :=
  exists q : Q, y = Finite q /\ (-1 <= q)%Q /\ (q < 1)%Q.

(** ** What a run of the session schedules *)

(** One scheduled segment: the clock reading when [onmessage] ran, the start
    time passed to [source.start], and the duration of the buffer. *)
Record Segment : Type := {
  clock : Q;
  start : Q;
  span : Q
}.

Definition segment_of (currentTime : Q) (e : effect) : list Segment :=
  match e with
  | source_start when buffer =>
      [{| clock := currentTime; start := when; span := duration buffer |}]
  | _ => []
  end.

Definition scheduled_by (ev : event) (st : State) : list Segment :=
  match ev with
  | Message currentTime msg =>
      flat_map (segment_of currentTime) (effects (onmessage currentTime msg st))
  | _ => []
  end.

(** The segments a sequence of callbacks schedules, in order. *)
Fixpoint playback_log (evs : list event) (st : State) : list Segment :=
  match evs with
  | [] => []
  | ev :: rest => scheduled_by ev st ++ playback_log rest (snd (handle ev st))
  end.

(** The [source.start] calls among some effects, as (start, duration). *)
Definition starts_of (out : list effect) : list (Q * Q) :=
  flat_map (fun e => match e with
                     | source_start when buffer => [(when, duration buffer)]
                     | _ => []
                     end) out.

(** The output clock starts at [c] or later and never runs backwards over
    the messages of [evs]. *)
Fixpoint clock_from (c : Q) (evs : list event) : Prop :=
  match evs with
  | [] => True
  | Message currentTime _ :: rest => (c <= currentTime)%Q /\ clock_from currentTime rest
  | _ :: rest => clock_from c rest
  end.

(** ** Messages *)

(** The transcript fragment of a message ([""] when it has none) and the
    audio payload it carries, if any. *)
Definition fragment (msg : LiveServerMessage) : string :=
  default EmptyString (transcript_text msg).

Definition carries_audio (msg : LiveServerMessage) : bool :=
  match base64Audio msg with
  | Ok audio => truthy audio
  | Throw _ => false
  end.

Definition payload (msg : LiveServerMessage) : string :=
  match base64Audio msg with
  | Ok audio => default EmptyString audio
  | Throw _ => EmptyString
  end.

(** The decoding [onmessage] applies to a payload. *)
Definition decoded (audio : string) : result AudioBuffer :=
  try bytes := decode audio in decodeAudioData bytes 24000 1.

Definition audio_part (base64 : string) : Content :=
  {| parts := Some [{| inlineData := Some {| inline_data := Some base64 |} |}] |}.

Definition audio_message (base64 : string) : LiveServerMessage :=
  {| serverContent :=
       Some {| outputTranscription := None; modelTurn := Some (audio_part base64) |} |}.

Definition transcript_message (fragment : string) : LiveServerMessage :=
  {| serverContent :=
       Some {| outputTranscription := Some {| text := Some fragment |};
               modelTurn := None |} |}.

Definition full_message (fragment base64 : string) : LiveServerMessage :=
  {| serverContent :=
       Some {| outputTranscription := Some {| text := Some fragment |};
               modelTurn := Some (audio_part base64) |} |}.

(** Two payloads arriving together at clock 0 (four frames, then three), a
    transcript-only message, a payload with an odd number of bytes, and a
    late payload at clock 1. *)
Definition sample_run : list event :=
  [Open;
   Message 0 (audio_message "AAAAAAAAAAA=");
   Message 0 (full_message "Hello" "AAAAAAAA");
   Message (1 # 1000) (transcript_message ", world");
   Message (1 # 1000) (audio_message "AAAA");
   Message 1 (audio_message "AAAAAAAA")].

(** The fragments of the messages of a sequence of callbacks, concatenated in
    arrival order. *)
Fixpoint fragments (evs : list event) : string :=
  match evs with
  | [] => EmptyString
  | Message _ msg :: rest => String.append (fragment msg) (fragments rest)
  | _ :: rest => fragments rest
  end.

(** ** The schedule in binary64 *)

(** One [source.start] call: the clock reading when [onmessage] ran, the
    start time passed, and the buffer. *)
Record Scheduled : Type := {
  at_reading : Q;
  at_start : number;
  scheduled_buffer : AudioBuffer
}.

(** The [source.start] calls of a sequence of callbacks, in order, from a
    given value of the cursor.  Only [onmessage] reads or writes the
    cursor. *)
Fixpoint playback64 (evs : list event) (nextStartTime : number) : list Scheduled :=
  match evs with
  | [] => []
  | Message currentTime msg :: rest =>
      let '(out, nextStartTime') :=
        handle_audio_output64 (Finite currentTime) msg nextStartTime in
      map (fun call => {| at_reading := currentTime; at_start := fst call;
                          scheduled_buffer := snd call |}) out
      ++ playback64 rest nextStartTime'
  | _ :: rest => playback64 rest nextStartTime
  end.

(** The buffers of the payloads that decode, in arrival order. *)
Definition decodable (evs : list event) : list AudioBuffer :=
  flat_map (fun ev =>
              match ev with
              | Message _ msg =>
                  if carries_audio msg then
                    match decoded (payload msg) with
                    | Ok audioBuffer => [audioBuffer]
                    | Throw _ => []
                    end
                  else []
              | _ => []
              end) evs.

(** The clock readings of the messages. *)
Definition readings (evs : list event) : list Q :=
  flat_map (fun ev => match ev with Message currentTime _ => [currentTime] | _ => [] end)
    evs.

(** A non-negative finite binary64 number. *)
Definition binary64 (x : Q) : Prop :=
  (0 <= x)%Q /\ (x <= MAX_VALUE)%Q /\ (round64 x == x)%Q.

Definition is_binary64 (x : Q) : bool :=
  Qle_bool 0 x && Qle_bool x MAX_VALUE && Qeq_bool (round64 x) x.

(** Equal numbers, and the order of two numbers that are not NaN. *)
Definition same (a b : number) : Prop :=
  match a, b with
  | Finite x, Finite y => (x == y)%Q
  | NaN, NaN => True
  | Infinity s, Infinity s' => s = s'
  | _, _ => False
  end.

Definition at_most (a b : number) : Prop :=
  match a, b with
  | Finite x, Finite y => (x <= y)%Q
  | Finite _, Infinity s => s = false
  | Infinity s, Finite _ => s = true
  | Infinity s, Infinity s' => s = true \/ s' = false
  | _, _ => False
  end.

Definition finite (a : number) : Prop :=
  match a with
  | Finite _ => True
  | _ => False
  end.

(** Where the cursor is after a segment: its start plus its duration, as
    the code adds them. *)
Definition end64 (s : Scheduled) : number :=
  add64 (at_start s) (duration64 (scheduled_buffer s)).

(** Consecutive segments: no earlier start; no start before the rounded end
    of the one before; and each starts at that rounded end or at its own
    clock reading, whichever is later, so no later than that. *)
Fixpoint chained (prev : Scheduled) (log : list Scheduled) : Prop :=
  match log with
  | [] => True
  | s :: rest =>
      finite (at_start s)
      /\ at_most (at_start prev) (at_start s)
      /\ at_most (end64 prev) (at_start s)
      /\ same (at_start s) (Math_max (end64 prev) (Finite (at_reading s)))
      /\ chained s rest
  end.

(** Every segment has ended, by the rounded sum of its start and its
    duration, when any later one starts. *)
Fixpoint disjoint_in_order (log : list Scheduled) : Prop :=
  match log with
  | [] => True
  | s :: rest =>
      Forall (fun s' => at_most (end64 s) (at_start s')) rest
      /\ disjoint_in_order rest
  end.

(** For each pair of consecutive segments, the start of the second minus the
    exact sum of the start and the duration of the first: negative when they
    overlap, positive when there is a gap. *)
Fixpoint exact_gaps (log : list Scheduled) : list Q :=
  match log with
  | [] => []
  | prev :: rest =>
      match rest with
      | s :: _ =>
          match at_start prev, duration64 (scheduled_buffer prev), at_start s with
          | Finite p, Finite d, Finite q => [Qred (q - (p + d))]
          | _, _, _ => []
          end
      | [] => []
      end ++ exact_gaps rest
  end.

(** Three payloads of four, three and three frames, and three of one, two
    and one frame, each run arriving with the clock at 0. *)
Definition frames_4_3_3 : list event :=
  [Message 0 (audio_message "AAAAAAAAAAA=");
   Message 0 (audio_message "AAAAAAAA");
   Message 0 (audio_message "AAAAAAAA")].

(** The messages of [sample_run] with clock readings that are binary64
    numbers: 0, 0, 2^-10, 2^-10 and 1. *)
Definition sample_run64 : list event :=
  [Open;
   Message 0 (audio_message "AAAAAAAAAAA=");
   Message 0 (full_message "Hello" "AAAAAAAA");
   Message (1 # 1024) (transcript_message ", world");
   Message (1 # 1024) (audio_message "AAAA");
   Message 1 (audio_message "AAAAAAAA")].

Definition frames_1_2_1 : list event :=
  [Message 0 (audio_message "AAA=");
   Message 0 (audio_message "AAAAAA==");
   Message 0 (audio_message "AAA=")].

(** ** Binary64 in the standard library

    [SpecFloat] gives the IEEE 754 operations on a significand and an
    exponent; these read its numbers as [number]s, to compare [add64] and
    [binary64_of] with it. *)

Definition spec_number (f : SpecFloat.spec_float) : number :=
  match f with
  | SpecFloat.S754_zero _ => Finite 0
  | SpecFloat.S754_infinity s => Infinity s
  | SpecFloat.S754_nan => NaN
  | SpecFloat.S754_finite s m e =>
      Finite (inject_Z (if s then Zneg m else Zpos m) * 2 ^ e)
  end.

(** The binary64 number nearest to [m * 2^e]. *)
Definition spec_of (me : Z * Z) : SpecFloat.spec_float :=
  SpecFloat.binary_normalize 53 1024 (fst me) (snd me) false.

Definition same_number (a b : number) : bool :=
  match a, b with
  | Finite x, Finite y => Qeq_bool x y
  | NaN, NaN => true
  | Infinity s, Infinity s' => Bool.eqb s s'
  | _, _ => false
  end.

Definition agree_on_sum (a b : Z * Z) : bool :=
  same_number (spec_number (SpecFloat.SFadd 53 1024 (spec_of a) (spec_of b)))
    (add64 (spec_number (spec_of a)) (spec_number (spec_of b))).

Definition agree_on_quotient (a b : Z * Z) : bool :=
  match spec_number (spec_of a), spec_number (spec_of b) with
  | Finite x, Finite y =>
      Qeq_bool y 0
      || same_number (spec_number (SpecFloat.SFdiv 53 1024 (spec_of a) (spec_of b)))
           (binary64_of (x / y))
  | _, _ => true
  end.

Definition binary64_samples : list (Z * Z) :=
  [(1, 0); (3, 0); (4, 0); (24000, 0); (4294967295, 0); (1, -1074); (3, -1074);
   (4503599627370497, -1074); (9007199254740991, -1074); (9007199254740991, 900);
   (9007199254740991, 971); (5, -1080); (7, -60); (-5, -3); (6148914691236517, -65);
   (1, -53); (3, -55)].

(** ** Resources *)

(** The effects that allocate something: the API client, an audio context
    or node, the microphone, the remote session. *)
Definition allocates (e : effect) : bool :=
  match e with
  | new_GoogleGenAI _ | new_AudioContext _ | createGain | getUserMedia
  | live_connect _ _ | createMediaStreamSource | createScriptProcessor _ _ _ => true
  | _ => false
  end.

(** The effects that release a resource. *)
Definition releases (e : effect) : bool :=
  match e with
  | track_stop _ | context_close _ => true
  | _ => false
  end.

(** A session that is listening: connected with a key and a one-track
    microphone stream, then opened. *)
Definition listening : State :=
  snd (onopen (snd (connect {| VITE_API_KEY := Some "X"%string; window_API_KEY := None;
                               microphone := Ok [7%nat] |} initial))).

(** ** The WAV header *)

(** The value of a little-endian field. *)
Fixpoint le_value (bs : list byte) : Z :=
  match bs with
  | [] => 0
  | b :: rest => byte_value b + 256 * le_value rest
  end.

(** The field of [width] bytes at [offset]. *)
Definition field (bs : list byte) (offset width : nat) : list byte :=
  take width (drop offset bs).

(** The header [pcmToWav] builds, field by field. *)
Definition wav_header (pcmLen : nat) (sampleRate : Z) : list byte :=
  list_byte_of_string "RIFF"
  ++ le_bytes 4 ((36 + Z.of_nat pcmLen) mod 2 ^ 32)
  ++ list_byte_of_string "WAVE"
  ++ list_byte_of_string "fmt "
  ++ le_bytes 4 16 ++ le_bytes 2 1 ++ le_bytes 2 1
  ++ le_bytes 4 (sampleRate mod 2 ^ 32)
  ++ le_bytes 4 ((sampleRate * 2) mod 2 ^ 32)
  ++ le_bytes 2 2 ++ le_bytes 2 16
  ++ list_byte_of_string "data"
  ++ le_bytes 4 (Z.of_nat pcmLen mod 2 ^ 32).

(** ** Retrying *)

(** How the calls of a log settled, and the delays it waited. *)
Definition calls {T : Type} (log : list (step T)) : list (T + thrown) :=
  flat_map (fun s => match s with called o => [o] | _ => [] end) log.

Definition delays {T : Type} (log : list (step T)) : list Z :=
  flat_map (fun s => match s with setTimeout d => [d] | _ => [] end) log.

(** [n] successive calls of [fn], starting in the world [w]. *)
Fixpoint successive {W T : Type} (fn : W -> (T + thrown) * W) (n : nat) (w : W)
  : list (T + thrown) * W :=
  match n with
  | O => ([], w)
  | Datatypes.S n' =>
      let '(o, w1) := fn w in
      let '(os, w2) := successive fn n' w1 in
      (o :: os, w2)
  end.

(** [k] delays that double, from [delay]. *)
Fixpoint backoff (delay : Z) (k : nat) : list Z :=
  match k with
  | O => []
  | Datatypes.S k' => delay :: backoff (delay * 2) k'
  end.

(** A call that was followed by a retry threw a retryable error. *)
Definition retried {T : Type} (o : T + thrown) : Prop :=
  exists e, o = inr e /\ shouldRetry e = true.



(** The sum of some delays. *)
Definition total (ds : list Z) : Z := fold_right Z.add 0 ds.

(** A service that is down for its first [k] calls. *)
Definition down_for (k : nat) (n : nat) : (string + thrown) * nat :=
  if (n <? k)%nat
  then (inr (error_object (Some 503) (Some "The model is overloaded"%string)), Datatypes.S n)
  else (inl "ok"%string, Datatypes.S n).

(** ** The engines *)

(** A text of nothing but white space. *)
Definition blank (text : string) : Prop :=
  Forall (fun c => is_white_space c = true) (list_ascii_of_string text).

(** The bytes of a WAV file with the given PCM data. *)
Definition wav_file (pcm : list byte) (sampleRate : Z) : list byte :=
  wav_header (length pcm) sampleRate ++ pcm.

(** What the first engine and the fallback engine of [generateImage] found
    in the way their calls settled. *)
Definition imagen_image (settled : GenerateImagesResponse + thrown) : option string :=
  match settled with
  | inl response => imagen_bytes response
  | inr _ => None
  end.

Definition flash_image (settled : GenerateContentResponse + thrown) : option InlineData :=
  match settled with
  | inl response => first_inlineData (first_parts response)
  | inr _ => None
  end.

(** The answer of the service behind a WAV file that [generateSpeech]
    returns, and the one behind a URL that [editImageWithPrompt] returns. *)
Definition speech_answer (wav : string) (answer : GenerateContentResponse + thrown)
  : Prop :=
  exists (response : GenerateContentResponse) (b : string) (pcm : list byte),
    answer = inl response
    /\ first_data response = Some b
    /\ base64_bytes b = Ok pcm
    /\ base64_bytes wav = Ok (wav_file pcm 24000).

Definition edit_answer (url : string) (answer : GenerateContentResponse + thrown)
  : Prop :=
  exists (response : GenerateContentResponse) (d : InlineData),
    answer = inl response
    /\ first_inlineData (first_parts response) = Some d
    /\ url = String.append "data:image/png;base64," (template (inline_data d)).

Definition no_comma (s : string) : Prop :=
  Forall (fun c => c <> ","%char) (list_ascii_of_string s).

(** A response whose first part carries [payload], and a response with no
    candidate at all. *)
Definition carrying (payload : string) : GenerateContentResponse :=
  {| response_text := None;
     candidates := Some [{| content := Some (audio_part payload) |}] |}.

Definition refusal : GenerateContentResponse :=
  {| response_text := Some "I cannot help with that."%string; candidates := None |}.

(** A service that answers every content request with the same response and
    has no image model; its state counts the requests. *)
Definition answering (response : GenerateContentResponse) : Service nat :=
  {| generateContent := fun _ n => (inl response, Datatypes.S n);
     generateImages :=
       fun _ n => (inr (error_object (Some 404) (Some "model not found"%string)),
                   Datatypes.S n) |}.

(** A service that is overloaded whenever it is asked. *)
Definition overloaded : Service nat :=
  {| generateContent :=
       fun _ n => (inr (error_object (Some 503) (Some "The model is overloaded"%string)),
                   Datatypes.S n);
     generateImages :=
       fun _ n => (inr (error_object (Some 503) (Some "The model is overloaded"%string)),
                   Datatypes.S n) |}.

Definition quiet : World nat := {| remote := 0%nat; console := [] |}.

Definition wording (e : exn) : string := "The operation failed."%string.

(** ** Proof automation *)

(** Division and remainder by constants, for [lia]. *)
Ltac euclid := zify; Z.to_euclidean_division_equations; lia.

(* ================================================================== *)
(** * Facts about the platform model                                   *)
(* ================================================================== *)

(** ** The model on known values *)

Example btoa_vectors :
  btoa "" = ""%string /\ btoa "f" = "Zg=="%string /\ btoa "fo" = "Zm8="%string
  /\ btoa "foo" = "Zm9v"%string /\ btoa "foobar" = "Zm9vYmFy"%string.
Proof. repeat split. Qed.

Example atob_vectors :
  atob "Zm9vYg==" = Ok "foob"%string
  /\ atob "Zm9vYg" = Ok "foob"%string
  /\ atob " Zm9v YmE= " = Ok "fooba"%string
  /\ atob "Zm9vY" = Throw InvalidCharacterError
  /\ atob "Zm9vYg=" = Throw InvalidCharacterError
  /\ atob "Zm9v*mFy" = Throw InvalidCharacterError.
Proof. repeat split. Qed.

Example ToInt16_values :
  ToInt16 (Finite (32767 # 1)) = 32767 /\ ToInt16 (Finite (32768 # 1)) = -32768
  /\ ToInt16 (Finite (-32769 # 1)) = 32767 /\ ToInt16 (Finite (-3 # 2)) = -1
  /\ ToInt16 (Finite (3 # 2)) = 1 /\ ToInt16 NaN = 0 /\ ToInt16 (Infinity false) = 0.
Proof. repeat split. Qed.

Example typed_array_views :
  Uint8Array_of_buffer [1; -2; 32767; -32768]
  = [x01; x00; xfe; xff; xff; x7f; x00; x80]
  /\ Int16Array_of_buffer [x01; x00; xfe; xff; xff; x7f; x00; x80]
     = Ok [1; -2; 32767; -32768]
  /\ Int16Array_of_buffer [x01; x00; xfe] = Throw RangeError.
Proof. repeat split. Qed.

Example createBuffer_values :
  createBuffer 1 (quotient 3 1) 24000 =
    Ok {| sampleRate := 24000; channels := [[Finite 0; Finite 0; Finite 0]] |}
  /\ createBuffer 2 (quotient 3 2) 24000 =
     Ok {| sampleRate := 24000; channels := [[Finite 0]; [Finite 0]] |}
  /\ createBuffer 1 (quotient 0 1) 24000 = Throw NotSupportedError
  /\ createBuffer 0 (quotient 4 0) 24000 = Throw NotSupportedError.
Proof. repeat split. Qed.

(** ** Bytes *)

Lemma byte_of_N_to_N (b : byte) : byte_of_N (Byte.to_N b) = b.
Proof.
  unfold byte_of_N. pose proof (Byte.to_N_bounded b) as Hb.
  rewrite N.mod_small by lia. now rewrite Byte.of_to_N.
Qed.

Lemma byte_of_N_eq (n : N) (b : byte) : n = Byte.to_N b -> byte_of_N n = b.
Proof. intros ->. apply byte_of_N_to_N. Qed.

Lemma to_N_byte_of_N (n : N) : Byte.to_N (byte_of_N n) = (n mod 256)%N.
Proof.
  unfold byte_of_N. destruct (Byte.of_N (n mod 256)) as [b|] eqn:E.
  - now apply Byte.to_of_N.
  - apply Byte.of_N_None_iff in E.
    pose proof (N.mod_upper_bound n 256 ltac:(discriminate)). lia.
Qed.

Lemma byte_value_range (b : byte) : 0 <= byte_value b < 256.
Proof. unfold byte_value. pose proof (Byte.to_N_bounded b). lia. Qed.

Lemma ToUint8_byte_value (b : byte) : ToUint8 (byte_value b) = b.
Proof.
  unfold ToUint8. pose proof (byte_value_range b) as Hb.
  rewrite Z.mod_small by lia. unfold byte_value.
  rewrite N2Z.id. apply byte_of_N_to_N.
Qed.

Lemma byte_value_ToUint8 (z : Z) : byte_value (ToUint8 z) = z mod 256.
Proof.
  unfold ToUint8, byte_value. rewrite to_N_byte_of_N.
  pose proof (Z.mod_pos_bound z 256 ltac:(lia)) as Hz.
  rewrite N2Z.inj_mod, Z2N.id by lia. simpl (Z.of_N 256).
  apply Z.mod_small. lia.
Qed.

(** ** Base64 *)

Lemma sextets_enumerated (n : N) : (n < 64)%N -> In n (map N.of_nat (seq 0 64)).
Proof.
  intros Hn. apply in_map_iff. exists (N.to_nat n). split.
  - apply N2Nat.id.
  - apply in_seq. lia.
Qed.

Lemma char_sextet_char (n : N) :
  (n < 64)%N ->
  char_sextet (sextet_char n) = Some n
  /\ is_padding (sextet_char n) = false
  /\ is_ascii_whitespace (sextet_char n) = false.
Proof.
  intros Hn.
  assert (Hall : forallb
            (fun n => match char_sextet (sextet_char n) with
                      | Some m => N.eqb m n
                      | None => false
                      end
                      && negb (is_padding (sextet_char n))
                      && negb (is_ascii_whitespace (sextet_char n)))
            (map N.of_nat (seq 0 64)) = true) by (vm_compute; reflexivity).
  rewrite forallb_forall in Hall. specialize (Hall n (sextets_enumerated n Hn)).
  apply andb_prop in Hall. destruct Hall as [Hall Hw].
  apply andb_prop in Hall. destruct Hall as [Hc Hp].
  destruct (char_sextet (sextet_char n)) as [m|]; [|discriminate].
  apply N.eqb_eq in Hc. subst m.
  repeat split; [now apply negb_true_iff in Hp | now apply negb_true_iff in Hw].
Qed.

Lemma decode4_encode3 (a b c : byte) :
  exists c0 c1 c2 c3,
    encode3 a b c = [c0; c1; c2; c3]
    /\ decode4 c0 c1 c2 c3 = Some [a; b; c]
    /\ is_padding c3 = false
    /\ Forall base64_text [c0; c1; c2; c3].
Proof.
  pose proof (Byte.to_N_bounded a) as Ha.
  pose proof (Byte.to_N_bounded b) as Hb.
  pose proof (Byte.to_N_bounded c) as Hc.
  unfold encode3. do 4 eexists. split; [reflexivity|].
  destruct (char_sextet_char (Byte.to_N a / 4)) as (E0 & _ & W0); [euclid|].
  destruct (char_sextet_char (Byte.to_N a mod 4 * 16 + Byte.to_N b / 16))
    as (E1 & _ & W1); [euclid|].
  destruct (char_sextet_char (Byte.to_N b mod 16 * 4 + Byte.to_N c / 64))
    as (E2 & _ & W2); [euclid|].
  destruct (char_sextet_char (Byte.to_N c mod 64)) as (E3 & P3 & W3); [euclid|].
  unfold decode4. rewrite E0, E1, E2, E3.
  repeat split; [|exact P3|repeat constructor; assumption].
  f_equal. repeat apply f_equal2; try reflexivity; apply byte_of_N_eq; euclid.
Qed.

Lemma decode3_encode2 (a b : byte) :
  exists c0 c1 c2 c3,
    encode2 a b = [c0; c1; c2; c3]
    /\ decode3 c0 c1 c2 = Some [a; b]
    /\ is_padding c3 = true /\ is_padding c2 = false
    /\ Forall base64_text [c0; c1; c2; c3].
Proof.
  pose proof (Byte.to_N_bounded a) as Ha.
  pose proof (Byte.to_N_bounded b) as Hb.
  unfold encode2. do 4 eexists. split; [reflexivity|].
  destruct (char_sextet_char (Byte.to_N a / 4)) as (E0 & _ & W0); [euclid|].
  destruct (char_sextet_char (Byte.to_N a mod 4 * 16 + Byte.to_N b / 16))
    as (E1 & _ & W1); [euclid|].
  destruct (char_sextet_char (Byte.to_N b mod 16 * 4)) as (E2 & P2 & W2); [euclid|].
  unfold decode3. rewrite E0, E1, E2.
  repeat split; [|exact P2|repeat constructor; assumption || reflexivity].
  f_equal. repeat apply f_equal2; try reflexivity; apply byte_of_N_eq; euclid.
Qed.

Lemma decode2_encode1 (a : byte) :
  exists c0 c1 c2 c3,
    encode1 a = [c0; c1; c2; c3]
    /\ decode2 c0 c1 = Some [a]
    /\ is_padding c3 = true /\ is_padding c2 = true
    /\ Forall base64_text [c0; c1; c2; c3].
Proof.
  pose proof (Byte.to_N_bounded a) as Ha.
  unfold encode1. do 4 eexists. split; [reflexivity|].
  destruct (char_sextet_char (Byte.to_N a / 4)) as (E0 & _ & W0); [euclid|].
  destruct (char_sextet_char (Byte.to_N a mod 4 * 16)) as (E1 & _ & W1); [euclid|].
  unfold decode2. rewrite E0, E1.
  repeat split; [|repeat constructor; assumption || reflexivity].
  f_equal. repeat apply f_equal2; try reflexivity; apply byte_of_N_eq; euclid.
Qed.

Lemma decode_groups_more (c0 c1 c2 c3 : ascii) (rest : list ascii) :
  rest <> [] ->
  decode_groups (c0 :: c1 :: c2 :: c3 :: rest) =
  match decode4 c0 c1 c2 c3, decode_groups rest with
  | Some x, Some y => Some (x ++ y)
  | _, _ => None
  end.
Proof. destruct rest; [contradiction|reflexivity]. Qed.

(** [encode_groups] and [decode_groups] consume three bytes, respectively four
    characters, at a time: induction on a bound of the length. *)
Lemma decode_encode_groups_bounded (n : nat) :
  forall bs : list byte,
    (length bs <= n)%nat ->
    decode_groups (encode_groups bs) = Some bs
    /\ Forall base64_text (encode_groups bs).
Proof.
  induction n as [|n IH]; intros bs Hlen.
  - destruct bs; [split; [reflexivity|constructor]|simpl in Hlen; lia].
  - destruct bs as [|a [|b [|c rest]]].
    + split; [reflexivity|constructor].
    + destruct (decode2_encode1 a) as (c0 & c1 & c2 & c3 & E & D & P3 & P2 & W).
      cbn [encode_groups]. rewrite E. cbn [decode_groups]. rewrite P3, P2. now split.
    + destruct (decode3_encode2 a b) as (c0 & c1 & c2 & c3 & E & D & P3 & P2 & W).
      cbn [encode_groups]. rewrite E. cbn [decode_groups]. rewrite P3, P2. now split.
    + destruct (decode4_encode3 a b c) as (c0 & c1 & c2 & c3 & E & D & P3 & W).
      destruct (IH rest) as [IHd IHw]; [simpl in Hlen; lia|].
      cbn [encode_groups]. rewrite E. split.
      * cbn [app]. destruct (encode_groups rest) as [|r rs] eqn:Er.
        -- cbn [decode_groups]. rewrite P3, D.
           destruct rest as [|x [|y [|z rest']]]; [reflexivity|..];
             cbn in Er; discriminate.
        -- rewrite decode_groups_more by discriminate. now rewrite D, IHd.
      * apply Forall_app. now split.
Qed.

Lemma decode_encode_groups (bs : list byte) :
  decode_groups (encode_groups bs) = Some bs.
Proof. apply (decode_encode_groups_bounded (length bs)). lia. Qed.

Lemma encode_groups_text (bs : list byte) : Forall base64_text (encode_groups bs).
Proof. apply (decode_encode_groups_bounded (length bs)). lia. Qed.

Lemma filter_all {A : Type} (p : A -> bool) (l : list A) :
  Forall (fun x => p x = true) l -> List.filter p l = l.
Proof.
  induction 1 as [|x l Hx _ IH]; [reflexivity|].
  cbn. rewrite Hx. now f_equal.
Qed.

(** [atob] undoes [btoa] on every binary string. *)
Lemma atob_btoa (s : string) : atob (btoa s) = Ok s.
Proof.
  unfold atob, btoa. rewrite list_ascii_of_string_of_list_ascii.
  rewrite filter_all.
  - rewrite decode_encode_groups. now rewrite string_of_list_byte_of_string.
  - eapply Forall_impl; [apply encode_groups_text|].
    intros c Hc. unfold base64_text in Hc. now rewrite Hc.
Qed.

(** ** Loops *)

Section Loops.
Context {S : Type}.

Lemma for_loop_ext (body1 body2 : nat -> S -> S) (count : nat) :
  forall (start : nat) (s : S),
    (forall i s', (start <= i < start + count)%nat -> body1 i s' = body2 i s') ->
    for_loop count start body1 s = for_loop count start body2 s.
Proof.
  induction count as [|count IH]; intros start s Hext; [reflexivity|].
  cbn [for_loop]. rewrite Hext by lia. apply IH.
  intros i s' Hi. apply Hext. lia.
Qed.

Lemma for_loop_split (body : nat -> S -> S) (n m : nat) :
  forall (start : nat) (s : S),
    for_loop (n + m) start body s =
    for_loop m (start + n) body (for_loop n start body s).
Proof.
  induction n as [|n IH]; intros start s; cbn [for_loop Nat.add].
  - now rewrite Nat.add_0_r.
  - rewrite IH. f_equal. lia.
Qed.

End Loops.

(** A loop that stores [f i] at index [i] of an array fills the window it
    runs over with [f start], [f (start + 1)], ... *)
Lemma for_loop_fill {A : Type} (f : nat -> A) (count : nat) :
  forall (done todo rest : list A),
    length todo = count ->
    for_loop count (length done) (fun i a => <[i := f i]> a) (done ++ todo ++ rest)
    = done ++ map f (seq (length done) count) ++ rest.
Proof.
  induction count as [|count IH]; intros done todo rest Hlen.
  - destruct todo; [reflexivity|discriminate].
  - destruct todo as [|x todo]; [discriminate|].
    cbn [for_loop seq map app].
    replace (length done) with (length done + 0)%nat at 2 by lia.
    rewrite insert_app_r. cbn [list_insert insert].
    specialize (IH (done ++ [f (length done)]) todo rest).
    rewrite length_app in IH. cbn [length] in IH.
    replace (length done + 1)%nat with (Datatypes.S (length done)) in IH by lia.
    rewrite <- !app_assoc in IH. cbn [app] in IH.
    apply IH. now injection Hlen.
Qed.

Lemma for_loop_fill_all {A : Type} (f : nat -> A) (a : list A) :
  for_loop (length a) 0 (fun i a => <[i := f i]> a) a = map f (seq 0 (length a)).
Proof.
  pose proof (for_loop_fill f (length a) [] a [] eq_refl) as H.
  cbn [app length] in H. now rewrite !app_nil_r in H.
Qed.

Lemma map_seq_lookup {A B : Type} (f : nat -> B) (g : A -> B) (l : list A) :
  forall k : nat,
    (forall i x, l !! i = Some x -> f (k + i)%nat = g x) ->
    map f (seq k (length l)) = map g l.
Proof.
  induction l as [|x l IH]; intros k Hf; [reflexivity|].
  cbn [length seq map]. f_equal.
  - rewrite <- (Hf 0%nat x eq_refl). f_equal. lia.
  - apply IH. intros i y Hi.
    rewrite <- (Hf (Datatypes.S i) y Hi). f_equal. lia.
Qed.

(** ** Binary strings and byte arrays *)

Lemma get_list_ascii (s : string) :
  forall i : nat, String.get i s = list_ascii_of_string s !! i.
Proof.
  induction s as [|c s IH]; intros [|i]; cbn; auto.
Qed.

Lemma length_list_ascii (s : string) :
  length (list_ascii_of_string s) = String.length s.
Proof. induction s as [|c s IH]; cbn; [reflexivity|now f_equal]. Qed.

Lemma length_list_byte (s : string) :
  length (list_byte_of_string s) = String.length s.
Proof.
  unfold list_byte_of_string. now rewrite length_map, length_list_ascii.
Qed.

Lemma ToUint8_char (c : ascii) : ToUint8 (Z.of_N (N_of_ascii c)) = byte_of_ascii c.
Proof.
  pose proof (N_ascii_bounded c) as Hc.
  unfold ToUint8. rewrite Z.mod_small by lia. rewrite N2Z.id.
  apply byte_of_N_eq. symmetry. apply Byte.to_of_N.
  symmetry. apply byte_of_ascii_via_N.
Qed.

(** The loop shared by [decode] and [pcmToWav]:
    [for (i = 0; i < s.length; i++) bytes[i] = s.charCodeAt(i)]. *)
Lemma bytes_of_binary_string (s : string) :
  for_loop (String.length s) 0
    (fun i bytes =>
       match charCodeAt s i with
       | Some code => <[i := ToUint8 code]> bytes
       | None => <[i := x00]> bytes
       end)
    (replicate (String.length s) x00)
  = list_byte_of_string s.
Proof.
  set (f := fun i => match charCodeAt s i with
                     | Some code => ToUint8 code
                     | None => x00
                     end).
  rewrite (for_loop_ext _ (fun i a => <[i := f i]> a)).
  - pose proof (for_loop_fill_all f (replicate (String.length s) x00)) as H.
    rewrite length_replicate in H. rewrite H.
    rewrite <- length_list_ascii. unfold list_byte_of_string.
    apply map_seq_lookup. intros i c Hi. cbn [Nat.add].
    unfold f, charCodeAt. rewrite get_list_ascii, Hi. apply ToUint8_char.
  - intros i bytes Hi. unfold f, charCodeAt. rewrite get_list_ascii.
    destruct (list_ascii_of_string s !! i) as [c|] eqn:E; [reflexivity|].
    apply lookup_ge_None in E. rewrite length_list_ascii in E. lia.
Qed.

Lemma append_String (s : string) (c : ascii) (t : string) :
  String.append (String.append s (String c EmptyString)) t = String.append s (String c t).
Proof. induction s as [|d s IH]; cbn; [reflexivity|now rewrite IH]. Qed.

Lemma append_empty (s : string) : String.append s EmptyString = s.
Proof. induction s as [|d s IH]; cbn; [reflexivity|now rewrite IH]. Qed.

(** The loop of [createBlob]:
    [for (i = 0; i < binary.length; i++) str += String.fromCharCode(binary[i])]. *)
Lemma binary_string_of_bytes (binary : list byte) :
  for_loop (length binary) 0
    (fun i str =>
       match binary !! i with
       | Some b => String.append str (fromCharCode b)
       | None => String.append str (fromCharCode x00)
       end)
    EmptyString
  = string_of_list_byte binary.
Proof.
  enough (H : forall (todo done : list byte) (str : string),
             binary = done ++ todo ->
             for_loop (length todo) (length done)
               (fun i str =>
                  match binary !! i with
                  | Some b => String.append str (fromCharCode b)
                  | None => String.append str (fromCharCode x00)
                  end) str
             = String.append str (string_of_list_byte todo))
    by (apply (H binary [] EmptyString); reflexivity).
  induction todo as [|b todo IH]; intros done str Hsplit.
  - cbn. now rewrite append_empty.
  - cbn [length for_loop].
    assert (Hb : binary !! length done = Some b).
    { subst binary. rewrite lookup_app_r by lia.
      now rewrite Nat.sub_diag. }
    rewrite Hb.
    specialize (IH (done ++ [b]) (String.append str (fromCharCode b))).
    rewrite length_app in IH. cbn [length] in IH.
    replace (length done + 1)%nat with (Datatypes.S (length done)) in IH by lia.
    rewrite IH by (now rewrite <- app_assoc).
    unfold fromCharCode. apply append_String.
Qed.

(** ** 16-bit elements *)

Lemma wrap16_range (z : Z) : -32768 <= wrap16 z <= 32767.
Proof.
  unfold wrap16. pose proof (Z.mod_pos_bound z 65536 ltac:(lia)).
  destruct (32768 <=? z mod 65536) eqn:E; lia.
Qed.

Lemma wrap16_small (z : Z) : -32768 <= z <= 32767 -> wrap16 z = z.
Proof.
  intros Hz. unfold wrap16.
  destruct (32768 <=? z mod 65536) eqn:E; euclid.
Qed.

Lemma wrap16_mod (z : Z) : wrap16 z mod 65536 = z mod 65536.
Proof.
  unfold wrap16. destruct (32768 <=? z mod 65536) eqn:E; euclid.
Qed.

Lemma wrap16_of_mod (z : Z) : wrap16 (z mod 65536) = wrap16 z.
Proof. unfold wrap16. now rewrite Z.mod_mod by lia. Qed.

(** The two bytes of an element are its low and high byte, low byte first. *)
Lemma int16_bytes_value (v : Z) :
  exists lo hi,
    int16_bytes v = [lo; hi]
    /\ byte_value lo + 256 * byte_value hi = v mod 65536.
Proof.
  unfold int16_bytes. do 2 eexists. split; [reflexivity|].
  rewrite !byte_value_ToUint8. euclid.
Qed.

Lemma int16_pairs_bytes (v : Z) (rest : list byte) :
  int16_pairs (int16_bytes v ++ rest) = wrap16 v :: int16_pairs rest.
Proof.
  destruct (int16_bytes_value v) as (lo & hi & E & Hv).
  rewrite E. cbn [app int16_pairs]. f_equal.
  unfold int16_of_bytes. now rewrite Hv, wrap16_of_mod.
Qed.

Lemma int16_pairs_view (a : Int16Array) :
  int16_pairs (Uint8Array_of_buffer a) = map wrap16 a.
Proof.
  induction a as [|v a IH]; [reflexivity|].
  cbn [Uint8Array_of_buffer flat_map map].
  rewrite int16_pairs_bytes. f_equal. exact IH.
Qed.

Lemma length_Uint8Array_of_buffer (a : Int16Array) :
  length (Uint8Array_of_buffer a) = (2 * length a)%nat.
Proof.
  induction a as [|v a IH]; [reflexivity|].
  cbn [Uint8Array_of_buffer flat_map]. rewrite length_app.
  fold (Uint8Array_of_buffer a). rewrite IH. cbn. lia.
Qed.

Lemma even_double (n : nat) : Nat.even (2 * n) = true.
Proof. rewrite Nat.even_mul. reflexivity. Qed.

Lemma Int16Array_of_buffer_view (a : Int16Array) :
  Int16Array_of_buffer (Uint8Array_of_buffer a) = Ok (map wrap16 a).
Proof.
  unfold Int16Array_of_buffer.
  rewrite length_Uint8Array_of_buffer, even_double. f_equal. apply int16_pairs_view.
Qed.

Lemma length_int16_pairs (bs : list byte) :
  Nat.even (length bs) = true -> (2 * length (int16_pairs bs))%nat = length bs.
Proof.
  enough (H : forall n (bs : list byte), (length bs <= n)%nat ->
              Nat.even (length bs) = true ->
              (2 * length (int16_pairs bs))%nat = length bs)
    by (apply (H (length bs)); lia).
  clear bs. induction n as [|n IH]; intros bs Hn Heven.
  - destruct bs; [reflexivity|cbn in Hn; lia].
  - destruct bs as [|lo [|hi rest]]; [reflexivity|discriminate|].
    cbn [int16_pairs length] in *.
    rewrite <- (IH rest); [lia|lia|exact Heven].
Qed.

(** ** Truncation of a scaled sample *)

Lemma truncate_scaled (q : Q) :
  (-1 <= q)%Q -> (q < 1)%Q ->
  let t := truncate (q * inject_Z 32768) in
  -32768 <= t <= 32767 /\ (Qabs ((t # 32768) - q) < 1 # 32768)%Q.
Proof.
  destruct q as [n d]. intros Hlo Hhi. unfold Qle in Hlo. unfold Qlt in Hhi.
  unfold truncate. cbn [Qnum Qden Qmult inject_Z] in *.
  rewrite Pos.mul_1_r.
  set (t := Z.quot (n * 32768) (Zpos d)).
  pose proof (Z.quot_rem' (n * 32768) (Zpos d)) as Hqr. fold t in Hqr.
  assert (Hd : 0 < Zpos d) by lia.
  assert (Hr : Z.abs (Z.rem (n * 32768) (Zpos d)) < Zpos d).
  { pose proof (Z.rem_bound_abs (n * 32768) (Zpos d) ltac:(lia)). lia. }
  assert (Hs : 0 <= Z.rem (n * 32768) (Zpos d) * (n * 32768)).
  { apply Z.rem_sign_mul. lia. }
  split.
  - split; nia.
  - apply Qabs_Qlt_condition. unfold Qlt, Qminus, Qplus, Qopp.
    cbn [Qnum Qden]. fold t. split; nia.
Qed.

(** ** Binary64 rounding *)

(** [add64] and the rounded quotient give what the IEEE 754 addition and
    division of [SpecFloat] give, on every pair of a sample of numbers: small
    integers, subnormal numbers, ties, overflow, numbers of very different
    magnitude. *)
Example round64_agrees_with_SpecFloat :
  forallb (fun a => forallb (fun b => agree_on_sum a b && agree_on_quotient a b)
                      binary64_samples)
    binary64_samples = true.
Proof. vm_compute. reflexivity. Qed.

(** Powers of two. *)

Lemma pow2_pos (k : Z) : (0 < 2 ^ k)%Q.
Proof. now apply Qpower_0_lt. Qed.

Lemma pow2_add (a b : Z) : (2 ^ (a + b) == 2 ^ a * 2 ^ b)%Q.
Proof. now apply Qpower_plus. Qed.

Lemma pow2_le (a b : Z) : a <= b -> (2 ^ a <= 2 ^ b)%Q.
Proof. intros H. now apply Qpower_le_compat_l. Qed.

Lemma pow2_lt (a b : Z) : a < b -> (2 ^ a < 2 ^ b)%Q.
Proof. intros H. now apply Qpower_lt_compat_l. Qed.

Lemma pow2_lt_inv (a b : Z) : (2 ^ a < 2 ^ b)%Q -> a < b.
Proof. intros H. now apply (Qpower_lt_compat_l_inv 2). Qed.

Lemma pow2_cancel (e : Z) : (2 ^ (- e) * 2 ^ e == 1)%Q.
Proof. rewrite <- pow2_add. now replace (- e + e) with 0 by lia. Qed.

Lemma pow2_Z (a : Z) : 0 <= a -> (inject_Z (2 ^ a) == 2 ^ a)%Q.
Proof. intros H. now apply Zpower_Qpower. Qed.

Lemma scale_le (x y : Q) (e : Z) : (x <= y)%Q -> (x * 2 ^ e <= y * 2 ^ e)%Q.
Proof. intros H. apply Qmult_le_compat_r; [exact H|]. apply Qlt_le_weak, pow2_pos. Qed.

Lemma scale_lt (x y : Q) (e : Z) : (x < y)%Q -> (x * 2 ^ e < y * 2 ^ e)%Q.
Proof. intros H. apply Qmult_lt_compat_r; [apply pow2_pos|exact H]. Qed.

(** [ilog2] is the integer part of the logarithm. *)

Lemma ratio_below (x d n p b : Q) :
  (0 < d)%Q -> (x * d == n)%Q -> (n < p * b)%Q -> (b <= d)%Q -> (0 < p)%Q -> (x < p)%Q.
Proof.
  intros Hd Hx Hn Hb Hp.
  apply (Qmult_lt_r _ _ d Hd). rewrite Hx.
  eapply Qlt_le_trans; [exact Hn|].
  apply Qmult_le_l; assumption.
Qed.

Lemma ratio_above (x d n p b : Q) :
  (0 < d)%Q -> (x * d == n)%Q -> (p * b <= n)%Q -> (d < b)%Q -> (0 < p)%Q -> (p < x)%Q.
Proof.
  intros Hd Hx Hn Hb Hp.
  apply (Qmult_lt_r _ _ d Hd). rewrite Hx.
  eapply Qlt_le_trans; [|exact Hn].
  apply Qmult_lt_l; assumption.
Qed.

Lemma ilog2_spec (x : Q) :
  (0 < x)%Q -> (2 ^ ilog2 x <= x)%Q /\ (x < 2 ^ (ilog2 x + 1))%Q.
Proof.
  intros Hx. unfold ilog2.
  assert (Hn : 0 < Qnum x) by (unfold Qlt in Hx; cbn in Hx; lia).
  set (a := Z.log2 (Qnum x)). set (b := Z.log2 (Zpos (Qden x))).
  destruct (Z.log2_spec _ Hn) as [Ha1 Ha2]. fold a in Ha1, Ha2.
  destruct (Z.log2_spec (Zpos (Qden x)) eq_refl) as [Hb1 Hb2]. fold b in Hb1, Hb2.
  assert (Ha0 : 0 <= a) by apply Z.log2_nonneg.
  assert (Hb0 : 0 <= b) by apply Z.log2_nonneg.
  assert (Hd : (0 < inject_Z (Zpos (Qden x)))%Q) by reflexivity.
  assert (Hval : (x * inject_Z (Zpos (Qden x)) == inject_Z (Qnum x))%Q).
  { unfold Qeq, Qmult. cbn. destruct x as [n d]. cbn. lia. }
  assert (Hup : (x < 2 ^ (a - b + 1))%Q).
  { apply (ratio_below x _ _ _ (2 ^ b) Hd Hval); [| |apply pow2_pos].
    - rewrite <- pow2_add. replace (a - b + 1 + b) with (a + 1) by lia.
      rewrite <- pow2_Z by lia. rewrite <- Zlt_Qlt. lia.
    - rewrite <- pow2_Z by lia. now rewrite <- Zle_Qle. }
  assert (Hlo : (2 ^ (a - b - 1) < x)%Q).
  { apply (ratio_above x _ _ _ (2 ^ (b + 1)) Hd Hval); [| |apply pow2_pos].
    - rewrite <- pow2_add. replace (a - b - 1 + (b + 1)) with a by lia.
      rewrite <- pow2_Z by lia. now rewrite <- Zle_Qle.
    - rewrite <- pow2_Z by lia. rewrite <- Zlt_Qlt. lia. }
  cbv zeta. destruct (Qle_bool (2 ^ (a - b)) x) eqn:E.
  - apply Qle_bool_iff in E. now split.
  - assert (Hlt : (x < 2 ^ (a - b))%Q).
    { apply Qnot_le_lt. intros H. apply Qle_bool_iff in H. congruence. }
    split; [now apply Qlt_le_weak|]. now replace (a - b - 1 + 1) with (a - b) by lia.
Qed.

Lemma ilog2_unique (x : Q) (k : Z) :
  (2 ^ k <= x)%Q -> (x < 2 ^ (k + 1))%Q -> ilog2 x = k.
Proof.
  intros H1 H2.
  assert (Hx : (0 < x)%Q) by (eapply Qlt_le_trans; [apply (pow2_pos k)|exact H1]).
  destruct (ilog2_spec x Hx) as [H3 H4].
  assert (ilog2 x < k + 1) by (apply pow2_lt_inv; eapply Qle_lt_trans; eassumption).
  assert (k < ilog2 x + 1) by (apply pow2_lt_inv; eapply Qle_lt_trans; eassumption).
  lia.
Qed.

Lemma ilog2_mono (x y : Q) : (0 < x)%Q -> (x <= y)%Q -> ilog2 x <= ilog2 y.
Proof.
  intros Hx Hxy.
  assert (Hy : (0 < y)%Q) by (eapply Qlt_le_trans; eassumption).
  destruct (ilog2_spec x Hx) as [H1 _]. destruct (ilog2_spec y Hy) as [_ H2].
  assert (ilog2 x < ilog2 y + 1); [|lia].
  apply pow2_lt_inv. eapply Qle_lt_trans; [exact H1|].
  eapply Qle_lt_trans; eassumption.
Qed.

Lemma ilog2_comp (x y : Q) : (0 < x)%Q -> (x == y)%Q -> ilog2 x = ilog2 y.
Proof.
  intros Hx Hxy. symmetry. destruct (ilog2_spec x Hx) as [H1 H2].
  apply ilog2_unique; now rewrite <- Hxy.
Qed.

Lemma ilog2_scaled (m e : Z) : 0 < m -> ilog2 (inject_Z m * 2 ^ e) = Z.log2 m + e.
Proof.
  intros Hm. destruct (Z.log2_spec m Hm) as [H1 H2].
  pose proof (Z.log2_nonneg m) as H0.
  apply ilog2_unique.
  - rewrite pow2_add. apply scale_le. rewrite <- pow2_Z by lia. now rewrite <- Zle_Qle.
  - replace (Z.log2 m + e + 1) with (Z.log2 m + 1 + e) by lia.
    rewrite pow2_add. apply scale_lt. rewrite <- pow2_Z by lia. rewrite <- Zlt_Qlt. lia.
Qed.

(** [round_half_even] is monotone and fixes the integers. *)

Lemma round_half_even_comp (x y : Q) : (x == y)%Q -> round_half_even x = round_half_even y.
Proof.
  intros H. unfold round_half_even. rewrite (Qfloor_comp _ _ H).
  assert (E : (x - inject_Z (Qfloor y) ?= 1 # 2)%Q = (y - inject_Z (Qfloor y) ?= 1 # 2)%Q)
    by now rewrite H.
  now rewrite E.
Qed.

Lemma round_half_even_Z (n : Z) : round_half_even (inject_Z n) = n.
Proof.
  unfold round_half_even. rewrite Qfloor_Z.
  assert (E : (inject_Z n - inject_Z n ?= 1 # 2)%Q = Lt).
  { apply Qlt_alt. assert (H : (inject_Z n - inject_Z n == 0)%Q) by ring.
    now rewrite H. }
  now rewrite E.
Qed.

Lemma round_half_even_mono (x y : Q) :
  (x <= y)%Q -> round_half_even x <= round_half_even y.
Proof.
  intros H. unfold round_half_even.
  pose proof (Qfloor_resp_le _ _ H) as Hf.
  pose proof (Qfloor_le x) as Hx1. pose proof (Qlt_floor x) as Hx2.
  pose proof (Qfloor_le y) as Hy1. pose proof (Qlt_floor y) as Hy2.
  destruct (Z.eq_dec (Qfloor x) (Qfloor y)) as [E|E].
  - rewrite <- E in *.
    destruct (Qcompare_spec (x - inject_Z (Qfloor x)) (1 # 2)) as [Cx|Cx|Cx];
      destruct (Qcompare_spec (y - inject_Z (Qfloor x)) (1 # 2)) as [Cy|Cy|Cy];
      try lia; try (exfalso; lra); destruct (Z.even (Qfloor x)); lia.
  - assert (Hlt : Qfloor x + 1 <= Qfloor y) by lia.
    destruct (x - inject_Z (Qfloor x) ?= 1 # 2)%Q;
      destruct (y - inject_Z (Qfloor y) ?= 1 # 2)%Q;
      repeat match goal with |- context [Z.even ?z] => destruct (Z.even z) end; lia.
Qed.

Lemma round_half_even_ge (x : Q) (n : Z) : (inject_Z n <= x)%Q -> n <= round_half_even x.
Proof. intros H. rewrite <- (round_half_even_Z n). now apply round_half_even_mono. Qed.

Lemma round_half_even_le (x : Q) (n : Z) : (x <= inject_Z n)%Q -> round_half_even x <= n.
Proof. intros H. rewrite <- (round_half_even_Z n). now apply round_half_even_mono. Qed.

(** [round64]: monotone on the non-negative numbers, and idempotent. *)

Lemma round64_zero (x : Q) : (x == 0)%Q -> round64 x = 0%Q.
Proof. intros H. unfold round64. now rewrite (Qeq_eq_bool _ _ H). Qed.

Lemma round64_nonzero (x : Q) :
  ~ (x == 0)%Q ->
  round64 x
  = (inject_Z (round_half_even (x * 2 ^ (- exponent64 x))) * 2 ^ exponent64 x)%Q.
Proof.
  intros H. unfold round64. destruct (Qeq_bool x 0) eqn:E; [|reflexivity].
  apply Qeq_bool_iff in E. contradiction.
Qed.

Lemma exponent64_pos (x : Q) : (0 < x)%Q -> exponent64 x = Z.max (ilog2 x - 52) (-1074).
Proof.
  intros H. unfold exponent64. f_equal. f_equal.
  apply ilog2_comp; [|apply Qabs_pos; lra].
  rewrite Qabs_pos; lra.
Qed.

(** The scaled value lies below 2^53, and at or above 2^52 unless the
    exponent is the least one. *)
Lemma scaled_below (x : Q) :
  (0 < x)%Q -> (x * 2 ^ (- exponent64 x) < inject_Z (2 ^ 53))%Q.
Proof.
  intros Hx. rewrite (exponent64_pos x Hx).
  destruct (ilog2_spec x Hx) as [_ H].
  set (e := Z.max (ilog2 x - 52) (-1074)).
  assert (He : ilog2 x + 1 <= e + 53) by lia.
  rewrite pow2_Z by lia.
  apply (Qmult_lt_r _ _ (2 ^ e) (pow2_pos e)).
  rewrite <- Qmult_assoc, pow2_cancel, Qmult_1_r, <- pow2_add.
  eapply Qlt_le_trans; [exact H|]. apply pow2_le. lia.
Qed.

Lemma scaled_above (x : Q) :
  (0 < x)%Q -> -1074 < exponent64 x -> (inject_Z (2 ^ 52) <= x * 2 ^ (- exponent64 x))%Q.
Proof.
  intros Hx. rewrite (exponent64_pos x Hx).
  destruct (ilog2_spec x Hx) as [H _].
  set (e := Z.max (ilog2 x - 52) (-1074)). intros He.
  assert (He' : e = ilog2 x - 52) by lia.
  rewrite pow2_Z by lia.
  apply (Qmult_le_r _ _ (2 ^ e) (pow2_pos e)).
  rewrite <- Qmult_assoc, pow2_cancel, Qmult_1_r, <- pow2_add.
  replace (52 + e) with (ilog2 x) by lia. exact H.
Qed.

Lemma exponent64_mono (x y : Q) : (0 < x)%Q -> (x <= y)%Q -> exponent64 x <= exponent64 y.
Proof.
  intros Hx Hxy. assert (Hy : (0 < y)%Q) by lra.
  rewrite (exponent64_pos x Hx), (exponent64_pos y Hy).
  pose proof (ilog2_mono x y Hx Hxy). lia.
Qed.

Lemma round64_nonneg (x : Q) : (0 <= x)%Q -> (0 <= round64 x)%Q.
Proof.
  intros Hx. unfold round64. destruct (Qeq_bool x 0); [lra|].
  apply Qmult_le_0_compat; [|apply Qlt_le_weak, pow2_pos].
  change 0%Q with (inject_Z 0). rewrite <- Zle_Qle.
  apply round_half_even_ge. cbn.
  apply Qmult_le_0_compat; [exact Hx|apply Qlt_le_weak, pow2_pos].
Qed.

Lemma round64_mono (x y : Q) : (0 <= x)%Q -> (x <= y)%Q -> (round64 x <= round64 y)%Q.
Proof.
  intros Hx Hxy.
  destruct (Qeq_dec x 0) as [Ex|Ex].
  { rewrite (round64_zero x Ex). apply round64_nonneg. lra. }
  assert (Hx' : (0 < x)%Q) by (apply Qle_lteq in Hx; destruct Hx as [H|H]; [exact H|]; symmetry in H; contradiction).
  assert (Hy' : (0 < y)%Q) by lra.
  assert (Ey : ~ (y == 0)%Q) by (intros H; rewrite H in Hy'; discriminate).
  rewrite (round64_nonzero x Ex), (round64_nonzero y Ey).
  pose proof (exponent64_mono x y Hx' Hxy) as He.
  set (ex := exponent64 x) in *. set (ey := exponent64 y) in *.
  destruct (Z.eq_dec ex ey) as [E|E].
  - rewrite E. apply scale_le. rewrite <- Zle_Qle.
    apply round_half_even_mono. now apply scale_le.
  - assert (Hlt : ex + 1 <= ey) by lia.
    apply Qle_trans with (inject_Z (2 ^ 53) * 2 ^ ex)%Q.
    + apply scale_le. rewrite <- Zle_Qle. apply round_half_even_le.
      apply Qlt_le_weak. now apply scaled_below.
    + apply Qle_trans with (inject_Z (2 ^ 52) * 2 ^ ey)%Q.
      * rewrite !pow2_Z by lia. rewrite <- !pow2_add. apply pow2_le. lia.
      * apply scale_le. rewrite <- Zle_Qle. apply round_half_even_ge.
        apply scaled_above; [exact Hy'|]. fold ey.
        unfold ex, exponent64 in Hlt. lia.
Qed.

Lemma exponent64_comp (x y : Q) : ~ (x == 0)%Q -> (x == y)%Q -> exponent64 x = exponent64 y.
Proof.
  intros Hx Hxy. unfold exponent64. f_equal. f_equal.
  apply ilog2_comp; [|now rewrite Hxy].
  destruct (Qlt_le_dec x 0) as [Hneg|Hpos].
  - rewrite Qabs_neg; lra.
  - rewrite Qabs_pos; [|exact Hpos].
    apply Qle_lteq in Hpos. destruct Hpos as [H|H]; [exact H|].
    symmetry in H. contradiction.
Qed.

Lemma round64_comp (x y : Q) : (x == y)%Q -> (round64 x == round64 y)%Q.
Proof.
  intros H. destruct (Qeq_dec x 0) as [E|E].
  - rewrite (round64_zero x E), (round64_zero y); [reflexivity|].
    eapply Qeq_trans; [symmetry; exact H|exact E].
  - assert (Ey : ~ (y == 0)%Q)
      by (intros Hy; apply E; eapply Qeq_trans; [exact H|exact Hy]).
    rewrite (round64_nonzero x E), (round64_nonzero y Ey).
    rewrite <- (exponent64_comp x y E H).
    rewrite (round_half_even_comp (x * 2 ^ (- exponent64 x)) (y * 2 ^ (- exponent64 x)));
      [reflexivity|].
    apply Qmult_comp; [exact H|reflexivity].
Qed.

Lemma scaled_pos (m e : Z) : 0 < m -> (0 < inject_Z m * 2 ^ e)%Q.
Proof.
  intros Hm. apply Qmult_lt_0_compat; [|apply pow2_pos].
  change 0%Q with (inject_Z 0). now rewrite <- Zlt_Qlt.
Qed.

(** A positive multiple of a power of two that needs no finer exponent is
    a fixed point of the rounding. *)
Lemma round64_scaled (m e : Z) :
  0 < m -> exponent64 (inject_Z m * 2 ^ e) <= e ->
  (round64 (inject_Z m * 2 ^ e) == inject_Z m * 2 ^ e)%Q.
Proof.
  intros Hm He. set (r := (inject_Z m * 2 ^ e)%Q) in *.
  assert (Hr : (0 < r)%Q).
  { apply Qmult_lt_0_compat; [|apply pow2_pos]. change 0%Q with (inject_Z 0).
    now rewrite <- Zlt_Qlt. }
  assert (Er : ~ (r == 0)%Q) by (intros H; rewrite H in Hr; discriminate).
  rewrite (round64_nonzero r Er). set (e' := exponent64 r) in *.
  assert (Hs : (r * 2 ^ (- e') == inject_Z (m * 2 ^ (e - e')))%Q).
  { unfold r. rewrite inject_Z_mult, pow2_Z by lia.
    rewrite <- Qmult_assoc, <- pow2_add. now replace (e + - e') with (e - e') by lia. }
  rewrite (round_half_even_comp _ _ Hs), round_half_even_Z.
  rewrite inject_Z_mult, pow2_Z by lia. unfold r.
  rewrite <- Qmult_assoc, <- pow2_add. now replace (e - e' + e') with e by lia.
Qed.

Lemma round64_idem (x : Q) : (0 <= x)%Q -> (round64 (round64 x) == round64 x)%Q.
Proof.
  intros Hx. destruct (Qeq_dec x 0) as [E|E].
  { now rewrite (round64_zero x E). }
  assert (Hx' : (0 < x)%Q)
    by (apply Qle_lteq in Hx; destruct Hx as [H|H]; [exact H|]; symmetry in H; contradiction).
  rewrite (round64_nonzero x E).
  set (e := exponent64 x). set (m := round_half_even (x * 2 ^ (- e))).
  assert (Hm0 : 0 <= m).
  { apply round_half_even_ge. cbn.
    apply Qmult_le_0_compat; [exact Hx|apply Qlt_le_weak, pow2_pos]. }
  assert (Hm53 : m <= 2 ^ 53).
  { apply round_half_even_le. apply Qlt_le_weak. now apply scaled_below. }
  assert (He : -1074 <= e) by (unfold e, exponent64; lia).
  destruct (Z.eq_dec m 0) as [Em|Em].
  { rewrite Em. assert (H0 : (inject_Z 0 * 2 ^ e == 0)%Q) by ring.
    rewrite (round64_zero _ H0). now symmetry. }
  assert (Hm : 0 < m) by lia.
  destruct (Z.eq_dec m (2 ^ 53)) as [E53|E53].
  - (* the rounding reached the next power of two *)
    assert (Hr : (inject_Z m * 2 ^ e == inject_Z (2 ^ 52) * 2 ^ (e + 1))%Q).
    { rewrite E53, !pow2_Z by lia. rewrite <- !pow2_add.
      now replace (53 + e) with (52 + (e + 1)) by lia. }
    eapply Qeq_trans; [apply round64_comp; exact Hr|].
    eapply Qeq_trans; [|symmetry; exact Hr].
    apply round64_scaled; [lia|].
    rewrite exponent64_pos by (apply scaled_pos; lia).
    rewrite ilog2_scaled by lia. change (Z.log2 (2 ^ 52)) with 52. lia.
  - apply round64_scaled; [exact Hm|].
    rewrite exponent64_pos by (now apply scaled_pos).
    rewrite ilog2_scaled by exact Hm.
    assert (Hlog : Z.log2 m <= 52).
    { assert (Z.log2 m < 53); [|lia]. apply Z.log2_lt_pow2; lia. }
    destruct (Z_lt_le_dec m (2 ^ 52)) as [Hsub|Hnorm]; [|lia].
    (* below 2^52 the exponent is the least one *)
    assert (e = -1074).
    { destruct (Z.eq_dec e (-1074)) as [Hmin|Hmin]; [exact Hmin|exfalso].
      assert (2 ^ 52 <= m); [|lia].
      apply round_half_even_ge. apply scaled_above; [exact Hx'|]. fold e. lia. }
    assert (Z.log2 m < 52); [|lia]. apply Z.log2_lt_pow2; lia.
Qed.

(** The numbers the schedule works with stay finite. *)

Lemma round64_top : (round64 (MAX_VALUE + inject_Z (2 ^ 32)) == MAX_VALUE)%Q.
Proof. apply Qeq_bool_eq. vm_compute. reflexivity. Qed.

Lemma round64_pow32 : (round64 (inject_Z (2 ^ 32)) == inject_Z (2 ^ 32))%Q.
Proof. apply Qeq_bool_eq. vm_compute. reflexivity. Qed.

Lemma pow32_below_MAX_VALUE : (inject_Z (2 ^ 32) <= MAX_VALUE)%Q.
Proof. apply Qle_bool_imp_le. vm_compute. reflexivity. Qed.

Lemma binary64_of_finite (x : Q) :
  (0 <= round64 x)%Q -> (round64 x <= MAX_VALUE)%Q -> binary64_of x = Finite (round64 x).
Proof.
  intros H0 H1. unfold binary64_of. cbv zeta.
  rewrite (proj2 (Qle_bool_iff _ _)); [reflexivity|].
  rewrite Qabs_pos; assumption.
Qed.

Lemma binary64_round64 (x : Q) :
  (0 <= x)%Q -> (round64 x <= MAX_VALUE)%Q -> binary64 (round64 x).
Proof.
  intros H0 H1. split; [now apply round64_nonneg|]. split; [exact H1|].
  now apply round64_idem.
Qed.

Lemma is_binary64_binary64 (x : Q) : is_binary64 x = true -> binary64 x.
Proof.
  unfold is_binary64. rewrite !andb_true_iff, !Qle_bool_iff, Qeq_bool_iff.
  now intros [[H0 H1] H2].
Qed.

Lemma binary64_Qmax (x y : Q) : binary64 x -> binary64 y -> binary64 (Qmax x y).
Proof.
  intros Hx Hy. destruct (Q.max_spec x y) as [[_ E]|[_ E]].
  - destruct Hy as (H0 & H1 & H2). split; [lra|]. split; [lra|].
    eapply Qeq_trans; [apply round64_comp; exact E|].
    eapply Qeq_trans; [exact H2|now symmetry].
  - destruct Hx as (H0 & H1 & H2). split; [lra|]. split; [lra|].
    eapply Qeq_trans; [apply round64_comp; exact E|].
    eapply Qeq_trans; [exact H2|now symmetry].
Qed.

(** Adding a duration of at most 2^32 seconds to a binary64 number gives a
    binary64 number, not below the first. *)
Lemma add64_duration (c d : Q) :
  binary64 c -> (0 <= d)%Q -> (d <= inject_Z (2 ^ 32))%Q ->
  add64 (Finite c) (Finite d) = Finite (round64 (c + d))
  /\ binary64 (round64 (c + d))
  /\ (c <= round64 (c + d))%Q.
Proof.
  intros (H0 & H1 & H2) Hd0 Hd1.
  assert (Hsum : (0 <= c + d)%Q) by lra.
  assert (Htop : (round64 (c + d) <= MAX_VALUE)%Q).
  { eapply Qle_trans; [apply (round64_mono (c + d) (MAX_VALUE + inject_Z (2 ^ 32)));
                       [exact Hsum|lra]|].
    apply Qle_lteq. right. exact round64_top. }
  split; [|split].
  - cbn [add64]. apply binary64_of_finite; [now apply round64_nonneg|exact Htop].
  - now apply binary64_round64.
  - eapply Qle_trans; [|apply (round64_mono c (c + d)); [exact H0|lra]].
    apply Qle_lteq. right. now symmetry.
Qed.

(** The duration of a buffer of fewer than 2^32 frames at 24000 Hz. *)
Lemma duration64_finite (b : AudioBuffer) :
  sampleRate b = 24000 -> Z.of_nat (frames b) < 2 ^ 32 ->
  exists d : Q,
    duration64 b = Finite d /\ (0 <= d)%Q /\ (d <= inject_Z (2 ^ 32))%Q.
Proof.
  intros Hrate Hframes. unfold duration64, quotient64. rewrite Hrate.
  change (24000 =? 0) with false. cbv iota.
  set (x := (inject_Z (Z.of_nat (frames b)) / inject_Z 24000)%Q).
  assert (Hx0 : (0 <= x)%Q).
  { unfold x, Qdiv. apply Qmult_le_0_compat; [|discriminate].
    change 0%Q with (inject_Z 0). rewrite <- Zle_Qle. lia. }
  assert (Hx1 : (x <= inject_Z (2 ^ 32))%Q).
  { unfold x. apply Qle_shift_div_r; [reflexivity|].
    rewrite <- inject_Z_mult, <- Zle_Qle. lia. }
  assert (Hr : (round64 x <= inject_Z (2 ^ 32))%Q).
  { eapply Qle_trans; [apply (round64_mono x _ Hx0 Hx1)|].
    apply Qle_lteq. right. exact round64_pow32. }
  exists (round64 x). split; [|split].
  - apply binary64_of_finite; [now apply round64_nonneg|].
    eapply Qle_trans; [exact Hr|exact pow32_below_MAX_VALUE].
  - now apply round64_nonneg.
  - exact Hr.
Qed.

(* ================================================================== *)
(** * The PCM codec of LiveVoice.tsx                                   *)
(* ================================================================== *)

Lemma createBlob_loops (samples : Float32Array) :
  createBlob samples =
  {| data := btoa (string_of_list_byte (Uint8Array_of_buffer (map pcm16 samples)));
     mimeType := "audio/pcm;rate=16000" |}.
Proof.
  unfold createBlob. f_equal. f_equal.
  rewrite binary_string_of_bytes. do 2 f_equal.
  pose proof (for_loop_fill_all
                (fun i => ToInt16 (times (read_number samples i) 32768))
                (replicate (length samples) 0)) as H.
  rewrite length_replicate in H. rewrite H.
  apply map_seq_lookup. intros i x Hi. cbn beta iota delta [Nat.add].
  unfold read_number, pcm16. now rewrite Hi.
Qed.

Lemma decode_bytes (base64 : string) :
  decode base64 = (try binaryString := atob base64 in Ok (list_byte_of_string binaryString)).
Proof.
  unfold decode. destruct (atob base64) as [s|e]; [|reflexivity].
  cbn [bind]. now rewrite bytes_of_binary_string.
Qed.

Lemma decode_createBlob (samples : Float32Array) :
  decode (data (createBlob samples)) = Ok (Uint8Array_of_buffer (map pcm16 samples)).
Proof.
  rewrite decode_bytes, createBlob_loops. cbn [data].
  rewrite atob_btoa. cbn [bind].
  now rewrite list_byte_of_string_of_list_byte.
Qed.

(** The inner loop of [decodeAudioData] on a one-channel buffer writes the
    channel in place. *)
Lemma set_sample_loop (rate : Z) (f : nat -> number) (count : nat) :
  forall (start : nat) (chData : Float32Array),
    for_loop count start (fun i buffer => set_sample buffer 0 i (f i))
      {| sampleRate := rate; channels := [chData] |}
    = {| sampleRate := rate;
         channels := [for_loop count start (fun i a => <[i := f i]> a) chData] |}.
Proof.
  induction count as [|count IH]; intros start chData; [reflexivity|].
  cbn [for_loop]. rewrite <- IH. reflexivity.
Qed.

Lemma quotient_by_one (n : nat) :
  ToUint32 (quotient (Z.of_nat n) (Z.of_nat 1)) = Z.of_nat n mod 4294967296
  /\ trips_below (quotient (Z.of_nat n) (Z.of_nat 1)) = n.
Proof.
  change (Z.of_nat 1) with 1. unfold quotient. cbn [Z.eqb].
  unfold ToUint32, trips_below, truncate, Qceiling, Qfloor, Qdiv, Qinv, Qmult, Qopp, inject_Z.
  cbn [Qnum Qden Pos.mul].
  rewrite Z.mul_1_r, Z.quot_1_r, Z.div_1_r, Z.opp_involutive.
  split; [reflexivity|apply Nat2Z.id].
Qed.

(** A single channel: every pair of bytes becomes one sample. *)
Lemma decodeAudioData_mono (bytes : Uint8Array) (rate : Z) :
  Nat.even (length bytes) = true ->
  (2 <= length bytes)%nat ->
  Z.of_nat (length bytes) < 2 * 4294967296 ->
  8000 <= rate <= 96000 ->
  decodeAudioData bytes rate 1 =
  Ok {| sampleRate := rate;
        channels := [map (fun v => Finite (v # 32768)) (int16_pairs bytes)] |}.
Proof.
  intros Heven Hmin Hmax Hrate.
  pose proof (length_int16_pairs bytes Heven) as Hlen.
  unfold decodeAudioData, Int16Array_of_buffer. rewrite Heven. cbn [bind].
  set (dataInt16 := int16_pairs bytes) in *.
  destruct (quotient_by_one (length dataInt16)) as [Hn Htrips].
  unfold createBuffer. rewrite Hn, Htrips.
  rewrite Z.mod_small by lia.
  replace (1 <=? Z.of_nat (length dataInt16)) with true by (symmetry; apply Z.leb_le; lia).
  replace (8000 <=? rate) with true by (symmetry; apply Z.leb_le; lia).
  replace (rate <=? 96000) with true by (symmetry; apply Z.leb_le; lia).
  cbn [Nat.leb andb bind replicate for_loop]. rewrite Nat2Z.id.
  rewrite set_sample_loop. do 3 f_equal.
  pose proof (for_loop_fill_all
                (fun i => element_over (dataInt16 !! (i * 1 + 0)%nat) 32768)
                (replicate (length dataInt16) (Finite 0))) as H.
  rewrite length_replicate in H. rewrite H.
  apply map_seq_lookup. intros i v Hi. cbn beta iota delta [Nat.add].
  replace (i * 1 + 0)%nat with i by lia. now rewrite Hi.
Qed.

(** An odd number of bytes never decodes, whatever the channel count. *)
Lemma decodeAudioData_odd (bytes : Uint8Array) (rate : Z) (numChannels : nat) :
  Nat.even (length bytes) = false ->
  decodeAudioData bytes rate numChannels = Throw RangeError.
Proof.
  intros Hodd. unfold decodeAudioData, Int16Array_of_buffer. now rewrite Hodd.
Qed.

Lemma ToInt16_range (x : number) : -32768 <= ToInt16 x <= 32767.
Proof. destruct x; cbn; [apply wrap16_range|lia|lia]. Qed.

Lemma map_wrap16_pcm16 (samples : Float32Array) :
  map wrap16 (map pcm16 samples) = map pcm16 samples.
Proof.
  rewrite map_map. apply map_ext. intros x.
  apply wrap16_small, ToInt16_range.
Qed.

Lemma Uint8Array_of_buffer_lookup (a : Int16Array) :
  forall (i : nat) (v : Z),
    a !! i = Some v ->
    exists lo hi,
      Uint8Array_of_buffer a !! (2 * i)%nat = Some lo
      /\ Uint8Array_of_buffer a !! (2 * i + 1)%nat = Some hi
      /\ byte_value lo + 256 * byte_value hi = v mod 65536.
Proof.
  induction a as [|v0 a IH]; intros i v Hi; [discriminate|].
  cbn [Uint8Array_of_buffer flat_map]. fold (Uint8Array_of_buffer a).
  destruct (int16_bytes_value v0) as (lo & hi & E & Hv). rewrite E.
  destruct i as [|i].
  - injection Hi as <-. exists lo, hi. now repeat split.
  - destruct (IH i v Hi) as (lo' & hi' & L0 & L1 & Hv').
    exists lo', hi'.
    replace (2 * Datatypes.S i)%nat with (Datatypes.S (Datatypes.S (2 * i))) by lia.
    replace (Datatypes.S (Datatypes.S (2 * i)) + 1)%nat
      with (Datatypes.S (Datatypes.S (2 * i + 1))) by lia.
    now repeat split.
Qed.

(** Captured frames leave as one chunk each, in capture order, and change
    nothing in the component state. *)
Lemma capture_sends_in_order (frames : list (list number)) (st : State) :
  run (map AudioProcess frames) st
  = (map (fun frame => sendRealtimeInput (createBlob frame)) frames, st).
Proof.
  induction frames as [|frame frames IH]; [reflexivity|].
  cbn [map run handle onaudioprocess]. now rewrite IH.
Qed.

(** [C5] [createBlob] (the spec's [encodeFrame]) on any sample array, the
    empty one included: the chunk is tagged [audio/pcm;rate=16000]; its base64
    text decodes back to exactly two bytes per sample; read as 16-bit
    elements these bytes are the samples scaled by 32768 and converted by
    [ToInt16]; each element sits low byte first (little-endian); a finite
    sample [q] becomes the truncation of [q * 32768] reduced modulo 2^16 into
    the signed range, without clamping (1.0 becomes -32768); and an empty
    array gives the empty chunk.  (The function has no effects: it is a
    function of its argument alone.) *)
Theorem createBlob_chunk (samples : Float32Array) :
  mimeType (createBlob samples) = "audio/pcm;rate=16000"%string
  /\ (exists bytes : list byte,
        atob (data (createBlob samples)) = Ok (string_of_list_byte bytes)
        /\ length bytes = (2 * length samples)%nat
        /\ Int16Array_of_buffer bytes = Ok (map pcm16 samples)
        /\ forall (i : nat) (x : number),
             samples !! i = Some x ->
             exists lo hi,
               bytes !! (2 * i)%nat = Some lo
               /\ bytes !! (2 * i + 1)%nat = Some hi
               /\ byte_value lo + 256 * byte_value hi = pcm16 x mod 65536)
  /\ (forall q : Q,
        -32768 <= pcm16 (Finite q) <= 32767
        /\ pcm16 (Finite q) mod 65536 = truncate (q * inject_Z 32768) mod 65536)
  /\ pcm16 (Finite 1) = -32768
  /\ data (createBlob []) = EmptyString.
Proof.
  rewrite createBlob_loops. cbn [mimeType data].
  split; [reflexivity|]. split; [|split; [|split; reflexivity]].
  - exists (Uint8Array_of_buffer (map pcm16 samples)).
    rewrite atob_btoa, length_Uint8Array_of_buffer, length_map.
    rewrite Int16Array_of_buffer_view, map_wrap16_pcm16.
    repeat split. intros i x Hi.
    apply Uint8Array_of_buffer_lookup.
    now rewrite list_lookup_fmap_Some; exists x.
  - intros q. split; [apply ToInt16_range|]. apply wrap16_mod.
Qed.

(** ** Round trip *)

Lemma roundtrip_mono (samples : list Q) (rate : Z) :
  samples <> [] ->
  Z.of_nat (length samples) < 4294967296 ->
  8000 <= rate <= 96000 ->
  roundtrip samples rate =
  Ok {| sampleRate := rate;
        channels := [map (fun q => Finite (pcm16 (Finite q) # 32768)) samples] |}.
Proof.
  intros Hne Hmax Hrate. unfold roundtrip.
  rewrite decode_createBlob. cbn [bind].
  rewrite decodeAudioData_mono.
  - rewrite int16_pairs_view, map_wrap16_pcm16, !map_map. reflexivity.
  - rewrite length_Uint8Array_of_buffer. apply even_double.
  - rewrite length_Uint8Array_of_buffer, !length_map.
    destruct samples; [contradiction|cbn; lia].
  - rewrite length_Uint8Array_of_buffer, !length_map. lia.
  - exact Hrate.
Qed.

Lemma sample_within_quantization (q : Q) :
  (-1 <= q)%Q -> (q < 1)%Q ->
  within_quantization q (Finite (pcm16 (Finite q) # 32768)).
Proof.
  intros Hlo Hhi. destruct (truncate_scaled q Hlo Hhi) as [Hrange Herr].
  eexists. split; [reflexivity|].
  unfold pcm16, ToInt16, times. rewrite wrap16_small by exact Hrange.
  apply Qlt_le_weak. exact Herr.
Qed.

(** [C3], amended.  For every non-empty array of samples in [-1, 1) (fewer
    than 2^32 of them) and every supported rate, decoding the encoded chunk
    gives an array of the same length whose elements are within 1/32768 of
    the originals. *)
Theorem roundtrip_reconstructs (samples : list Q) (rate : Z) :
  samples <> [] ->
  Z.of_nat (length samples) < 4294967296 ->
  8000 <= rate <= 96000 ->
  Forall (fun q => (-1 <= q)%Q /\ (q < 1)%Q) samples ->
  reconstructs samples rate.
Proof.
  intros Hne Hmax Hrate Hin. eexists. split.
  - now apply roundtrip_mono.
  - clear Hne Hmax. induction Hin as [|q samples [Hlo Hhi] _ IH].
    + constructor.
    + cbn [map]. constructor; [now apply sample_within_quantization|exact IH].
Qed.

Lemma roundtrip_reconstructs_witness :
  reconstructs [-1; -1 # 3; 0; 1 # 2; 32767 # 32768]%Q 16000.
Proof.
  apply roundtrip_reconstructs.
  - discriminate.
  - vm_compute. reflexivity.
  - lia.
  - repeat constructor; vm_compute; discriminate || reflexivity.
Defined.

(** [C3] as stated fails: the sample 1.0, which lies in [-1, 1], is scaled to
    32768, wraps to -32768 and comes back as -1.0; and the empty array comes
    back as an error, because no audio buffer has zero frames. *)
Lemma roundtrip_fails_at_one :
  Forall (fun q => (-1 <= q)%Q /\ (q <= 1)%Q) [1%Q]
  /\ roundtrip [1%Q] 16000 =
     Ok {| sampleRate := 16000; channels := [[Finite (-32768 # 32768)]] |}
  /\ ~ reconstructs [1%Q] 16000
  /\ roundtrip [] 16000 = Throw NotSupportedError
  /\ ~ reconstructs [] 16000.
Proof.
  split; [repeat constructor; vm_compute; discriminate|].
  assert (E1 : roundtrip [1%Q] 16000 =
               Ok {| sampleRate := 16000; channels := [[Finite (-32768 # 32768)]] |})
    by (vm_compute; reflexivity).
  assert (E0 : roundtrip [] 16000 = Throw NotSupportedError)
    by (vm_compute; reflexivity).
  repeat split; try assumption.
  - intros (out & E & F). rewrite E1 in E. injection E as <-.
    inversion F as [|q y l l' (r & Hr & Hle) _]; subst.
    injection Hr as <-. revert Hle. vm_compute. intros H. now apply H.
  - intros (out & E & _). rewrite E0 in E. discriminate.
Qed.

(* ================================================================== *)
(** * The session: transcript, playback cursor, scheduling             *)
(* ================================================================== *)

(** ** [onmessage], case by case *)

Lemma handle_text_transcription_appends (msg : LiveServerMessage) (st : State) :
  handle_text_transcription msg st
  = setTranscription (fun prev => String.append prev (fragment msg)) st.
Proof.
  unfold handle_text_transcription, fragment, transcript_text, setTranscription.
  destruct (serverContent msg) as [[[t|] turn]|]; cbn;
    [destruct (text t) as [[|c s]|]; cbn|..];
    rewrite ?append_empty; try reflexivity; now destruct st.
Qed.

(** What the audio block does, in its three outcomes: nothing to play, a
    payload that fails to decode, a payload that is scheduled. *)
Lemma handle_audio_output_cases (currentTime : Q) (msg : LiveServerMessage) (st : State) :
  let r := handle_audio_output currentTime msg st in
  let cursor := Qmax (nextStartTimeRef st) currentTime in
  (carries_audio msg = false /\ effects r = [] /\ next r = st)
  \/ (carries_audio msg = true /\ (exists e, decoded (payload msg) = Throw e /\ rejected r = Some e)
      /\ effects r = [] /\ next r = set_nextStartTime cursor st)
  \/ (carries_audio msg = true /\ rejected r = None
      /\ exists audioBuffer,
           decoded (payload msg) = Ok audioBuffer
           /\ effects r = [source_start cursor audioBuffer]
           /\ next r = set_nextStartTime (cursor + duration audioBuffer)%Q
                         (set_nextStartTime cursor st)).
Proof.
  unfold handle_audio_output, carries_audio, payload, decoded.
  destruct (base64Audio msg) as [audio|e]; [|left; now repeat split].
  destruct (truthy audio); [|left; now repeat split].
  cbv zeta.
  destruct (try bytes := decode (default EmptyString audio) in
            decodeAudioData bytes 24000 1) as [audioBuffer|e].
  - right; right. repeat split. exists audioBuffer. now repeat split.
  - right; left. repeat split. now exists e.
Qed.

Lemma for_loop_invariant {S : Type} (P : S -> Prop) (body : nat -> S -> S) (count : nat) :
  forall (start : nat) (s : S),
    P s -> (forall i s', P s' -> P (body i s')) -> P (for_loop count start body s).
Proof.
  induction count as [|count IH]; intros start s Hs Hbody; [exact Hs|].
  cbn [for_loop]. apply IH; [now apply Hbody|exact Hbody].
Qed.

Lemma set_sample_rate (b : AudioBuffer) (c i : nat) (v : number) :
  sampleRate (set_sample b c i v) = sampleRate b.
Proof. unfold set_sample. now destruct (channels b !! c). Qed.

Lemma decodeAudioData_rate (bytes : list byte) (rate : Z) (numChannels : nat)
  (buffer : AudioBuffer) :
  decodeAudioData bytes rate numChannels = Ok buffer -> sampleRate buffer = rate.
Proof.
  unfold decodeAudioData.
  destruct (Int16Array_of_buffer bytes) as [dataInt16|e]; [|discriminate].
  cbn [bind]. unfold createBuffer at 1.
  destruct (_ && _); [|discriminate]. cbn [bind].
  intros [= <-].
  apply for_loop_invariant; [reflexivity|].
  intros c b Hb. apply for_loop_invariant; [exact Hb|].
  intros i b' Hb'. now rewrite set_sample_rate.
Qed.

Lemma duration_nonneg (buffer : AudioBuffer) :
  0 <= sampleRate buffer -> (0 <= duration buffer)%Q.
Proof.
  intros Hrate. unfold duration, Qdiv.
  apply Qmult_le_0_compat.
  - unfold Qle. cbn. lia.
  - apply Qinv_le_0_compat. unfold Qle. cbn. lia.
Qed.

Lemma decoded_duration (audio : string) (buffer : AudioBuffer) :
  decoded audio = Ok buffer -> (0 <= duration buffer)%Q.
Proof.
  unfold decoded. destruct (decode audio) as [bytes|e]; [|discriminate].
  cbn [bind]. intros H. apply decodeAudioData_rate in H.
  apply duration_nonneg. lia.
Qed.

(** ** One callback at a time *)

Lemma cursor_handle_text_transcription (msg : LiveServerMessage) (st : State) :
  nextStartTimeRef (handle_text_transcription msg st) = nextStartTimeRef st.
Proof. now rewrite handle_text_transcription_appends. Qed.

(** What one callback does to the cursor and to the playback log.  Only a
    message with a payload touches the cursor; it schedules at most one
    segment, at the cursor raised to the clock. *)
Lemma handle_cursor (ev : event) (st : State) :
  let cursor := nextStartTimeRef st in
  let cursor' := nextStartTimeRef (snd (handle ev st)) in
  (scheduled_by ev st = [] /\ cursor' = cursor)
  \/ (exists currentTime msg,
        ev = Message currentTime msg
        /\ ((scheduled_by ev st = [] /\ cursor' = Qmax cursor currentTime)
            \/ (exists d, (0 <= d)%Q
                  /\ scheduled_by ev st =
                     [{| clock := currentTime; start := Qmax cursor currentTime; span := d |}]
                  /\ cursor' = (Qmax cursor currentTime + d)%Q))).
Proof.
  destruct ev as [|inputData|currentTime msg| |e]; try (left; now split).
  cbn [handle snd scheduled_by]. unfold onmessage.
  pose proof (handle_audio_output_cases currentTime msg
                (handle_text_transcription msg st)) as H.
  cbv zeta in H. rewrite cursor_handle_text_transcription in H.
  destruct H as [(_ & He & Hn)|[(_ & _ & He & Hn)|(_ & _ & b & Hb & He & Hn)]];
    rewrite He, Hn.
  - left. split; [reflexivity|]. apply cursor_handle_text_transcription.
  - right. exists currentTime, msg. split; [reflexivity|]. left. now split.
  - right. exists currentTime, msg. split; [reflexivity|]. right.
    exists (duration b). split; [now apply decoded_duration in Hb|]. now split.
Qed.

Lemma run_app (evs1 evs2 : list event) (st : State) :
  run (evs1 ++ evs2) st =
  (fst (run evs1 st) ++ fst (run evs2 (snd (run evs1 st))),
   snd (run evs2 (snd (run evs1 st)))).
Proof.
  revert st. induction evs1 as [|ev evs1 IH]; intros st.
  - cbn. now destruct (run evs2 st).
  - cbn [app run]. destruct (handle ev st) as [out st1]. rewrite IH.
    destruct (run evs1 st1) as [outs st2]. cbn [fst snd].
    now rewrite app_assoc.
Qed.

Lemma run_cons (ev : event) (evs : list event) (st : State) :
  run (ev :: evs) st =
  (fst (handle ev st) ++ fst (run evs (snd (handle ev st))),
   snd (run evs (snd (handle ev st)))).
Proof.
  cbn [run]. destruct (handle ev st) as [out st1]. cbn [fst snd].
  now destruct (run evs st1).
Qed.

(** The playback log is the list of [source.start] calls of the run. *)
Lemma playback_log_effects (evs : list event) (st : State) :
  map (fun s => (start s, span s)) (playback_log evs st) = starts_of (fst (run evs st)).
Proof.
  revert st. induction evs as [|ev evs IH]; intros st; [reflexivity|].
  rewrite run_cons. cbn [playback_log fst].
  unfold starts_of in *. rewrite map_app, flat_map_app, IH. f_equal.
  destruct ev as [|inputData|currentTime msg| |e]; try reflexivity.
  cbn [scheduled_by handle fst].
  induction (effects (onmessage currentTime msg st)) as [|e out IHout]; [reflexivity|].
  cbn [flat_map]. rewrite map_app, IHout. now destruct e.
Qed.

(** ** Monotonicity of the cursor *)

Lemma handle_cursor_le (ev : event) (st : State) :
  (nextStartTimeRef st <= nextStartTimeRef (snd (handle ev st)))%Q.
Proof.
  destruct (handle_cursor ev st)
    as [[_ ->]|(t & msg & _ & [[_ ->]|(d & Hd & _ & ->)])].
  - apply Qle_refl.
  - apply Q.le_max_l.
  - eapply Qle_trans; [apply Q.le_max_l|].
    rewrite <- (Qplus_0_r (Qmax _ _)) at 1. apply Qplus_le_r. exact Hd.
Qed.

Lemma run_cursor_le (evs : list event) (st : State) :
  (nextStartTimeRef st <= nextStartTimeRef (snd (run evs st)))%Q.
Proof.
  revert st. induction evs as [|ev evs IH]; intros st; [apply Qle_refl|].
  rewrite run_cons. cbn [snd].
  eapply Qle_trans; [apply handle_cursor_le|apply IH].
Qed.

Lemma scheduled_ahead_of_clock (evs : list event) (st : State) :
  Forall (fun s => (clock s <= start s)%Q) (playback_log evs st).
Proof.
  revert st. induction evs as [|ev evs IH]; intros st; [constructor|].
  cbn [playback_log]. apply Forall_app. split; [|apply IH].
  destruct (handle_cursor ev st)
    as [[-> _]|(t & msg & _ & [[-> _]|(d & _ & -> & _)])]; try constructor.
  - cbn [clock start]. apply Q.le_max_r.
  - constructor.
Qed.

(** [C2] Over any sequence of session callbacks, from any state: the cursor
    [nextStartTimeRef] after a prefix of the sequence is at most the cursor
    after the whole of it (it never decreases), and every segment is
    scheduled at a start time (the cursor value passed to [source.start]) at
    or after the clock reading of the callback that scheduled it.  The
    segments of the log are exactly the [source.start] calls of the run. *)
Theorem cursor_monotone_and_ahead (evs1 evs2 : list event) (st : State) :
  (nextStartTimeRef (snd (run evs1 st))
   <= nextStartTimeRef (snd (run (evs1 ++ evs2) st)))%Q
  /\ Forall (fun s => (clock s <= start s)%Q) (playback_log (evs1 ++ evs2) st)
  /\ map (fun s => (start s, span s)) (playback_log (evs1 ++ evs2) st)
     = starts_of (fst (run (evs1 ++ evs2) st)).
Proof.
  split; [|split].
  - rewrite run_app. cbn [snd]. apply run_cursor_le.
  - apply scheduled_ahead_of_clock.
  - apply playback_log_effects.
Qed.

(** ** Back-to-back playback *)

Lemma clock_from_weaken (evs : list event) :
  forall c c' : Q, (c' <= c)%Q -> clock_from c evs -> clock_from c' evs.
Proof.
  induction evs as [|ev evs IH]; intros c c' Hc H; [exact I|].
  destruct ev; cbn [clock_from] in *; try (eapply IH; eassumption).
  destruct H as [H1 H2]. split; [eapply Qle_trans; eassumption|exact H2].
Qed.

Lemma clock_from_step (ev : event) (evs : list event) (c : Q) :
  clock_from c (ev :: evs) ->
  match ev with
  | Message currentTime _ => (c <= currentTime)%Q /\ clock_from currentTime evs
  | _ => clock_from c evs
  end.
Proof. destruct ev; cbn [clock_from]; auto. Qed.

(** A decoded buffer has fewer than 2^32 frames: [createBuffer] takes its
    length as an unsigned 32-bit integer. *)
Lemma decodeAudioData_frames (bytes : list byte) (rate : Z) (numChannels : nat)
  (buffer : AudioBuffer) :
  decodeAudioData bytes rate numChannels = Ok buffer ->
  Z.of_nat (frames buffer) < 2 ^ 32.
Proof.
  unfold decodeAudioData.
  destruct (Int16Array_of_buffer bytes) as [dataInt16|e]; [|discriminate].
  cbn [bind]. unfold createBuffer at 1.
  destruct (_ && _); [|discriminate]. cbn [bind].
  intros [= <-].
  set (P := fun b : AudioBuffer =>
              Forall (fun ch : list number => Z.of_nat (length ch) < 2 ^ 32) (channels b)).
  assert (HP : forall b, P b -> Z.of_nat (frames b) < 2 ^ 32).
  { intros b Hb. unfold frames. destruct (channels b) as [|ch rest] eqn:E; [reflexivity|].
    unfold P in Hb. rewrite E in Hb. now inversion Hb. }
  apply HP. apply for_loop_invariant.
  - unfold P. cbn [channels]. apply Forall_replicate. rewrite length_replicate.
    assert (H : 0 <= ToUint32 (quotient (Z.of_nat (length dataInt16)) (Z.of_nat numChannels))
                < 2 ^ 32).
    { unfold ToUint32. destruct (quotient _ _); [apply Z.mod_pos_bound; lia|lia|lia]. }
    lia.
  - intros c b Hb. apply for_loop_invariant; [exact Hb|].
    intros i b' Hb'. unfold set_sample.
    destruct (channels b' !! c) as [chData|] eqn:E; [|exact Hb'].
    unfold P in *. cbn [channels]. apply Forall_insert; [exact Hb'|].
    rewrite length_insert. eapply Forall_lookup_1 in Hb'; [exact Hb'|exact E].
Qed.

Lemma decoded_duration64 (audio : string) (audioBuffer : AudioBuffer) :
  decoded audio = Ok audioBuffer ->
  exists d : Q,
    duration64 audioBuffer = Finite d /\ (0 <= d)%Q /\ (d <= inject_Z (2 ^ 32))%Q.
Proof.
  unfold decoded. destruct (decode audio) as [bytes|e]; [|discriminate].
  cbn [bind]. intros H. apply duration64_finite.
  - now apply decodeAudioData_rate in H.
  - now apply decodeAudioData_frames in H.
Qed.

(** The exact schedule and the binary64 one are of the same buffers: the
    payloads that decode, in arrival order. *)
Lemma playback_log_spans (evs : list event) :
  forall st : State,
    map span (playback_log evs st) = map duration (decodable evs).
Proof.
  induction evs as [|ev evs IH]; intros st; [reflexivity|].
  cbn [playback_log decodable flat_map]. rewrite !map_app. rewrite IH. f_equal.
  destruct ev as [|inputData|t msg| |e]; try reflexivity.
  cbn [scheduled_by]. unfold onmessage.
  pose proof (handle_audio_output_cases t msg (handle_text_transcription msg st)) as H.
  cbv zeta in H.
  destruct H as [(Hc & He & _)|[(Hc & (e & Hd & _) & He & _)|(Hc & _ & b & Hd & He & _)]];
    rewrite He, Hc; [reflexivity|now rewrite Hd|].
  rewrite Hd. reflexivity.
Qed.

(** "Handle Audio Output" in binary64, case by case. *)
Lemma handle_audio_output64_cases (currentTime : number) (msg : LiveServerMessage)
  (nextStartTime : number) :
  handle_audio_output64 currentTime msg nextStartTime
  = if carries_audio msg then
      match decoded (payload msg) with
      | Ok audioBuffer =>
          ([(Math_max nextStartTime currentTime, audioBuffer)],
           add64 (Math_max nextStartTime currentTime) (duration64 audioBuffer))
      | Throw _ => ([], Math_max nextStartTime currentTime)
      end
    else ([], nextStartTime).
Proof.
  unfold handle_audio_output64, carries_audio, payload, decoded.
  destruct (base64Audio msg) as [audio|e]; [|reflexivity].
  destruct (truthy audio); [|reflexivity]. cbv zeta.
  now destruct (try bytes := decode (default EmptyString audio) in
                decodeAudioData bytes 24000 1).
Qed.

(** Every payload that decodes is scheduled, with its buffer, in arrival
    order, whatever the cursor and the clock are. *)
Lemma playback64_buffers (evs : list event) :
  forall nextStartTime : number,
    map scheduled_buffer (playback64 evs nextStartTime) = decodable evs.
Proof.
  induction evs as [|ev evs IH]; intros c; [reflexivity|].
  destruct ev as [|inputData|t msg| |e]; cbn [playback64 decodable flat_map app];
    try apply IH.
  rewrite handle_audio_output64_cases.
  destruct (carries_audio msg); [|apply IH].
  destruct (decoded (payload msg)) as [b|e]; cbn [map app]; [|apply IH].
  cbn [scheduled_buffer snd]. f_equal. apply IH.
Qed.

(** What one message does to a binary64 cursor [c] at a binary64 reading
    [t]: nothing; or the cursor is raised to the reading; or a segment is
    scheduled at the raised cursor, and the cursor moves to the rounded sum,
    which is a binary64 number again and not below the start. *)
Lemma handle_audio_output64_step (t c : Q) (msg : LiveServerMessage) :
  binary64 c -> binary64 t ->
  handle_audio_output64 (Finite t) msg (Finite c) = ([], Finite c)
  \/ handle_audio_output64 (Finite t) msg (Finite c) = ([], Finite (Qmax c t))
  \/ exists (audioBuffer : AudioBuffer) (d : Q),
       handle_audio_output64 (Finite t) msg (Finite c)
       = ([(Finite (Qmax c t), audioBuffer)], Finite (round64 (Qmax c t + d)))
       /\ add64 (Finite (Qmax c t)) (duration64 audioBuffer)
          = Finite (round64 (Qmax c t + d))
       /\ binary64 (round64 (Qmax c t + d))
       /\ (Qmax c t <= round64 (Qmax c t + d))%Q.
Proof.
  intros Hc Ht. rewrite handle_audio_output64_cases.
  destruct (carries_audio msg); [|now left].
  destruct (decoded (payload msg)) as [b|e] eqn:Hb; [|right; now left].
  right; right. destruct (decoded_duration64 _ _ Hb) as (d & Hd & Hd0 & Hd1).
  pose proof (binary64_Qmax c t Hc Ht) as Hm.
  destruct (add64_duration (Qmax c t) d Hm Hd0 Hd1) as (Hadd & Hbin & Hle).
  exists b, d. cbn [Math_max]. rewrite Hd. now rewrite Hadd.
Qed.

Lemma Forall_readings (ev : event) (evs : list event) :
  Forall binary64 (readings (ev :: evs)) ->
  match ev with
  | Message currentTime _ => binary64 currentTime
  | _ => True
  end
  /\ Forall binary64 (readings evs).
Proof.
  unfold readings. cbn [flat_map]. intros H. apply Forall_app in H.
  destruct H as [H1 H2]. split; [|exact H2].
  destruct ev; try exact I. now inversion H1.
Qed.

(** The invariant between the last scheduled segment [prev], which started
    at [p] and ended at [e], a binary64 cursor [c] and a lower bound [lo] of
    the clock: the cursor is at the end of [prev], or was raised to a clock
    reading no later than [lo]. *)
Lemma chained_run (evs : list event) :
  forall (prev : Scheduled) (p e c lo : Q),
    at_start prev = Finite p ->
    end64 prev = Finite e ->
    binary64 c ->
    (p <= c)%Q -> (e <= c)%Q -> (c <= Qmax e lo)%Q ->
    Forall binary64 (readings evs) ->
    clock_from lo evs ->
    chained prev (playback64 evs (Finite c)).
Proof.
  induction evs as [|ev evs IH]; intros prev p e c lo Hp He Hc Hpc Hec Hhi Hr Hclock;
    [exact I|].
  apply Forall_readings in Hr. destruct Hr as [Ht Hr].
  apply clock_from_step in Hclock.
  destruct ev as [|inputData|t msg| |err]; cbn [playback64];
    try (now apply (IH prev p e c lo)).
  destruct Hclock as [Hlo Hclock].
  assert (Hhi' : (Qmax c t <= Qmax e t)%Q).
  { apply Q.max_lub; [|apply Q.le_max_r].
    eapply Qle_trans; [exact Hhi|]. now apply Q.max_le_compat_l. }
  destruct (handle_audio_output64_step t c msg Hc Ht)
    as [->|[->|(b & d & -> & Hadd & Hbin & Hle)]]; cbn [map app].
  - apply (IH prev p e c t); try assumption.
    eapply Qle_trans; [exact Hhi|]. now apply Q.max_le_compat_l.
  - apply (IH prev p e (Qmax c t) t); try assumption.
    + now apply binary64_Qmax.
    + eapply Qle_trans; [exact Hpc|apply Q.le_max_l].
    + eapply Qle_trans; [exact Hec|apply Q.le_max_l].
  - cbn [chained at_start at_reading fst snd]. rewrite Hp, He.
    cbn [finite at_most same Math_max].
    split; [exact I|]. split; [eapply Qle_trans; [exact Hpc|apply Q.le_max_l]|].
    split; [eapply Qle_trans; [exact Hec|apply Q.le_max_l]|].
    split.
    + apply Qle_antisym; [exact Hhi'|].
      apply Q.max_le_compat_r. exact Hec.
    + apply (IH _ (Qmax c t) (round64 (Qmax c t + d)) (round64 (Qmax c t + d)) t);
        try assumption; try reflexivity; try apply Qle_refl.
      apply Q.le_max_l.
Qed.

(** [C1], amended.  Over any sequence of session callbacks, from any
    non-negative binary64 value of the cursor, with clock readings that are
    non-negative binary64 numbers and do not decrease: every payload that
    decodes is scheduled, with its buffer, in arrival order; the first
    segment starts at the larger of the cursor and the clock reading; and for
    consecutive segments the start times are finite and do not decrease, no
    segment starts before [start + duration] of the one before, as binary64
    addition rounds that sum, and each starts at the larger of that rounded
    end and the clock reading at its own scheduling, so no later than
    that. *)
Theorem playback_back_to_back_rounded (evs : list event) (cursor : Q) :
  binary64 cursor ->
  Forall binary64 (readings evs) ->
  clock_from 0 evs ->
  let log := playback64 evs (Finite cursor) in
  map scheduled_buffer log = decodable evs
  /\ match log with
     | [] => True
     | first :: rest =>
         same (at_start first) (Math_max (Finite cursor) (Finite (at_reading first)))
         /\ chained first rest
     end.
Proof.
  intros Hcursor Hr Hclock. cbv zeta. split; [apply playback64_buffers|].
  enough (H : forall (c lo : Q),
             binary64 c -> (cursor <= c)%Q -> (c <= Qmax cursor lo)%Q ->
             Forall binary64 (readings evs) -> clock_from lo evs ->
             match playback64 evs (Finite c) with
             | [] => True
             | first :: rest =>
                 same (at_start first) (Math_max (Finite cursor) (Finite (at_reading first)))
                 /\ chained first rest
             end).
  { apply (H cursor 0%Q); try assumption; [apply Qle_refl|apply Q.le_max_l]. }
  clear Hr Hclock. induction evs as [|ev evs IH]; intros c lo Hc Hlo Hhi Hr Hclock;
    [exact I|].
  apply Forall_readings in Hr. destruct Hr as [Ht Hr].
  apply clock_from_step in Hclock.
  destruct ev as [|inputData|t msg| |err]; cbn [playback64];
    try (now apply (IH c lo)).
  destruct Hclock as [Hlt Hclock].
  assert (Hhi' : (Qmax c t <= Qmax cursor t)%Q).
  { apply Q.max_lub; [|apply Q.le_max_r].
    eapply Qle_trans; [exact Hhi|]. now apply Q.max_le_compat_l. }
  destruct (handle_audio_output64_step t c msg Hc Ht)
    as [->|[->|(b & d & -> & Hadd & Hbin & Hle)]]; cbn [map app].
  - apply (IH c t); try assumption.
    eapply Qle_trans; [exact Hhi|]. now apply Q.max_le_compat_l.
  - apply (IH (Qmax c t) t); try assumption.
    + now apply binary64_Qmax.
    + eapply Qle_trans; [exact Hlo|apply Q.le_max_l].
  - cbn [at_start at_reading fst snd same Math_max]. split.
    + apply Qle_antisym; [exact Hhi'|]. apply Q.max_le_compat_r. exact Hlo.
    + apply (chained_run evs _ (Qmax c t) (round64 (Qmax c t + d))
               (round64 (Qmax c t + d)) t);
        try assumption; try reflexivity; try apply Qle_refl.
      apply Q.le_max_l.
Qed.

Lemma playback_back_to_back_rounded_witness :
  binary64 0
  /\ Forall binary64 (readings sample_run64)
  /\ clock_from 0 sample_run64
  /\ (let log := playback64 sample_run64 (Finite 0) in
      map scheduled_buffer log = decodable sample_run64
      /\ match log with
         | [] => True
         | first :: rest =>
             same (at_start first) (Math_max (Finite 0) (Finite (at_reading first)))
             /\ chained first rest
         end).
Proof.
  assert (H0 : binary64 0) by (apply is_binary64_binary64; vm_compute; reflexivity).
  assert (H1 : Forall binary64 (readings sample_run64)).
  { cbn [readings sample_run64 flat_map app].
    repeat (constructor; [apply is_binary64_binary64; vm_compute; reflexivity|]).
    constructor. }
  assert (H2 : clock_from 0 sample_run64).
  { cbn [sample_run64 clock_from]. repeat split; vm_compute; discriminate. }
  split; [exact H0|]. split; [exact H1|]. split; [exact H2|].
  exact (playback_back_to_back_rounded sample_run64 0 H0 H1 H2).
Defined.

(** [C1] as stated fails on the numbers the code computes.  With the clock
    at 0 throughout, the claim asks for each segment to start exactly at the
    sum of the start and the duration of the one before.  After segments of
    four and three frames the third starts 2^-65 s before that sum (an
    overlap); after segments of one and two frames it starts 2^-67 s after
    it (a gap). *)
Lemma rounded_end_is_not_the_exact_end :
  exact_gaps (playback64 frames_4_3_3 (Finite 0)) = [0; -1 # 2 ^ 65]%Q
  /\ exact_gaps (playback64 frames_1_2_1 (Finite 0)) = [0; 1 # 2 ^ 67]%Q.
Proof. split; vm_compute; reflexivity. Qed.

(** ** A sample run *)

Example sample_run_log :
  map span (playback_log sample_run initial) = [4 # 24000; 3 # 24000; 3 # 24000]%Q
  /\ map (fun s => frames (scheduled_buffer s)) (playback64 sample_run64 (Finite 0))
     = [4; 3; 3]%nat
  /\ transcription (snd (run sample_run initial)) = "Hello, world"%string.
Proof. repeat split; vm_compute; reflexivity. Qed.

(** ** Transcript and audio in one message *)

(** [C7] For every inbound message, in every state: the transcript grows by
    exactly the message's fragment, appended at the end (by nothing when it
    has none).  When the message has no audio payload, no segment is
    scheduled, there is no effect at all, and the state changes in the
    transcript only, so the cursor stays where it was.  When it has a
    payload that decodes, the fragment is appended and the segment is
    scheduled at the cursor raised to the clock: both parts are processed. *)
Theorem onmessage_transcript_and_audio
  (currentTime : Q) (msg : LiveServerMessage) (st : State) :
  let r := onmessage currentTime msg st in
  transcription (next r) = String.append (transcription st) (fragment msg)
  /\ (carries_audio msg = false ->
      effects r = []
      /\ scheduled_by (Message currentTime msg) st = []
      /\ next r = setTranscription (fun prev => String.append prev (fragment msg)) st
      /\ nextStartTimeRef (next r) = nextStartTimeRef st)
  /\ (forall audioBuffer : AudioBuffer,
        carries_audio msg = true ->
        decoded (payload msg) = Ok audioBuffer ->
        effects r = [source_start (Qmax (nextStartTimeRef st) currentTime) audioBuffer]
        /\ rejected r = None
        /\ transcription (next r) = String.append (transcription st) (fragment msg)).
Proof.
  cbv zeta. unfold scheduled_by, onmessage.
  pose proof (handle_audio_output_cases currentTime msg
                (handle_text_transcription msg st)) as H.
  cbv zeta in H. rewrite cursor_handle_text_transcription in H.
  rewrite handle_text_transcription_appends in *.
  destruct H as [(Hc & He & Hn)|[(Hc & (e & Hd & Hr) & He & Hn)|(Hc & Hr & b & Hd & He & Hn)]];
    rewrite He, Hn, Hc; (split; [reflexivity|]); split.
  - intros _. now repeat split.
  - intros b Hf. discriminate.
  - discriminate.
  - intros b _ Hb. rewrite Hb in Hd. discriminate.
  - discriminate.
  - intros b' _ Hb. rewrite Hb in Hd. injection Hd as <-. now repeat split.
Qed.

Lemma onmessage_transcript_and_audio_witness :
  let st := snd (run [Open; Message 0 (audio_message "AAAAAAAAAAA=")] initial) in
  (let r := onmessage (1 # 1000) (transcript_message "Hello") st in
   effects r = []
   /\ scheduled_by (Message (1 # 1000) (transcript_message "Hello")) st = []
   /\ next r = setTranscription (fun prev => String.append prev "Hello") st
   /\ nextStartTimeRef (next r) = nextStartTimeRef st)
  /\ (let r := onmessage (1 # 1000) (full_message "Hello" "AAAAAAAA") st in
      effects r =
        [source_start (Qmax (nextStartTimeRef st) (1 # 1000))
           {| sampleRate := 24000;
              channels := [[Finite (0 # 32768); Finite (0 # 32768); Finite (0 # 32768)]] |}]
      /\ rejected r = None
      /\ transcription (next r) = "Hello"%string).
Proof.
  cbv zeta. split.
  - apply (onmessage_transcript_and_audio (1 # 1000) (transcript_message "Hello")).
    reflexivity.
  - apply (onmessage_transcript_and_audio (1 # 1000) (full_message "Hello" "AAAAAAAA")).
    + reflexivity.
    + vm_compute. reflexivity.
Defined.

(** ** Malformed audio *)





(* ================================================================== *)
(** * Connecting and disconnecting                                     *)
(* ================================================================== *)

Lemma apiKey_absent (env : Environment) :
  truthy (VITE_API_KEY env) = false ->
  truthy (window_API_KEY env) = false ->
  apiKey env = EmptyString.
Proof. intros H1 H2. unfold apiKey. now rewrite H1, H2. Qed.

Lemma apiKey_present (env : Environment) :
  truthy (VITE_API_KEY env) = true \/ truthy (window_API_KEY env) = true ->
  truthy (Some (apiKey env)) = true.
Proof.
  unfold apiKey. intros [H|H].
  - rewrite H. destruct (VITE_API_KEY env) as [[|c s]|]; now cbn in *.
  - rewrite H. destruct (truthy (VITE_API_KEY env)) eqn:E.
    + destruct (VITE_API_KEY env) as [[|c s]|]; now cbn in *.
    + destruct (window_API_KEY env) as [[|c s]|]; now cbn in *.
Qed.

(** With a credential, [connect] goes on to allocate: the check comes
    first. *)
Lemma connect_with_credential (env : Environment) (st : State) :
  truthy (VITE_API_KEY env) = true \/ truthy (window_API_KEY env) = true ->
  exists rest,
    fst (connect env st) =
    new_GoogleGenAI (apiKey env) :: new_AudioContext 16000 :: new_AudioContext 24000
      :: createGain :: getUserMedia :: rest.
Proof.
  intros H. apply apiKey_present in H. unfold connect. rewrite H. cbn [negb].
  destruct (microphone env); eexists; reflexivity.
Qed.

(** [C6] When neither source of the API key holds a non-empty string,
    [connect], from any state, does one thing besides updating the status:
    it logs the missing key.  Nothing is allocated (no API client, no audio
    context, no microphone request, no remote session); the status shown to
    the user is "Missing API key"; the component is inactive, so the button
    offers to start again; and the refs are as they were.  From the initial
    state the result is the initial state with that status. *)
Theorem connect_without_credential (env : Environment) (st : State) :
  truthy (VITE_API_KEY env) = false ->
  truthy (window_API_KEY env) = false ->
  fst (connect env st) =
    [console_error "Missing API key. Set VITE_API_KEY in your environment."]
  /\ Forall (fun e => allocates e = false) (fst (connect env st))
  /\ snd (connect env st) = setActive false (setStatus "Missing API key" st)
  /\ active (snd (connect env st)) = false
  /\ status (snd (connect env st)) = "Missing API key"%string
  /\ mediaStreamRef (snd (connect env st)) = mediaStreamRef st
  /\ audioContextRef (snd (connect env st)) = audioContextRef st
  /\ sessionRef (snd (connect env st)) = sessionRef st
  /\ snd (connect env initial) = setStatus "Missing API key" initial.
Proof.
  intros H1 H2.
  assert (E : forall st0, connect env st0 =
              ([console_error "Missing API key. Set VITE_API_KEY in your environment."],
               setActive false (setStatus "Missing API key" st0))).
  { intros st0. unfold connect. now rewrite (apiKey_absent env H1 H2). }
  rewrite !E. cbn [fst snd]. repeat split. repeat constructor.
Qed.

Lemma connect_without_credential_witness :
  let env := {| VITE_API_KEY := None; window_API_KEY := Some EmptyString;
                microphone := Ok [7%nat] |} in
  fst (connect env initial) =
    [console_error "Missing API key. Set VITE_API_KEY in your environment."]
  /\ Forall (fun e => allocates e = false) (fst (connect env initial))
  /\ snd (connect env initial) = setActive false (setStatus "Missing API key" initial)
  /\ active (snd (connect env initial)) = false
  /\ status (snd (connect env initial)) = "Missing API key"%string
  /\ mediaStreamRef (snd (connect env initial)) = mediaStreamRef initial
  /\ audioContextRef (snd (connect env initial)) = audioContextRef initial
  /\ sessionRef (snd (connect env initial)) = sessionRef initial
  /\ snd (connect env initial) = setStatus "Missing API key" initial.
Proof.
  cbv zeta. apply connect_without_credential; reflexivity.
Defined.


(** On one and the same mounted component, with the guard of the button and
    the reload taken away, [disconnect] would release twice: it never clears
    the refs, so a second call stops the same track and closes the same
    context again.  The guard and the reload are what keeps the component
    from doing so. *)
Lemma disconnect_twice_releases_twice :
  let closed := snd (disconnect listening) in
  status closed = "Disconnected"%string
  /\ active closed = false
  /\ fst (disconnect listening) =
     [track_stop 7; context_close {| contextRate := 24000 |}; location_reload]
  /\ fst (disconnect closed) =
     [track_stop 7; context_close {| contextRate := 24000 |}; location_reload]
  /\ Exists (fun e => releases e = true) (fst (disconnect closed)).
Proof.
  cbv zeta. repeat split. vm_compute. constructor. reflexivity.
Qed.

(* ================================================================== *)
(** * gemini.ts: the WAV container                                     *)
(* ================================================================== *)

(** ** Reading a header back *)

Lemma le_value_le_bytes (width : nat) :
  forall v : Z, le_value (le_bytes width v) = v mod 2 ^ (8 * Z.of_nat width).
Proof.
  induction width as [|width IH]; intros v.
  - cbn. now rewrite Z.mod_1_r.
  - cbn [le_bytes le_value]. rewrite IH, byte_value_ToUint8.
    replace (8 * Z.of_nat (Datatypes.S width)) with (8 + 8 * Z.of_nat width) by lia.
    rewrite Z.pow_add_r by lia. change (2 ^ 8) with 256.
    rewrite Z.rem_mul_r by lia. reflexivity.
Qed.

(** ** The pieces of [pcmToWav] *)

Lemma header_writes (pcmLen : nat) (sampleRate : Z) (k : list byte -> result string) :
  (try view := writeString (replicate 44 x00) 0 "RIFF" in
   try view := setUint32 view 4 (36 + Z.of_nat pcmLen) in
   try view := writeString view 8 "WAVE" in
   try view := writeString view 12 "fmt " in
   try view := setUint32 view 16 16 in
   try view := setUint16 view 20 1 in
   try view := setUint16 view 22 1 in
   try view := setUint32 view 24 sampleRate in
   try view := setUint32 view 28 (sampleRate * 2) in
   try view := setUint16 view 32 2 in
   try view := setUint16 view 34 16 in
   try view := writeString view 36 "data" in
   try view := setUint32 view 40 (Z.of_nat pcmLen) in
   k view)
  = k (wav_header pcmLen sampleRate).
Proof. reflexivity. Qed.

Lemma length_wav_header (pcmLen : nat) (sampleRate : Z) :
  length (wav_header pcmLen sampleRate) = 44%nat.
Proof. reflexivity. Qed.

Lemma write_bytes_window (source : list byte) :
  forall (done rest : list byte) (old : list byte),
    length old = length source ->
    write_bytes (done ++ old ++ rest) (length done) source = done ++ source ++ rest.
Proof.
  induction source as [|b source IH]; intros done rest old Hlen.
  - destruct old; [reflexivity|discriminate].
  - destruct old as [|x old]; [discriminate|].
    cbn [write_bytes app].
    replace (length done) with (length done + 0)%nat at 1 by lia.
    rewrite insert_app_r. cbn [list_insert insert].
    specialize (IH (done ++ [b]) rest old).
    rewrite length_app in IH. cbn [length] in IH.
    replace (length done + 1)%nat with (Datatypes.S (length done)) in IH by lia.
    rewrite <- !app_assoc in IH. cbn [app] in IH.
    apply IH. now injection Hlen.
Qed.

Lemma string_of_list_byte_app (a b : list byte) :
  string_of_list_byte (a ++ b)
  = String.append (string_of_list_byte a) (string_of_list_byte b).
Proof.
  induction a as [|x a IH]; [reflexivity|].
  cbn [app]. unfold string_of_list_byte in *. cbn [map string_of_list_ascii String.append].
  now rewrite IH.
Qed.

Lemma append_assoc (a b c : string) :
  String.append (String.append a b) c = String.append a (String.append b c).
Proof. induction a as [|x a IH]; cbn; [reflexivity|now rewrite IH]. Qed.

(** The chunked conversion is the conversion of the whole array. *)
Lemma chunk_loop_drop (wavBytes : list byte) (i : nat) (binary : string) :
  chunk_loop wavBytes i binary
  = String.append binary (string_of_list_byte (drop i wavBytes)).
Proof.
  funelim (chunk_loop wavBytes i binary).
  - rewrite H. unfold subarray. rewrite append_assoc. f_equal.
    rewrite <- string_of_list_byte_app. f_equal.
    rewrite <- (take_drop (Nat.min (i + chunkSize) (length wavBytes) - i) (drop i wavBytes))
      at 2.
    f_equal. rewrite drop_drop.
    destruct (Nat.le_ge_cases (i + chunkSize) (length wavBytes)) as [Hle|Hge].
    + rewrite Nat.min_l by exact Hle. f_equal. lia.
    + rewrite Nat.min_r by exact Hge.
      rewrite !drop_ge by lia. reflexivity.
  - rewrite drop_ge by lia. cbn. now rewrite append_empty.
Qed.

Lemma typed_set_header (header pcm : list byte) :
  typed_set (replicate (length header + length pcm) x00) header 0
  = Ok (header ++ replicate (length pcm) x00).
Proof.
  unfold typed_set. rewrite length_replicate.
  replace (0 + length header <=? length header + length pcm)%nat with true
    by (symmetry; apply Nat.leb_le; lia).
  f_equal. rewrite replicate_add.
  pose proof (write_bytes_window header [] (replicate (length pcm) x00)
                (replicate (length header) x00)) as H.
  cbn [app length] in H. apply H. apply length_replicate.
Qed.

Lemma typed_set_data (header pcm : list byte) :
  typed_set (header ++ replicate (length pcm) x00) pcm (length header)
  = Ok (header ++ pcm).
Proof.
  unfold typed_set. rewrite length_app, length_replicate, Nat.leb_refl.
  f_equal.
  pose proof (write_bytes_window pcm header [] (replicate (length pcm) x00)) as H.
  rewrite !app_nil_r in H. apply H. apply length_replicate.
Qed.

(** [pcmToWav] on an input that base64-decodes: the header, then the bytes
    of the input, base64-encoded as a whole. *)
Lemma pcmToWav_bytes (pcmBase64 pcmBinary : string) (sampleRate : Z) :
  atob pcmBase64 = Ok pcmBinary ->
  pcmToWav pcmBase64 sampleRate
  = Ok (btoa (string_of_list_byte
                (wav_header (String.length pcmBinary) sampleRate
                 ++ list_byte_of_string pcmBinary))).
Proof.
  intros Hatob. unfold pcmToWav. rewrite Hatob. cbn [bind].
  rewrite header_writes. rewrite bytes_of_binary_string.
  set (header := wav_header (String.length pcmBinary) sampleRate).
  rewrite <- (length_list_byte pcmBinary).
  rewrite typed_set_header. cbn [bind].
  rewrite typed_set_data. cbn [bind].
  rewrite chunk_loop_drop. reflexivity.
Qed.

Lemma pcmToWav_invalid (pcmBase64 : string) (sampleRate : Z) (e : exn) :
  atob pcmBase64 = Throw e -> pcmToWav pcmBase64 sampleRate = Throw e.
Proof. intros Hatob. unfold pcmToWav. now rewrite Hatob. Qed.

Lemma wav_header_fields (pcmLen : nat) (r : Z) (rest : list byte) :
  let wav := wav_header pcmLen r ++ rest in
  field wav 0 4 = list_byte_of_string "RIFF"
  /\ field wav 4 4 = le_bytes 4 ((36 + Z.of_nat pcmLen) mod 2 ^ 32)
  /\ field wav 8 4 = list_byte_of_string "WAVE"
  /\ field wav 12 4 = list_byte_of_string "fmt "
  /\ field wav 16 4 = le_bytes 4 16
  /\ field wav 20 2 = le_bytes 2 1
  /\ field wav 22 2 = le_bytes 2 1
  /\ field wav 24 4 = le_bytes 4 (r mod 2 ^ 32)
  /\ field wav 28 4 = le_bytes 4 ((r * 2) mod 2 ^ 32)
  /\ field wav 32 2 = le_bytes 2 2
  /\ field wav 34 2 = le_bytes 2 16
  /\ field wav 36 4 = list_byte_of_string "data"
  /\ field wav 40 4 = le_bytes 4 (Z.of_nat pcmLen mod 2 ^ 32)
  /\ drop 44 wav = rest.
Proof. cbv zeta. repeat split; reflexivity. Qed.

Example pcmToWav_value :
  pcmToWav "TWFu" 24000
  = Ok "UklGRicAAABXQVZFZm10IBAAAAABAAEAwF0AAIC7AAACABAAZGF0YQMAAABNYW4="%string
  /\ pcmToWav "TWFu*" 24000 = Throw InvalidCharacterError.
Proof. split; vm_compute; reflexivity. Qed.

(** [C9] For every PCM byte sequence [pcm] (given, as [pcmToWav] takes it,
    by a base64 text that decodes to it) of length [L] and every sample rate
    [r], with [r] and [36 + L] in the range of the header's 32-bit fields:
    the output is a base64 text whose bytes are [44 + L] long; the first 44
    are a RIFF/WAVE header (RIFF, file length [36 + L], WAVE, fmt chunk of
    16 bytes, format 1 = uncompressed PCM, 1 channel, sample rate [r], byte
    rate [2 r] in 32 bits, block align 2, 16 bits per sample, data chunk of
    length [L]), every multi-byte field little-endian; the rest are the
    bytes of [pcm], unchanged. *)
Theorem pcmToWav_container (pcmBase64 : string) (pcm : list byte) (r : Z) :
  base64_bytes pcmBase64 = Ok pcm ->
  0 <= r < 2 ^ 32 ->
  36 + Z.of_nat (length pcm) < 2 ^ 32 ->
  exists wav : list byte,
    (try out := pcmToWav pcmBase64 r in base64_bytes out) = Ok wav
    /\ length wav = (44 + length pcm)%nat
    /\ drop 44 wav = pcm
    /\ field wav 0 4 = list_byte_of_string "RIFF"
    /\ le_value (field wav 4 4) = 36 + Z.of_nat (length pcm)
    /\ field wav 8 4 = list_byte_of_string "WAVE"
    /\ field wav 12 4 = list_byte_of_string "fmt "
    /\ le_value (field wav 16 4) = 16
    /\ le_value (field wav 20 2) = 1
    /\ le_value (field wav 22 2) = 1
    /\ le_value (field wav 24 4) = r
    /\ le_value (field wav 28 4) = (r * 2) mod 2 ^ 32
    /\ le_value (field wav 32 2) = 2
    /\ le_value (field wav 34 2) = 16
    /\ field wav 36 4 = list_byte_of_string "data"
    /\ le_value (field wav 40 4) = Z.of_nat (length pcm).
Proof.
  unfold base64_bytes at 1. intros Hin Hr Hlen.
  destruct (atob pcmBase64) as [pcmBinary|e] eqn:Hatob; [|discriminate].
  cbn [bind] in Hin. injection Hin as <-.
  rewrite length_list_byte in *.
  exists (wav_header (String.length pcmBinary) r ++ list_byte_of_string pcmBinary).
  rewrite (pcmToWav_bytes _ _ _ Hatob). cbn [bind]. unfold base64_bytes.
  rewrite atob_btoa. cbn [bind]. rewrite list_byte_of_string_of_list_byte.
  split; [reflexivity|].
  split; [now rewrite length_app, length_wav_header, length_list_byte|].
  destruct (wav_header_fields (String.length pcmBinary) r (list_byte_of_string pcmBinary))
    as (F0 & F4 & F8 & F12 & F16 & F20 & F22 & F24 & F28 & F32 & F34 & F36 & F40 & Fd).
  rewrite F0, F4, F8, F12, F16, F20, F22, F24, F28, F32, F34, F36, F40, Fd.
  rewrite !le_value_le_bytes.
  change (2 ^ (8 * Z.of_nat 4)) with (2 ^ 32).
  change (2 ^ (8 * Z.of_nat 2)) with 65536.
  rewrite !Z.mod_mod by lia.
  rewrite (Z.mod_small r), (Z.mod_small (36 + _)), (Z.mod_small (Z.of_nat _)) by lia.
  repeat split; reflexivity.
Qed.

Lemma pcmToWav_container_witness :
  exists wav : list byte,
    (try out := pcmToWav "TWFu" 24000 in base64_bytes out) = Ok wav
    /\ length wav = (44 + 3)%nat
    /\ drop 44 wav = list_byte_of_string "Man"
    /\ field wav 0 4 = list_byte_of_string "RIFF"
    /\ le_value (field wav 4 4) = 36 + 3
    /\ field wav 8 4 = list_byte_of_string "WAVE"
    /\ field wav 12 4 = list_byte_of_string "fmt "
    /\ le_value (field wav 16 4) = 16
    /\ le_value (field wav 20 2) = 1
    /\ le_value (field wav 22 2) = 1
    /\ le_value (field wav 24 4) = 24000
    /\ le_value (field wav 28 4) = (24000 * 2) mod 2 ^ 32
    /\ le_value (field wav 32 2) = 2
    /\ le_value (field wav 34 2) = 16
    /\ field wav 36 4 = list_byte_of_string "data"
    /\ le_value (field wav 40 4) = 3.
Proof.
  apply (pcmToWav_container "TWFu" (list_byte_of_string "Man") 24000).
  - vm_compute. reflexivity.
  - lia.
  - cbn. lia.
Defined.

(* ================================================================== *)
(** * gemini.ts: retrying                                              *)
(* ================================================================== *)

Section Retry.
Context {W T : Type}.
Variable fn : W -> (T + thrown) * W.

Lemma successive_step (n : nat) (w w1 w2 : W) (o : T + thrown) (os : list (T + thrown)) :
  fn w = (o, w1) -> successive fn n w1 = (os, w2) ->
  successive fn (Datatypes.S n) w = (o :: os, w2).
Proof. intros H1 H2. cbn [successive]. now rewrite H1, H2. Qed.

Lemma withRetry_trace (retries : nat) :
  forall (delay : Z) (w : W),
    let '(final, log, w') := withRetry fn retries delay w in
    exists (before : list (T + thrown)),
      calls log = before ++ [final]
      /\ (length before <= retries)%nat
      /\ successive fn (Datatypes.S (length before)) w = (before ++ [final], w')
      /\ Forall retried before
      /\ delays log = backoff delay (length before)
      /\ match final with
         | inl _ => True
         | inr e => shouldRetry e = false \/ length before = retries
         end.
Proof.
  induction retries as [|retries IH]; intros delay w.
  - cbn [withRetry]. destruct (fn w) as [[v|e] w1] eqn:Efn; exists [];
      (split; [reflexivity|]); (split; [cbn; lia|]);
      (split; [now apply (successive_step 0 w w1 w1)|]);
      (split; [constructor|]); (split; [reflexivity|]); auto.
  - cbn [withRetry]. destruct (fn w) as [[v|e] w1] eqn:Efn.
    + exists []. split; [reflexivity|]. split; [cbn; lia|].
      split; [now apply (successive_step 0 w w1 w1)|].
      split; [constructor|]. split; [reflexivity|exact I].
    + destruct (shouldRetry e) eqn:Eretry.
      * specialize (IH (delay * 2) w1).
        destruct (withRetry fn retries (delay * 2) w1) as [[final log] w'].
        destruct IH as (before & Hcalls & Hlen & Hsucc & Hall & Hdelays & Hfinal).
        exists (inr e :: before).
        split; [change (calls (called (inr e) :: console_warn (Datatypes.S retries)
                                  (error_message e) :: setTimeout delay :: log))
                  with (inr e :: calls log); now rewrite Hcalls|].
        split; [cbn [length]; lia|].
        split; [now apply (successive_step _ w w1 w')|].
        split; [constructor; [now exists e|exact Hall]|].
        split; [change (delays (called (inr e) :: console_warn (Datatypes.S retries)
                                  (error_message e) :: setTimeout delay :: log))
                  with (delay :: delays log); now rewrite Hdelays|].
        destruct final; [exact I|]. cbn [length].
        destruct Hfinal; [now left|right; lia].
      * exists []. split; [reflexivity|]. split; [cbn; lia|].
        split; [now apply (successive_step 0 w w1 w1)|].
        split; [constructor|]. split; [reflexivity|now left].
Qed.

End Retry.

Lemma includes_substring (hay needle : string) :
  needle <> EmptyString ->
  includes hay needle = true
  <-> exists m : nat, substring m (String.length needle) hay = needle.
Proof.
  intros Hne. unfold includes.
  destruct (String.index 0 needle hay) as [m|] eqn:E.
  - split; [intros _|reflexivity]. exists m. now apply index_correct1 in E.
  - split; [discriminate|]. intros [m Hm]. exfalso.
    apply (index_correct3 0 m needle hay E Hne); [lia|exact Hm].
Qed.

Lemma shouldRetry_iff (e : thrown) :
  shouldRetry e = true
  <-> error_status e = Some 503 \/ error_status e = Some 500 \/ error_status e = Some 429
      \/ exists m, error_message e = Some m /\ includes m "unavailable" = true.
Proof.
  unfold shouldRetry. rewrite !orb_true_iff.
  destruct (error_status e) as [s|]; destruct (error_message e) as [m|];
    rewrite ?Z.eqb_eq; split; intros H.
  - destruct H as [[[H|H]|H]|H]; subst; auto. right; right; right. now exists m.
  - destruct H as [H|[H|[H|(m' & [= <-] & H)]]]; try injection H as ->; auto.
  - destruct H as [[[H|H]|H]|H]; subst; auto. discriminate.
  - destruct H as [H|[H|[H|(m' & H & _)]]]; try injection H as ->; auto. discriminate.
  - destruct H as [[[H|H]|H]|H]; try discriminate. right; right; right. now exists m.
  - destruct H as [H|[H|[H|(m' & [= <-] & H)]]]; try discriminate; auto.
  - destruct H as [[[H|H]|H]|H]; discriminate.
  - destruct H as [H|[H|[H|(m' & H & _)]]]; discriminate.
Qed.

(** [C10] [withRetry(fn)] with its default arguments, for every operation
    [fn] and every world it runs in.  The calls made are successive calls of
    [fn], at most 4 of them.  Every call but the last threw an error with
    status 503, 500 or 429 or with a message that includes "unavailable"; the
    waits before the retries are 1000, 2000 and 4000 ms, in that order, one
    per retry.  The promise settles as the last call did: with its value, or
    with the error it threw, unchanged; and it settles with an error only
    when that error is not retryable or the four calls are used up. *)
Theorem withRetry_default_bounded {W T : Type} (fn : W -> (T + thrown) * W) (w : W) :
  let '(final, log, w') := withRetry_default fn w in
  exists before : list (T + thrown),
    calls log = before ++ [final]
    /\ (length (calls log) <= 4)%nat
    /\ successive fn (length (calls log)) w = (calls log, w')
    /\ Forall (fun o =>
                 exists e, o = inr e
                   /\ (error_status e = Some 503 \/ error_status e = Some 500
                       \/ error_status e = Some 429
                       \/ exists m, error_message e = Some m
                                    /\ includes m "unavailable" = true))
         before
    /\ delays log = take (length before) [1000; 2000; 4000]
    /\ match final with
       | inl _ => True
       | inr e => shouldRetry e = false \/ length (calls log) = 4%nat
       end.
Proof.
  unfold withRetry_default.
  pose proof (withRetry_trace fn 3 1000 w) as H.
  destruct (withRetry fn 3 1000 w) as [[final log] w'].
  destruct H as (before & Hcalls & Hlen & Hsucc & Hall & Hdelays & Hfinal).
  exists before. rewrite Hcalls, length_app. cbn [length].
  replace (length before + 1)%nat with (Datatypes.S (length before)) by lia.
  split; [reflexivity|]. split; [lia|]. split; [exact Hsucc|].
  split; [|split].
  - eapply Forall_impl; [exact Hall|].
    intros o (e & -> & He). exists e. split; [reflexivity|]. now apply shouldRetry_iff.
  - rewrite Hdelays.
    destruct before as [|o1 [|o2 [|o3 [|o4 rest]]]]; cbn in Hlen |- *;
      reflexivity || lia.
  - destruct final as [v|e]; [exact I|].
    destruct Hfinal as [H|H]; [now left|right; now rewrite H].
Qed.

Example withRetry_recovers :
  withRetry_default (down_for 2) 0%nat =
  (inl "ok"%string,
   [called (inr (error_object (Some 503) (Some "The model is overloaded"%string)));
    console_warn 3 (Some "The model is overloaded"%string); setTimeout 1000;
    called (inr (error_object (Some 503) (Some "The model is overloaded"%string)));
    console_warn 2 (Some "The model is overloaded"%string); setTimeout 2000;
    called (inl "ok"%string)],
   3%nat).
Proof. reflexivity. Qed.

Example withRetry_gives_up :
  let '(final, log, calls_made) := withRetry_default (down_for 9) 0%nat in
  final = inr (error_object (Some 503) (Some "The model is overloaded"%string))
  /\ calls_made = 4%nat
  /\ delays log = [1000; 2000; 4000].
Proof. repeat split. Qed.

Example withRetry_other_error :
  withRetry_default
    (fun n : nat => (inr (error_object (Some 400) (Some "Unavailable"%string)) : string + thrown,
                     Datatypes.S n)) 0%nat
  = (inr (error_object (Some 400) (Some "Unavailable"%string)),
     [called (inr (error_object (Some 400) (Some "Unavailable"%string)))], 1%nat).
Proof. reflexivity. Qed.


(* ================================================================== *)
(** * LiveVoice.tsx: more on the codec                                 *)
(* ================================================================== *)

(** [X1] [decode] gives one byte per character of what [atob] returns, throws what
    [atob] throws, and undoes [btoa] on every byte sequence. *)
Theorem decode_inverts_btoa (bytes : list byte) (text : string) :
  decode (btoa (string_of_list_byte bytes)) = Ok bytes
  /\ decode text = base64_bytes text
  /\ (forall out, decode text = Ok out ->
        exists binary, atob text = Ok binary /\ length out = String.length binary)
  /\ (forall e, decode text = Throw e -> atob text = Throw e).
Proof.
  rewrite !decode_bytes. unfold base64_bytes. rewrite atob_btoa. cbn [bind].
  rewrite list_byte_of_string_of_list_byte.
  split; [reflexivity|]. split; [reflexivity|].
  destruct (atob text) as [binary|e]; cbn [bind]; split.
  - intros out [= <-]. exists binary. split; [reflexivity|apply length_list_byte].
  - discriminate.
  - discriminate.
  - now intros e' [= <-].
Qed.

(** ** [decodeAudioData] in general *)

Lemma floor_le_ceiling (n p : Z) : 0 <= n -> 0 < p -> n / p <= - (- n / p).
Proof.
  intros Hn Hp.
  pose proof (Z.div_mod n p ltac:(lia)) as H1.
  pose proof (Z.div_mod (- n) p ltac:(lia)) as H2.
  pose proof (Z.mod_pos_bound n p ltac:(lia)) as H3.
  pose proof (Z.mod_pos_bound (- n) p ltac:(lia)) as H4.
  set (q := n / p) in *. set (q' := - n / p) in *.
  assert (p * (q + q') <= 0) by lia.
  assert (~ 0 < q + q')
    by (intro; assert (0 < p * (q + q')) by (apply Z.mul_pos_pos; lia); lia).
  lia.
Qed.

(** The frame count [dataInt16.length / numChannels] as [createBuffer] and
    the loop bound see it. *)
Lemma quotient_frames (n numChannels : nat) :
  (1 <= numChannels)%nat ->
  ToUint32 (quotient (Z.of_nat n) (Z.of_nat numChannels))
    = Z.of_nat (n / numChannels) mod 4294967296
  /\ (n / numChannels <= trips_below (quotient (Z.of_nat n) (Z.of_nat numChannels)))%nat.
Proof.
  intros Hc. unfold quotient.
  destruct (Z.of_nat numChannels) as [|p|p] eqn:Ep; try lia.
  cbn [Z.eqb]. unfold ToUint32, trips_below, truncate, Qceiling, Qfloor, Qdiv, Qinv,
    Qmult, Qopp, inject_Z.
  cbn [Qnum Qden Pos.mul]. rewrite Z.mul_1_r.
  assert (Hdiv : Z.of_nat (n / numChannels) = Z.of_nat n / Z.pos p)
    by (rewrite Nat2Z.inj_div, Ep; reflexivity).
  split.
  - rewrite Z.quot_div_nonneg by lia. now rewrite Hdiv.
  - apply Nat2Z.inj_le. rewrite Hdiv.
    assert (0 <= Z.of_nat n / Z.pos p) by (apply Z.div_pos; lia).
    assert (Z.of_nat n / Z.pos p <= - (- Z.of_nat n / Z.pos p))
      by (apply floor_le_ceiling; lia).
    rewrite ?Pos.mul_1_l. lia.
Qed.

(** Stores past the end of a typed array change nothing. *)
Lemma for_loop_past_end {A : Type} (f : nat -> A) (count : nat) :
  forall (start : nat) (a : list A),
    (length a <= start)%nat ->
    for_loop count start (fun i a => <[i := f i]> a) a = a.
Proof.
  induction count as [|count IH]; intros start a Hlen; [reflexivity|].
  cbn [for_loop]. rewrite list_insert_ge by lia. apply IH. lia.
Qed.

Lemma for_loop_fill_over {A : Type} (f : nat -> A) (a : list A) (count : nat) :
  (length a <= count)%nat ->
  for_loop count 0 (fun i a => <[i := f i]> a) a = map f (seq 0 (length a)).
Proof.
  intros Hlen. replace count with (length a + (count - length a))%nat by lia.
  rewrite for_loop_split, for_loop_fill_all. cbn [Nat.add].
  apply for_loop_past_end. now rewrite length_map, length_seq.
Qed.

(** The inner loop of [decodeAudioData] writes one channel in place. *)
Lemma set_sample_channel (rate : Z) (c : nat) (f : nat -> number) (count : nat) :
  forall (start : nat) (chs : list (list number)) (chData : list number),
    chs !! c = Some chData ->
    for_loop count start (fun i buffer => set_sample buffer c i (f i))
      {| sampleRate := rate; channels := chs |}
    = {| sampleRate := rate;
         channels := <[c := for_loop count start (fun i a => <[i := f i]> a) chData]> chs |}.
Proof.
  induction count as [|count IH]; intros start chs chData Hc.
  - cbn [for_loop]. now rewrite list_insert_id.
  - cbn [for_loop]. unfold set_sample at 2. cbn [channels sampleRate]. rewrite Hc.
    rewrite (IH _ _ (<[start := f start]> chData)).
    + now rewrite list_insert_insert_eq.
    + apply list_lookup_insert_eq. now apply lookup_lt_Some in Hc.
Qed.

(** Two loops that keep a relation between their states. *)
Lemma for_loop_sim {S T : Type} (R : S -> T -> Prop)
  (body1 : nat -> S -> S) (body2 : nat -> T -> T) (count : nat) :
  forall (start : nat) (s : S) (t : T),
    R s t ->
    (forall i s' t', (start <= i < start + count)%nat ->
                     R s' t' -> R (body1 i s') (body2 i t')) ->
    R (for_loop count start body1 s) (for_loop count start body2 t).
Proof.
  induction count as [|count IH]; intros start s t HR Hstep; [exact HR|].
  cbn [for_loop]. apply IH.
  - apply Hstep; [lia|exact HR].
  - intros i s' t' Hi. apply Hstep. lia.
Qed.

(** The two nested loops of [decodeAudioData] on a fresh buffer. *)
Lemma decodeAudioData_loops (rate : Z) (dataInt16 : list Z) (numChannels frames trips : nat) :
  (frames <= trips)%nat ->
  (frames * numChannels <= length dataInt16)%nat ->
  for_loop numChannels 0
    (fun c buffer =>
       for_loop trips 0
         (fun i buffer =>
            set_sample buffer c i
              (element_over (dataInt16 !! (i * numChannels + c)%nat) 32768))
         buffer)
    {| sampleRate := rate;
       channels := replicate numChannels (replicate frames (Finite 0)) |}
  = {| sampleRate := rate; channels := deinterleaved dataInt16 numChannels frames |}.
Proof.
  intros Htrips Hdata.
  set (f := fun c i => element_over (dataInt16 !! (i * numChannels + c)%nat) 32768).
  set (g := fun c => map (f c) (seq 0 frames)).
  set (R := fun (b : AudioBuffer) (l : list (list number)) =>
              b = {| sampleRate := rate; channels := l |}
              /\ length l = numChannels
              /\ Forall (fun ch => length ch = frames) l).
  assert (Hsim : R (for_loop numChannels 0
                      (fun c buffer =>
                         for_loop trips 0 (fun i buffer => set_sample buffer c i (f c i))
                           buffer)
                      {| sampleRate := rate;
                         channels := replicate numChannels (replicate frames (Finite 0)) |})
                   (for_loop numChannels 0 (fun c l => <[c := g c]> l)
                      (replicate numChannels (replicate frames (Finite 0))))).
  { apply for_loop_sim.
    - split; [reflexivity|]. split; [apply length_replicate|].
      apply Forall_replicate. apply length_replicate.
    - intros c b l Hc (-> & Hlen & Hall).
      destruct (lookup_lt_is_Some_2 l c ltac:(lia)) as [ch Hch].
      assert (Hk : length ch = frames)
        by (rewrite Forall_lookup in Hall; exact (Hall c ch Hch)).
      rewrite (set_sample_channel rate c (f c) trips 0 l ch Hch).
      rewrite for_loop_fill_over by lia. rewrite Hk. fold (g c).
      split; [reflexivity|]. split; [now rewrite length_insert|].
      apply Forall_insert; [exact Hall|]. unfold g. now rewrite length_map, length_seq. }
  destruct Hsim as (Hb & _ & _). etransitivity; [exact Hb|]. f_equal.
  pose proof (for_loop_fill_all g (replicate numChannels (replicate frames (Finite 0))))
    as Hfill.
  rewrite length_replicate in Hfill. rewrite Hfill.
  unfold deinterleaved. apply map_ext_in. intros c Hc. apply in_seq in Hc.
  unfold g. apply map_ext_in. intros i Hi. apply in_seq in Hi.
  unfold f.
  destruct (lookup_lt_is_Some_2 dataInt16 (i * numChannels + c)) as [v Hv]; [nia|].
  rewrite Hv. cbn [element_over]. do 2 f_equal.
  symmetry. apply nth_lookup_Some with (d := 0) in Hv. exact Hv.
Qed.

Lemma decodeAudioData_value (bytes : list byte) (rate : Z) (numChannels : nat) :
  Nat.even (length bytes) = true ->
  (1 <= numChannels <= 32)%nat ->
  (numChannels <= length (int16_pairs bytes))%nat ->
  Z.of_nat (length bytes) < 4294967296 ->
  8000 <= rate <= 96000 ->
  let frameCount := (length (int16_pairs bytes) / numChannels)%nat in
  let buffer :=
    {| sampleRate := rate;
       channels := deinterleaved (int16_pairs bytes) numChannels frameCount |} in
  decodeAudioData bytes rate numChannels = Ok buffer
  /\ length (channels buffer) = numChannels
  /\ frames buffer = frameCount
  /\ (duration buffer == Z.of_nat frameCount # Z.to_pos rate)%Q.
Proof.
  intros Heven Hc Hn Hmax Hrate. cbv zeta.
  pose proof (length_int16_pairs bytes Heven) as Hlen.
  set (dataInt16 := int16_pairs bytes) in *.
  set (k := (length dataInt16 / numChannels)%nat).
  assert (Hk : (1 <= k)%nat).
  { unfold k. apply Nat.div_le_lower_bound; lia. }
  assert (Hkn : (k * numChannels <= length dataInt16)%nat).
  { unfold k. rewrite Nat.mul_comm. apply Nat.Div0.mul_div_le. }
  destruct (quotient_frames (length dataInt16) numChannels ltac:(lia)) as [Hu Htrips].
  fold k in Hu, Htrips.
  split; [|split; [|split]].
  - unfold decodeAudioData, Int16Array_of_buffer. rewrite Heven. cbn [bind].
    fold dataInt16. unfold createBuffer. rewrite Hu.
    rewrite Z.mod_small by nia.
    replace (1 <=? numChannels)%nat with true by (symmetry; apply Nat.leb_le; lia).
    replace (numChannels <=? 32)%nat with true by (symmetry; apply Nat.leb_le; lia).
    replace (1 <=? Z.of_nat k) with true by (symmetry; apply Z.leb_le; lia).
    replace (8000 <=? rate) with true by (symmetry; apply Z.leb_le; lia).
    replace (rate <=? 96000) with true by (symmetry; apply Z.leb_le; lia).
    cbn [andb bind]. rewrite Nat2Z.id. f_equal.
    now apply decodeAudioData_loops.
  - cbn [channels]. unfold deinterleaved. now rewrite length_map, length_seq.
  - unfold frames, deinterleaved. cbn [channels].
    destruct numChannels as [|n]; [lia|].
    cbn [seq map]. now rewrite length_map, length_seq.
  - unfold duration. cbn [sampleRate].
    replace (frames _) with k.
    + unfold Qeq, Qdiv, Qmult, Qinv, inject_Z. cbn [Qnum Qden].
      destruct rate as [|r|r]; try lia. cbn [Qnum Qden Z.to_pos]. lia.
    + unfold frames, deinterleaved. cbn [channels].
      destruct numChannels as [|n]; [lia|].
      cbn [seq map]. now rewrite length_map, length_seq.
Qed.

(** [X2] [decodeAudioData] de-interleaves.  For an even number of bytes, holding
    at least one 16-bit value per channel: channel [c] of the result holds
    the values at positions [c], [c + numChannels], [c + 2 numChannels], ...,
    each divided by 32768; the number of frames is the number of values
    divided by the number of channels, rounded down, so the values of an
    incomplete last frame are dropped; the duration is that number of frames
    over the sample rate. *)
Theorem decodeAudioData_deinterleaves (bytes : list byte) (rate : Z) (numChannels : nat) :
  Nat.even (length bytes) = true ->
  (1 <= numChannels <= 32)%nat ->
  (numChannels <= length (int16_pairs bytes))%nat ->
  Z.of_nat (length bytes) < 4294967296 ->
  8000 <= rate <= 96000 ->
  let frameCount := (length (int16_pairs bytes) / numChannels)%nat in
  let buffer :=
    {| sampleRate := rate;
       channels := deinterleaved (int16_pairs bytes) numChannels frameCount |} in
  decodeAudioData bytes rate numChannels = Ok buffer
  /\ length (channels buffer) = numChannels
  /\ frames buffer = frameCount
  /\ (duration buffer == Z.of_nat frameCount # Z.to_pos rate)%Q.
Proof. exact (decodeAudioData_value bytes rate numChannels). Qed.

Lemma decodeAudioData_deinterleaves_witness :
  decodeAudioData [x01; x00; x02; x00; x03; x00; x04; x00; x05; x00] 24000 2
  = Ok {| sampleRate := 24000;
          channels := [[Finite (1 # 32768); Finite (3 # 32768)];
                       [Finite (2 # 32768); Finite (4 # 32768)]] |}.
Proof.
  apply (decodeAudioData_deinterleaves [x01; x00; x02; x00; x03; x00; x04; x00; x05; x00]
           24000 2); cbn; (reflexivity || lia).
Defined.

Lemma decodeAudioData_throws (bytes : list byte) (rate : Z) (numChannels : nat) :
  (Nat.even (length bytes) = false ->
   decodeAudioData bytes rate numChannels = Throw RangeError)
  /\ (Nat.even (length bytes) = true ->
      numChannels = 0%nat \/ (length bytes / 2 < numChannels)%nat ->
      decodeAudioData bytes rate numChannels = Throw NotSupportedError).
Proof.
  split; [apply decodeAudioData_odd|].
  intros Heven Hbad.
  pose proof (length_int16_pairs bytes Heven) as Hlen.
  unfold decodeAudioData, Int16Array_of_buffer. rewrite Heven. cbn [bind].
  set (dataInt16 := int16_pairs bytes) in *.
  enough (E : createBuffer numChannels
                (quotient (Z.of_nat (length dataInt16)) (Z.of_nat numChannels)) rate
              = Throw NotSupportedError) by now rewrite E.
  unfold createBuffer.
  destruct (1 <=? numChannels)%nat eqn:E1; [|reflexivity].
  destruct (numChannels <=? 32)%nat eqn:E2; [|reflexivity].
  destruct (8000 <=? rate) eqn:E4; [|now rewrite !andb_false_r].
  destruct (rate <=? 96000) eqn:E5; [|now rewrite !andb_false_r].
  apply Nat.leb_le in E1, E2. apply Z.leb_le in E4, E5.
  destruct Hbad as [H|H]; try lia.
  destruct (quotient_frames (length dataInt16) numChannels E1) as [Hu _].
  assert (Hhalf : (length bytes / 2)%nat = length dataInt16).
  { rewrite <- Hlen. rewrite Nat.mul_comm. apply Nat.div_mul. lia. }
  rewrite Hu. rewrite Nat.div_small by lia. reflexivity.
Qed.

(** [X3] When [decodeAudioData] throws, on every implementation: a RangeError
    for an odd number of bytes, whatever the other arguments; a
    NotSupportedError for no channel and for fewer 16-bit values than
    channels (the empty payload among them), where the frame count is zero.
    (Which channel counts and sample rates beyond the ones every
    implementation accepts are rejected is left to the implementation.) *)
Theorem decodeAudioData_rejects (bytes : list byte) (rate : Z) (numChannels : nat) :
  (Nat.even (length bytes) = false ->
   decodeAudioData bytes rate numChannels = Throw RangeError)
  /\ (Nat.even (length bytes) = true ->
      numChannels = 0%nat \/ (length bytes / 2 < numChannels)%nat ->
      decodeAudioData bytes rate numChannels = Throw NotSupportedError).
Proof. exact (decodeAudioData_throws bytes rate numChannels). Qed.

Lemma decodeAudioData_rejects_witness :
  decodeAudioData [x01; x00; x02] 24000 1 = Throw RangeError
  /\ decodeAudioData [] 24000 1 = Throw NotSupportedError
  /\ decodeAudioData [x01; x00] 24000 2 = Throw NotSupportedError.
Proof.
  split; [|split].
  - apply (decodeAudioData_rejects [x01; x00; x02] 24000 1). reflexivity.
  - apply (decodeAudioData_rejects [] 24000 1); [reflexivity|].
    right. cbn. lia.
  - apply (decodeAudioData_rejects [x01; x00] 24000 2); [reflexivity|].
    right. cbn. lia.
Defined.

Lemma int16_pairs_range (bytes : list byte) :
  Forall (fun v => -32768 <= v <= 32767) (int16_pairs bytes).
Proof.
  enough (H : forall n (bs : list byte), (length bs <= n)%nat ->
              Forall (fun v => -32768 <= v <= 32767) (int16_pairs bs))
    by (apply (H (length bytes)); lia).
  clear bytes. induction n as [|n IH]; intros bs Hn.
  - destruct bs; [constructor|cbn in Hn; lia].
  - destruct bs as [|lo [|hi rest]]; try constructor.
    + apply wrap16_range.
    + apply IH. cbn in Hn. lia.
Qed.

Lemma deinterleaved_range (dataInt16 : list Z) (numChannels frames : nat) :
  Forall (fun v => -32768 <= v <= 32767) dataInt16 ->
  Forall (Forall unit_sample) (deinterleaved dataInt16 numChannels frames).
Proof.
  intros Hd. unfold deinterleaved.
  apply Forall_forall. intros ch Hch. apply list_elem_of_In, in_map_iff in Hch.
  destruct Hch as (c & <- & _).
  apply Forall_forall. intros y Hy. apply list_elem_of_In, in_map_iff in Hy.
  destruct Hy as (i & <- & _).
  assert (Hv : -32768 <= nth (i * numChannels + c) dataInt16 0 <= 32767).
  { destruct (nth_in_or_default (i * numChannels + c) dataInt16 0) as [Hin| ->]; [|lia].
    rewrite Forall_forall in Hd. apply Hd. now apply list_elem_of_In. }
  eexists. split; [reflexivity|]. unfold Qle, Qlt. cbn [Qnum Qden]. lia.
Qed.

(** [X4] With a channel count and a sample rate that every implementation
    accepts (1 to 32 channels, 8000 to 96000 Hz): whatever [decodeAudioData]
    returns holds only finite samples in [-1, 1), in as many channels as
    asked for, at the rate asked for, and has at least one frame. *)
Theorem decodeAudioData_samples_in_range
  (bytes : list byte) (rate : Z) (numChannels : nat) (buffer : AudioBuffer) :
  (1 <= numChannels <= 32)%nat ->
  8000 <= rate <= 96000 ->
  Z.of_nat (length bytes) < 4294967296 ->
  decodeAudioData bytes rate numChannels = Ok buffer ->
  Forall (Forall unit_sample) (channels buffer)
  /\ length (channels buffer) = numChannels
  /\ (1 <= frames buffer)%nat
  /\ sampleRate buffer = rate.
Proof.
  intros Hc Hrate Hmax Hok.
  destruct (Nat.even (length bytes)) eqn:Heven;
    [|rewrite (decodeAudioData_odd _ _ _ Heven) in Hok; discriminate].
  pose proof (length_int16_pairs bytes Heven) as Hlen.
  assert (Hn : (numChannels <= length (int16_pairs bytes))%nat).
  { destruct (decodeAudioData_throws bytes rate numChannels) as [_ Hrej].
    specialize (Hrej Heven).
    assert (Hhalf : (length bytes / 2)%nat = length (int16_pairs bytes)).
    { rewrite <- Hlen. rewrite Nat.mul_comm. apply Nat.div_mul. lia. }
    rewrite Hhalf in Hrej.
    apply Decidable.not_not; [unfold Decidable.decidable; lia|].
    intro Hlt. rewrite Hrej in Hok by lia. discriminate. }
  destruct (decodeAudioData_value bytes rate numChannels Heven Hc Hn Hmax Hrate)
    as (E & Hch & Hfr & _).
  rewrite E in Hok. injection Hok as <-.
  split; [apply deinterleaved_range, int16_pairs_range|].
  split; [exact Hch|]. split; [|reflexivity].
  rewrite Hfr. apply Nat.div_le_lower_bound; lia.
Qed.

Lemma decodeAudioData_samples_in_range_witness :
  Forall (Forall unit_sample)
    [[Finite (-32768 # 32768); Finite (32767 # 32768)]]
  /\ length [[Finite (-32768 # 32768); Finite (32767 # 32768)]] = 1%nat
  /\ (1 <= 2)%nat
  /\ 24000 = 24000.
Proof.
  apply (decodeAudioData_samples_in_range [x00; x80; xff; x7f] 24000 1
           {| sampleRate := 24000;
              channels := [[Finite (-32768 # 32768); Finite (32767 # 32768)]] |}).
  - lia.
  - lia.
  - cbn. lia.
  - vm_compute. reflexivity.
Defined.

(* ================================================================== *)
(** * LiveVoice.tsx: more on the session                               *)
(* ================================================================== *)

(** ** No two segments overlap *)

Lemma at_most_weaken (c c' : Q) (a : number) :
  (c <= c')%Q -> at_most (Finite c') a -> at_most (Finite c) a.
Proof.
  intros Hc. destruct a as [q| |sign]; cbn [at_most]; auto.
  intros H. eapply Qle_trans; eassumption.
Qed.

(** Nothing is scheduled before the cursor. *)
Lemma playback64_after_cursor (evs : list event) :
  forall c : Q,
    binary64 c -> Forall binary64 (readings evs) ->
    Forall (fun s => at_most (Finite c) (at_start s)) (playback64 evs (Finite c)).
Proof.
  induction evs as [|ev evs IH]; intros c Hc Hr; [constructor|].
  apply Forall_readings in Hr. destruct Hr as [Ht Hr].
  destruct ev as [|inputData|t msg| |err]; cbn [playback64]; try (now apply IH).
  destruct (handle_audio_output64_step t c msg Hc Ht)
    as [->|[->|(b & d & -> & Hadd & Hbin & Hle)]]; cbn [map app].
  - now apply IH.
  - eapply Forall_impl; [apply IH; [now apply binary64_Qmax|exact Hr]|].
    intros s. apply at_most_weaken, Q.le_max_l.
  - constructor; [cbn [at_start fst at_most]; apply Q.le_max_l|].
    eapply Forall_impl; [apply IH; [exact Hbin|exact Hr]|].
    intros s. apply at_most_weaken.
    eapply Qle_trans; [apply Q.le_max_l|exact Hle].
Qed.

(** [X5] Over any sequence of session callbacks, from any non-negative
    binary64 value of the cursor, whatever the (non-negative binary64) clock
    readings are, in any order: a segment never starts before the end of an
    earlier one, adjacent or not, where the end is [start + duration] as
    binary64 addition rounds it.  (Against the exact sum the start can fall
    short by the rounding error.) *)
Theorem playback_never_overlaps (evs : list event) (cursor : Q) :
  binary64 cursor ->
  Forall binary64 (readings evs) ->
  disjoint_in_order (playback64 evs (Finite cursor)).
Proof.
  revert cursor. induction evs as [|ev evs IH]; intros c Hc Hr; [exact I|].
  apply Forall_readings in Hr. destruct Hr as [Ht Hr].
  destruct ev as [|inputData|t msg| |err]; cbn [playback64]; try (now apply IH).
  destruct (handle_audio_output64_step t c msg Hc Ht)
    as [->|[->|(b & d & -> & Hadd & Hbin & Hle)]]; cbn [map app].
  - now apply IH.
  - apply IH; [now apply binary64_Qmax|exact Hr].
  - cbn [disjoint_in_order]. split; [|now apply IH].
    unfold end64 at 1. cbn [at_start scheduled_buffer fst snd]. rewrite Hadd.
    now apply playback64_after_cursor.
Qed.

Lemma playback_never_overlaps_witness :
  binary64 0
  /\ Forall binary64 (readings sample_run64)
  /\ disjoint_in_order (playback64 sample_run64 (Finite 0)).
Proof.
  assert (H0 : binary64 0) by (apply is_binary64_binary64; vm_compute; reflexivity).
  assert (H1 : Forall binary64 (readings sample_run64)).
  { cbn [readings sample_run64 flat_map app].
    repeat (constructor; [apply is_binary64_binary64; vm_compute; reflexivity|]).
    constructor. }
  split; [exact H0|]. split; [exact H1|].
  exact (playback_never_overlaps sample_run64 0 H0 H1).
Defined.

(** ** The transcript over a session *)

Lemma onmessage_appends (currentTime : Q) (msg : LiveServerMessage) (st : State) :
  transcription (next (onmessage currentTime msg st))
  = String.append (transcription st) (fragment msg).
Proof.
  unfold onmessage.
  pose proof (handle_audio_output_cases currentTime msg
                (handle_text_transcription msg st)) as H.
  cbv zeta in H. rewrite handle_text_transcription_appends in *.
  destruct H as [(_ & _ & ->)|[(_ & _ & _ & ->)|(_ & _ & b & _ & _ & ->)]];
    reflexivity.
Qed.

Lemma handle_transcription (ev : event) (st : State) :
  transcription (snd (handle ev st))
  = String.append (transcription st) (fragments [ev]).
Proof.
  destruct ev as [|inputData|currentTime msg| |e]; cbn [fragments];
    try (cbn; now rewrite append_empty).
  cbn [handle snd]. rewrite append_empty. apply onmessage_appends.
Qed.

(** [X6] Over any sequence of session callbacks the transcript only grows, at its
    end, by the fragments of the messages in arrival order; callbacks other
    than [onmessage] leave it alone. *)
Theorem transcript_accumulates (evs : list event) (st : State) :
  transcription (snd (run evs st))
  = String.append (transcription st) (fragments evs).
Proof.
  revert st. induction evs as [|ev evs IH]; intros st.
  - cbn. now rewrite append_empty.
  - rewrite run_cons. cbn [snd]. rewrite IH, handle_transcription.
    rewrite append_assoc. f_equal.
    destruct ev; cbn [fragments]; try reflexivity. now rewrite append_empty.
Qed.

(** ** Resources over a session *)

Lemma handle_keeps_resources (ev : event) (st : State) :
  Forall (fun e => releases e = false) (fst (handle ev st))
  /\ mediaStreamRef (snd (handle ev st)) = mediaStreamRef st
  /\ audioContextRef (snd (handle ev st)) = audioContextRef st
  /\ sessionRef (snd (handle ev st)) = sessionRef st
  /\ instruction (snd (handle ev st)) = instruction st.
Proof.
  destruct ev as [|inputData|currentTime msg| |e];
    try solve [cbn; repeat split; repeat constructor].
  cbn [handle]. cbv zeta. cbn [fst snd]. unfold onmessage.
  pose proof (handle_audio_output_cases currentTime msg
                (handle_text_transcription msg st)) as H.
  cbv zeta in H. rewrite handle_text_transcription_appends in *.
  destruct H as [(_ & -> & ->)|[(_ & _ & -> & ->)|(_ & _ & b & _ & -> & ->)]];
    repeat split; repeat constructor.
Qed.

Lemma run_keeps_resources (evs : list event) (st : State) :
  Forall (fun e => releases e = false) (fst (run evs st))
  /\ mediaStreamRef (snd (run evs st)) = mediaStreamRef st
  /\ audioContextRef (snd (run evs st)) = audioContextRef st
  /\ sessionRef (snd (run evs st)) = sessionRef st
  /\ instruction (snd (run evs st)) = instruction st.
Proof.
  revert st. induction evs as [|ev evs IH]; intros st.
  - cbn. repeat split. constructor.
  - rewrite run_cons. cbn [fst snd].
    destruct (handle_keeps_resources ev st) as (H0 & H1 & H2 & H3 & H4).
    destruct (IH (snd (handle ev st))) as (I0 & I1 & I2 & I3 & I4).
    rewrite I1, I2, I3, I4, H1, H2, H3, H4. repeat split.
    apply Forall_app. now split.
Qed.

(** [X7] The session callbacks ([onopen], [onaudioprocess], [onmessage],
    [onclose], [onerror]) never stop a media track and never close an audio
    context, and leave the refs to the stream, the output context and the
    session as they are: after the remote end closes or fails, the microphone
    is still held until [disconnect] runs. *)
Theorem callbacks_never_release (evs : list event) (st : State) :
  Forall (fun e => releases e = false) (fst (run evs st))
  /\ mediaStreamRef (snd (run evs st)) = mediaStreamRef st
  /\ audioContextRef (snd (run evs st)) = audioContextRef st
  /\ sessionRef (snd (run evs st)) = sessionRef st
  /\ instruction (snd (run evs st)) = instruction st.
Proof. exact (run_keeps_resources evs st). Qed.

(** [X8] A session from [connect] to [disconnect]: with a key and a granted
    microphone, whatever callbacks run in between, [disconnect] stops exactly
    the tracks of the stream [connect] obtained, in order, closes the output
    context [connect] created, and reloads.  The input context (16 kHz) that
    [connect] also created is never closed. *)
Theorem session_releases_what_it_acquired
  (env : Environment) (stream : list nat) (evs : list event) (st : State) :
  truthy (VITE_API_KEY env) = true \/ truthy (window_API_KEY env) = true ->
  microphone env = Ok stream ->
  let opened := connect env st in
  let ran := run evs (snd opened) in
  let closed := disconnect (snd ran) in
  fst closed = map track_stop stream
               ++ [context_close {| contextRate := 24000 |}; location_reload]
  /\ In (new_AudioContext 16000) (fst opened)
  /\ ~ In (context_close {| contextRate := 16000 |})
         (fst opened ++ fst ran ++ fst closed).
Proof.
  intros Hkey Hmic. cbv zeta.
  destruct (run_keeps_resources evs (snd (connect env st))) as (Hrel & Hm & Ha & _).
  assert (Hconn : fst (connect env st)
                  = [new_GoogleGenAI (apiKey env); new_AudioContext 16000;
                     new_AudioContext 24000; createGain; getUserMedia;
                     live_connect "gemini-2.5-flash-native-audio-preview-09-2025"
                       (instruction st)]
                  /\ mediaStreamRef (snd (connect env st)) = Some stream
                  /\ audioContextRef (snd (connect env st))
                     = Some {| contextRate := 24000 |}).
  { unfold connect. rewrite (apiKey_present env Hkey), Hmic. cbn. now repeat split. }
  destruct Hconn as (Heff & Hms & Hac).
  assert (Hclosed : fst (disconnect (snd (run evs (snd (connect env st)))))
                    = map track_stop stream
                      ++ [context_close {| contextRate := 24000 |}; location_reload]).
  { unfold disconnect. rewrite Hm, Ha, Hms, Hac. reflexivity. }
  split; [exact Hclosed|]. split; [rewrite Heff; cbn; tauto|].
  rewrite Hclosed, Heff. intros Hin.
  rewrite !in_app_iff in Hin. destruct Hin as [Hin|[Hin|[Hin|Hin]]].
  - cbn in Hin. intuition discriminate.
  - rewrite Forall_forall in Hrel. apply list_elem_of_In, Hrel in Hin. discriminate.
  - apply in_map_iff in Hin. destruct Hin as (t & Ht & _). discriminate.
  - cbn in Hin. intuition discriminate.
Qed.

Lemma session_releases_what_it_acquired_witness :
  let env := {| VITE_API_KEY := Some "X"%string; window_API_KEY := None;
                microphone := Ok [7%nat; 8%nat] |} in
  let opened := connect env initial in
  let ran := run sample_run (snd opened) in
  let closed := disconnect (snd ran) in
  fst closed = map track_stop [7%nat; 8%nat]
               ++ [context_close {| contextRate := 24000 |}; location_reload]
  /\ In (new_AudioContext 16000) (fst opened)
  /\ ~ In (context_close {| contextRate := 16000 |})
         (fst opened ++ fst ran ++ fst closed).
Proof.
  apply (session_releases_what_it_acquired
           {| VITE_API_KEY := Some "X"%string; window_API_KEY := None;
              microphone := Ok [7%nat; 8%nat] |} [7%nat; 8%nat] sample_run initial).
  - left. reflexivity.
  - reflexivity.
Defined.

(** ** [connect] with a credential *)

(** [X9] When the microphone request is refused (after a key was found):
    [connect] has created the client, both audio contexts and the gain node,
    logs the failure, and reports "Failed to connect" with the component
    inactive.  No remote session is opened and no stream is recorded; the
    output context stays in its ref, and neither context is closed. *)
Theorem connect_microphone_denied (env : Environment) (st : State) (e : exn) :
  truthy (VITE_API_KEY env) = true \/ truthy (window_API_KEY env) = true ->
  microphone env = Throw e ->
  fst (connect env st)
  = [new_GoogleGenAI (apiKey env); new_AudioContext 16000; new_AudioContext 24000;
     createGain; getUserMedia; console_error "Connection failed"]
  /\ status (snd (connect env st)) = "Failed to connect"%string
  /\ active (snd (connect env st)) = false
  /\ mediaStreamRef (snd (connect env st)) = mediaStreamRef st
  /\ sessionRef (snd (connect env st)) = sessionRef st
  /\ audioContextRef (snd (connect env st)) = Some {| contextRate := 24000 |}
  /\ Forall (fun eff => releases eff = false) (fst (connect env st)).
Proof.
  intros Hkey Hmic. unfold connect. rewrite (apiKey_present env Hkey), Hmic.
  cbn. repeat split. repeat constructor.
Qed.

Lemma connect_microphone_denied_witness :
  let env := {| VITE_API_KEY := None; window_API_KEY := Some "K"%string;
                microphone := Throw NotAllowedError |} in
  fst (connect env initial)
  = [new_GoogleGenAI "K"; new_AudioContext 16000; new_AudioContext 24000;
     createGain; getUserMedia; console_error "Connection failed"]
  /\ status (snd (connect env initial)) = "Failed to connect"%string
  /\ active (snd (connect env initial)) = false
  /\ mediaStreamRef (snd (connect env initial)) = None
  /\ sessionRef (snd (connect env initial)) = false
  /\ audioContextRef (snd (connect env initial)) = Some {| contextRate := 24000 |}
  /\ Forall (fun eff => releases eff = false) (fst (connect env initial)).
Proof.
  apply (connect_microphone_denied
           {| VITE_API_KEY := None; window_API_KEY := Some "K"%string;
              microphone := Throw NotAllowedError |} initial NotAllowedError).
  - right. reflexivity.
  - reflexivity.
Defined.

(** [X10] When the microphone is granted: the key passed to the client is
    [VITE_API_KEY] if that is non-empty and [window.API_KEY] otherwise; the
    remote session is opened last, once, with the instruction of the state;
    the stream, the output context and the session are recorded.  The
    component is not active yet and shows "Connecting...": it becomes active,
    "Connected - Listening...", when [onopen] runs. *)
Theorem connect_microphone_granted (env : Environment) (st : State) (stream : list nat) :
  truthy (VITE_API_KEY env) = true \/ truthy (window_API_KEY env) = true ->
  microphone env = Ok stream ->
  let st' := snd (connect env st) in
  fst (connect env st)
  = [new_GoogleGenAI (apiKey env); new_AudioContext 16000; new_AudioContext 24000;
     createGain; getUserMedia;
     live_connect "gemini-2.5-flash-native-audio-preview-09-2025" (instruction st)]
  /\ (truthy (VITE_API_KEY env) = true -> Some (apiKey env) = VITE_API_KEY env)
  /\ (truthy (VITE_API_KEY env) = false -> Some (apiKey env) = window_API_KEY env)
  /\ status st' = "Connecting..."%string
  /\ active st' = active st
  /\ mediaStreamRef st' = Some stream
  /\ audioContextRef st' = Some {| contextRate := 24000 |}
  /\ sessionRef st' = true
  /\ active (snd (onopen st')) = true
  /\ status (snd (onopen st')) = "Connected - Listening..."%string.
Proof.
  intros Hkey Hmic. cbv zeta. unfold connect.
  rewrite (apiKey_present env Hkey), Hmic. cbn.
  repeat split.
  - intros H. unfold apiKey. rewrite H.
    now destruct (VITE_API_KEY env) as [[|c s]|].
  - intros H. unfold apiKey. rewrite H.
    destruct Hkey as [Hk|Hk]; [congruence|]. rewrite Hk.
    now destruct (window_API_KEY env) as [[|c s]|].
Qed.

Lemma connect_microphone_granted_witness :
  let env := {| VITE_API_KEY := Some "V"%string; window_API_KEY := Some "W"%string;
                microphone := Ok [7%nat] |} in
  fst (connect env initial)
  = [new_GoogleGenAI "V"; new_AudioContext 16000; new_AudioContext 24000;
     createGain; getUserMedia;
     live_connect "gemini-2.5-flash-native-audio-preview-09-2025" (instruction initial)].
Proof.
  cbv zeta.
  apply (connect_microphone_granted
           {| VITE_API_KEY := Some "V"%string; window_API_KEY := Some "W"%string;
              microphone := Ok [7%nat] |} initial [7%nat]).
  - left. reflexivity.
  - reflexivity.
Defined.

(** [X11] [connect] never resets the playback cursor or the transcript, whichever
    way it ends.  So in a session started without a reload (after the remote
    end closed the previous one), the new output clock starts from zero but
    the first segment is scheduled at the old cursor if that is ahead, and
    the transcript continues the old one. *)
Theorem connect_keeps_cursor_and_transcript
  (env : Environment) (st : State) (currentTime : Q) (msg : LiveServerMessage)
  (audioBuffer : AudioBuffer) :
  carries_audio msg = true ->
  decoded (payload msg) = Ok audioBuffer ->
  let st' := snd (connect env st) in
  nextStartTimeRef st' = nextStartTimeRef st
  /\ transcription st' = transcription st
  /\ effects (onmessage currentTime msg st')
     = [source_start (Qmax (nextStartTimeRef st) currentTime) audioBuffer]
  /\ transcription (next (onmessage currentTime msg st'))
     = String.append (transcription st) (fragment msg).
Proof.
  intros Hc Hd. cbv zeta.
  assert (Hkeep : nextStartTimeRef (snd (connect env st)) = nextStartTimeRef st
                  /\ transcription (snd (connect env st)) = transcription st).
  { unfold connect. destruct (negb (truthy (Some (apiKey env)))); [now split|].
    destruct (microphone env); now split. }
  destruct Hkeep as [Hcur Htr].
  split; [exact Hcur|]. split; [exact Htr|].
  rewrite onmessage_appends, Htr. split; [|reflexivity].
  unfold onmessage.
  pose proof (handle_audio_output_cases currentTime msg
                (handle_text_transcription msg (snd (connect env st)))) as H.
  cbv zeta in H. rewrite cursor_handle_text_transcription, Hcur in H.
  destruct H as [(Hc' & _)|[(_ & (e & Hd' & _) & _)|(_ & _ & b & Hd' & He & _)]].
  - congruence.
  - congruence.
  - rewrite He. congruence.
Qed.

Lemma connect_keeps_cursor_and_transcript_witness :
  let st := snd (run sample_run initial) in
  let env := {| VITE_API_KEY := Some "X"%string; window_API_KEY := None;
                microphone := Ok [7%nat] |} in
  effects (onmessage 0 (audio_message "AAAAAAAA") (snd (connect env st)))
  = [source_start (Qmax (nextStartTimeRef st) 0)
       {| sampleRate := 24000;
          channels := [[Finite (0 # 32768); Finite (0 # 32768); Finite (0 # 32768)]] |}].
Proof.
  cbv zeta.
  apply (connect_keeps_cursor_and_transcript
           {| VITE_API_KEY := Some "X"%string; window_API_KEY := None;
              microphone := Ok [7%nat] |}
           (snd (run sample_run initial)) 0 (audio_message "AAAAAAAA")).
  - reflexivity.
  - vm_compute. reflexivity.
Defined.

(** ** Capture *)

(** [X12] Capture to send: each captured frame leaves as one chunk, in capture
    order; the component state is untouched; and every chunk sent decodes,
    with [decode], to two bytes per sample of its frame, the 16-bit values of
    the samples. *)
Theorem capture_sends_decodable_chunks (inputFrames : list (list number)) (st : State) :
  run (map AudioProcess inputFrames) st
  = (map (fun frame => sendRealtimeInput (createBlob frame)) inputFrames, st)
  /\ Forall (fun frame =>
               mimeType (createBlob frame) = "audio/pcm;rate=16000"%string
               /\ exists bytes,
                    decode (data (createBlob frame)) = Ok bytes
                    /\ length bytes = (2 * length frame)%nat
                    /\ int16_pairs bytes = map pcm16 frame)
       inputFrames.
Proof.
  split; [apply capture_sends_in_order|].
  apply Forall_forall. intros frame _.
  rewrite decode_createBlob, createBlob_loops. cbn [mimeType].
  split; [reflexivity|]. eexists. split; [reflexivity|].
  rewrite length_Uint8Array_of_buffer, length_map, int16_pairs_view, map_wrap16_pcm16.
  now split.
Qed.

(* ================================================================== *)
(** * gemini.ts: more on the helpers                                   *)
(* ================================================================== *)

(** ** [writeString] *)

Lemma ToUint8_mod (z : Z) : ToUint8 (z mod 256) = ToUint8 z.
Proof. unfold ToUint8. now rewrite Z.mod_mod by lia. Qed.

Lemma setUint8_store (view : list byte) (i : nat) (v : Z) :
  setUint8 view i v
  = if (i + 1 <=? length view)%nat then Ok (<[i := ToUint8 v]> view) else Throw RangeError.
Proof.
  unfold setUint8, set_uint. destruct (i + 1 <=? length view)%nat; [|reflexivity].
  cbn [le_bytes write_bytes]. change (2 ^ (8 * Z.of_nat 1)) with 256.
  now rewrite ToUint8_mod.
Qed.

Lemma charCodeAt_lookup (s : string) (i : nat) :
  charCodeAt s i
  = match list_ascii_of_string s !! i with
    | Some c => Some (Z.of_N (N_of_ascii c))
    | None => None
    end.
Proof. unfold charCodeAt. now rewrite get_list_ascii. Qed.

(** The loop of [writeString], from any point of the string on. *)
Lemma writeString_loop (offset : nat) (s : string) :
  forall (todo done : list ascii) (view : list byte),
    list_ascii_of_string s = done ++ todo ->
    for_loop (length todo) (length done)
      (fun i acc =>
         try view := acc in
         match charCodeAt s i with
         | Some code => setUint8 view (offset + i) code
         | None => setUint8 view (offset + i) 0
         end)
      (Ok view)
    = if (offset + length done + length todo <=? length view)%nat
      then Ok (write_bytes view (offset + length done) (map byte_of_ascii todo))
      else match todo with
           | [] => Ok view
           | _ :: _ => Throw RangeError
           end.
Proof.
  induction todo as [|c todo IH]; intros done view Hs.
  - cbn. now destruct (_ <=? _)%nat.
  - cbn [length for_loop bind].
    rewrite charCodeAt_lookup, Hs, lookup_app_r, Nat.sub_diag by lia.
    cbn [lookup list_lookup]. rewrite setUint8_store, ToUint8_char.
    specialize (IH (done ++ [c])). rewrite length_app in IH. cbn [length] in IH.
    replace (length done + 1)%nat with (Datatypes.S (length done)) in IH by lia.
    destruct (offset + length done + 1 <=? length view)%nat eqn:E1.
    + rewrite IH by (now rewrite <- app_assoc). rewrite length_insert.
      apply Nat.leb_le in E1.
      destruct (offset + length done + Datatypes.S (length todo) <=? length view)%nat
        eqn:E2.
      * replace (offset + Datatypes.S (length done) + length todo <=? length view)%nat
          with true by (symmetry; apply Nat.leb_le; apply Nat.leb_le in E2; lia).
        cbn [map write_bytes]. do 2 f_equal. lia.
      * replace (offset + Datatypes.S (length done) + length todo <=? length view)%nat
          with false by (symmetry; apply Nat.leb_gt; apply Nat.leb_gt in E2; lia).
        destruct todo; [apply Nat.leb_gt in E2; cbn in E2; lia|reflexivity].
    + replace (offset + length done + Datatypes.S (length todo) <=? length view)%nat
        with false by (symmetry; apply Nat.leb_gt; apply Nat.leb_gt in E1; lia).
      clear IH. generalize (Datatypes.S (length done)).
      induction (length todo) as [|n IHn]; intros start; [reflexivity|].
      cbn [for_loop bind]. apply IHn.
Qed.

(** [X13] [writeString] inside the view stores the character codes of the string
    from [offset] on and leaves every other byte as it was; an empty string
    writes nothing, wherever; and a non-empty string that does not fit in the
    view throws a RangeError. *)
Theorem writeString_writes (view : list byte) (offset : nat) (s : string) :
  ((offset + String.length s <= length view)%nat ->
   writeString view offset s
   = Ok (take offset view ++ list_byte_of_string s
         ++ drop (offset + String.length s) view))
  /\ ((length view < offset + String.length s)%nat ->
      s <> EmptyString ->
      writeString view offset s = Throw RangeError)
  /\ writeString view offset EmptyString = Ok view.
Proof.
  pose proof (writeString_loop offset s (list_ascii_of_string s) [] view eq_refl) as H.
  rewrite length_list_ascii in H. cbn [length] in H.
  rewrite Nat.add_0_r in H. fold (writeString view offset s) in H.
  split; [|split].
  - intros Hfit. rewrite H.
    replace (offset + String.length s <=? length view)%nat with true
      by (symmetry; now apply Nat.leb_le).
    f_equal.
    pose proof (write_bytes_window (list_byte_of_string s) (take offset view)
                  (drop (offset + String.length s) view)
                  (take (String.length s) (drop offset view))) as Hw.
    assert (Hto : length (take offset view) = offset) by (rewrite length_take; lia).
    rewrite Hto in Hw. rewrite <- Hw.
    + f_equal. rewrite <- (take_drop offset view) at 1. f_equal.
      rewrite <- (take_drop (String.length s) (drop offset view)) at 1. f_equal.
      rewrite drop_drop. reflexivity.
    + rewrite length_take, length_drop, length_list_byte. lia.
  - intros Hout Hne. rewrite H.
    replace (offset + String.length s <=? length view)%nat with false
      by (symmetry; now apply Nat.leb_gt).
    destruct s; [contradiction|reflexivity].
  - reflexivity.
Qed.

Lemma writeString_writes_witness :
  writeString (replicate 6 x00) 1 "RIFF"
  = Ok (take 1 (replicate 6 x00) ++ list_byte_of_string "RIFF"
        ++ drop (1 + 4) (replicate 6 x00))
  /\ writeString (replicate 6 x00) 3 "RIFF" = Throw RangeError.
Proof.
  split.
  - apply (writeString_writes (replicate 6 x00) 1 "RIFF"). cbn. lia.
  - apply (writeString_writes (replicate 6 x00) 3 "RIFF"); [cbn; lia|discriminate].
Defined.

(** ** [pcmToWav] and its input *)

(** [X14] [pcmToWav] throws exactly when [atob] rejects its input, with the error
    of [atob] (an InvalidCharacterError); no write into the header and no copy
    ever goes out of bounds.  Its output is always accepted by [atob]. *)
Theorem pcmToWav_throws_as_atob (pcmBase64 : string) (sampleRate : Z) :
  (forall e, pcmToWav pcmBase64 sampleRate = Throw e <-> atob pcmBase64 = Throw e)
  /\ (forall e, pcmToWav pcmBase64 sampleRate = Throw e -> e = InvalidCharacterError)
  /\ (forall out, pcmToWav pcmBase64 sampleRate = Ok out ->
        exists pcmBinary,
          atob pcmBase64 = Ok pcmBinary
          /\ base64_bytes out
             = Ok (wav_header (String.length pcmBinary) sampleRate
                   ++ list_byte_of_string pcmBinary)).
Proof.
  assert (Hatob : forall e, atob pcmBase64 = Throw e -> e = InvalidCharacterError).
  { unfold atob. intros e. destruct (decode_groups _); [discriminate|now intros [= <-]]. }
  destruct (atob pcmBase64) as [pcmBinary|e0] eqn:E.
  - rewrite (pcmToWav_bytes _ _ sampleRate E). repeat split; try discriminate.
    intros out [= <-]. exists pcmBinary. split; [reflexivity|].
    unfold base64_bytes. rewrite atob_btoa. cbn [bind].
    now rewrite list_byte_of_string_of_list_byte.
  - rewrite (pcmToWav_invalid _ sampleRate _ E). repeat split; try discriminate.
    + intros [= <-]. reflexivity.
    + intros [= <-]. reflexivity.
    + intros e [= <-]. now apply Hatob.
Qed.

(** ** [withRetry] with any budget *)

Lemma length_backoff (k : nat) : forall delay : Z, length (backoff delay k) = k.
Proof. induction k as [|k IH]; intros delay; cbn; [reflexivity|now rewrite IH]. Qed.

Lemma total_backoff (k : nat) :
  forall delay : Z, total (backoff delay k) = delay * (2 ^ Z.of_nat k - 1).
Proof.
  induction k as [|k IH]; intros delay.
  - cbn. lia.
  - cbn [backoff total fold_right]. fold (total (backoff (delay * 2) k)).
    rewrite IH, Nat2Z.inj_succ, Z.pow_succ_r by lia. lia.
Qed.



(** [X16] The waits of [withRetry] add up to [delay * (2^k - 1)] for [k] retries,
    so to at most [delay * (2^retries - 1)]; with the defaults, to at most
    7000 ms. *)
Theorem withRetry_total_wait {W T : Type}
  (fn : W -> (T + thrown) * W) (retries : nat) (delay : Z) (w : W) :
  0 <= delay ->
  let '(_, log, _) := withRetry fn retries delay w in
  total (delays log) = delay * (2 ^ Z.of_nat (length (delays log)) - 1)
  /\ total (delays log) <= delay * (2 ^ Z.of_nat retries - 1)
  /\ (let '(_, log0, _) := withRetry_default fn w in total (delays log0) <= 7000).
Proof.
  intros Hdelay.
  assert (Hgen : forall (n : nat) (d : Z), 0 <= d ->
            let '(_, log, _) := withRetry fn n d w in
            total (delays log) = d * (2 ^ Z.of_nat (length (delays log)) - 1)
            /\ total (delays log) <= d * (2 ^ Z.of_nat n - 1)).
  { intros n d Hd. pose proof (withRetry_trace fn n d w) as H.
    destruct (withRetry fn n d w) as [[final log] w'].
    destruct H as (before & _ & Hle & _ & _ & Hdelays & _).
    rewrite Hdelays, length_backoff, total_backoff. split; [reflexivity|].
    apply Z.mul_le_mono_nonneg_l; [exact Hd|].
    apply Z.sub_le_mono_r. apply Z.pow_le_mono_r; lia. }
  pose proof (Hgen retries delay Hdelay) as H1.
  pose proof (Hgen 3%nat 1000 ltac:(lia)) as H2.
  unfold withRetry_default.
  destruct (withRetry fn retries delay w) as [[final log] w'].
  destruct (withRetry fn 3 1000 w) as [[final0 log0] w0].
  destruct H1 as [E1 L1]. destruct H2 as [_ L2].
  split; [exact E1|]. split; [exact L1|]. cbn in L2. lia.
Qed.

Lemma withRetry_total_wait_witness :
  let '(_, log, _) := withRetry (down_for 9) 2 500 0%nat in
  total (delays log) = 500 * (2 ^ Z.of_nat (length (delays log)) - 1)
  /\ total (delays log) <= 500 * (2 ^ Z.of_nat 2 - 1)
  /\ (let '(_, log0, _) := withRetry_default (down_for 9) 0%nat in
      total (delays log0) <= 7000).
Proof.
  apply (withRetry_total_wait (down_for 9) 2 500 0%nat). lia.
Defined.

Lemma successive_length {W T : Type} (fn : W -> (T + thrown) * W) (k : nat) :
  forall (w w1 : W) (os : list (T + thrown)),
    successive fn k w = (os, w1) -> length os = k.
Proof.
  induction k as [|k IH]; intros w w1 os H; cbn [successive] in H.
  - now injection H as <- _.
  - destruct (fn w) as [o w0]. destruct (successive fn k w0) as [os' w'] eqn:E.
    injection H as <- _. cbn. f_equal. eapply IH. exact E.
Qed.

(** [X17] [withRetry] settles at the first call that does not throw a retryable
    error, if that call comes within the budget: when the first [k] calls
    ([k <= retries]) throw retryable errors and the next one returns a value
    or throws another kind of error, the promise settles with that value or
    error, after exactly [k + 1] calls and [k] waits, and [fn] is not called
    again. *)
Theorem withRetry_settles {W T : Type}
  (fn : W -> (T + thrown) * W) (k : nat) :
  forall (retries : nat) (delay : Z) (w w1 w2 : W)
         (errors : list (T + thrown)) (o : T + thrown),
    (k <= retries)%nat ->
    successive fn k w = (errors, w1) ->
    Forall retried errors ->
    fn w1 = (o, w2) ->
    ~ retried o ->
    let '(final, log, w') := withRetry fn retries delay w in
    final = o /\ w' = w2
    /\ calls log = errors ++ [o]
    /\ delays log = backoff delay k.
Proof.
  induction k as [|k IH]; intros retries delay w w1 w2 errors o Hk Hsucc Hall Hfn Hfinal.
  - cbn [successive] in Hsucc. injection Hsucc as <- <-.
    destruct retries as [|retries]; cbn [withRetry]; rewrite Hfn.
    + destruct o as [v|e]; now repeat split.
    + destruct o as [v|e]; [now repeat split|].
      destruct (shouldRetry e) eqn:E; [|now repeat split].
      exfalso. apply Hfinal. now exists e.
  - destruct retries as [|retries]; [lia|].
    cbn [successive] in Hsucc.
    destruct (fn w) as [o0 w0] eqn:Efn.
    destruct (successive fn k w0) as [errors' w1'] eqn:Esucc.
    injection Hsucc as <- <-.
    apply Forall_cons in Hall. destruct Hall as [(e0 & -> & He0) Hall].
    cbn [withRetry]. rewrite Efn, He0.
    specialize (IH retries (delay * 2) w0 w1' w2 errors' o ltac:(lia) Esucc Hall Hfn Hfinal).
    destruct (withRetry fn retries (delay * 2) w0) as [[final log] w'].
    destruct IH as (-> & -> & Hcalls & Hdelays).
    split; [reflexivity|]. split; [reflexivity|]. split.
    + change (calls (called (inr e0) :: console_warn (Datatypes.S retries)
                       (error_message e0) :: setTimeout delay :: log))
        with (inr e0 :: calls log). now rewrite Hcalls.
    + change (delays (called (inr e0) :: console_warn (Datatypes.S retries)
                        (error_message e0) :: setTimeout delay :: log))
        with (delay :: delays log). now rewrite Hdelays.
Qed.

Lemma withRetry_settles_witness :
  let '(final, log, w') := withRetry_default (down_for 2) 0%nat in
  final = inl "ok"%string /\ w' = 3%nat
  /\ calls log
     = [inr (error_object (Some 503) (Some "The model is overloaded"%string));
        inr (error_object (Some 503) (Some "The model is overloaded"%string))]
       ++ [inl "ok"%string]
  /\ delays log = backoff 1000 2.
Proof.
  apply (withRetry_settles (down_for 2) 2 3 1000 0%nat 2%nat 3%nat).
  - lia.
  - reflexivity.
  - repeat constructor; eexists; split; reflexivity.
  - reflexivity.
  - intros (e & He & _). discriminate.
Defined.

(* ================================================================== *)
(** * gemini.ts: the speech and image engines                          *)
(* ================================================================== *)

(** ** What [withRetry] returns comes from a call *)

Lemma withRetry_outcome {W T : Type} (fn : W -> (T + thrown) * W) (retries : nat) :
  forall (delay : Z) (w : W),
    let '(final, _, w') := withRetry fn retries delay w in
    exists w0 : W, fn w0 = (final, w').
Proof.
  induction retries as [|retries IH]; intros delay w.
  - cbn [withRetry]. destruct (fn w) as [[v|e] w1] eqn:E; now exists w.
  - cbn [withRetry]. destruct (fn w) as [[v|e] w1] eqn:E; [now exists w|].
    destruct (shouldRetry e); [|now exists w].
    specialize (IH (delay * 2) w1).
    now destruct (withRetry fn retries (delay * 2) w1) as [[final log] w'].
Qed.

Lemma withRetry_calls {W T : Type} (fn : W -> (T + thrown) * W) (retries : nat)
  (delay : Z) (w : W) :
  let '(_, log, _) := withRetry fn retries delay w in
  (1 <= length (calls log) <= retries + 1)%nat.
Proof.
  pose proof (withRetry_trace fn retries delay w) as H.
  destruct (withRetry fn retries delay w) as [[final log] w'].
  destruct H as (before & -> & Hle & _). rewrite length_app. cbn [length]. lia.
Qed.

(** One call that does not throw a retryable error is the whole of
    [withRetry]. *)
Lemma withRetry_once {W T : Type} (fn : W -> (T + thrown) * W) (retries : nat)
  (delay : Z) (w w1 : W) (o : T + thrown) :
  fn w = (o, w1) ->
  match o with inl _ => True | inr e => shouldRetry e = false end ->
  withRetry fn retries delay w = (o, [called o], w1).
Proof.
  intros E H. destruct retries; cbn [withRetry]; rewrite E; destruct o as [v|e];
    try reflexivity. now rewrite H.
Qed.

(** ** [trim] and blank texts *)

Lemma trim_start_white (cs : list ascii) :
  Forall (fun c => is_white_space c = true) (trim_start cs)
  <-> Forall (fun c => is_white_space c = true) cs.
Proof.
  induction cs as [|c cs IH]; [reflexivity|]. cbn [trim_start].
  destruct (is_white_space c) eqn:E; [|reflexivity].
  rewrite IH. split; [now constructor|now inversion 1].
Qed.

Lemma trim_start_nil (cs : list ascii) :
  trim_start cs = [] <-> Forall (fun c => is_white_space c = true) cs.
Proof.
  induction cs as [|c cs IH]; [easy|]. cbn [trim_start].
  destruct (is_white_space c) eqn:E.
  - rewrite IH. split; [now constructor|now inversion 1].
  - split; [discriminate|]. inversion 1; congruence.
Qed.

Lemma length_string_of_ascii (cs : list ascii) :
  String.length (string_of_list_ascii cs) = length cs.
Proof. induction cs as [|c cs IH]; cbn; [reflexivity|now rewrite IH]. Qed.

Lemma trim_blank (text : string) :
  String.length (trim text) = 0%nat <-> blank text.
Proof.
  unfold trim, blank. rewrite length_string_of_ascii, length_rev.
  rewrite length_zero_iff_nil, trim_start_nil.
  rewrite <- (trim_start_white (list_ascii_of_string text)).
  split; intros H; apply Forall_rev in H; [now rewrite rev_involutive in H|exact H].
Qed.

Lemma blank_test (text : string) :
  negb (truthy (Some text)) || (String.length (trim text) =? 0)%nat = true
  <-> blank text.
Proof.
  rewrite <- trim_blank, orb_true_iff, Nat.eqb_eq. split; [|now right].
  intros [H|H]; [|exact H]. destruct text; [reflexivity|discriminate].
Qed.

(** ** [pcmToWav] as [generateSpeech] uses it *)

Lemma pcmToWav_file (pcmBase64 : string) (sampleRate : Z) (pcm : list byte) :
  base64_bytes pcmBase64 = Ok pcm ->
  exists wav : string,
    pcmToWav pcmBase64 sampleRate = Ok wav
    /\ base64_bytes wav = Ok (wav_file pcm sampleRate).
Proof.
  unfold base64_bytes at 1. destruct (atob pcmBase64) as [pcmBinary|e] eqn:E;
    [|discriminate]. cbn [bind]. intros [= <-].
  eexists. split; [apply (pcmToWav_bytes _ _ _ E)|].
  unfold base64_bytes, wav_file. rewrite atob_btoa. cbn [bind].
  now rewrite list_byte_of_string_of_list_byte, length_list_byte.
Qed.

Lemma pcmToWav_file_inv (pcmBase64 wav : string) (sampleRate : Z) :
  pcmToWav pcmBase64 sampleRate = Ok wav ->
  exists pcm : list byte,
    base64_bytes pcmBase64 = Ok pcm
    /\ base64_bytes wav = Ok (wav_file pcm sampleRate).
Proof.
  intros H. destruct (atob pcmBase64) as [pcmBinary|e] eqn:E.
  - exists (list_byte_of_string pcmBinary).
    assert (Hb : base64_bytes pcmBase64 = Ok (list_byte_of_string pcmBinary))
      by (unfold base64_bytes; now rewrite E).
    split; [exact Hb|].
    destruct (pcmToWav_file _ sampleRate _ Hb) as (wav' & Hw & Hf). congruence.
  - rewrite (pcmToWav_invalid _ sampleRate _ E) in H. discriminate.
Qed.

Lemma wav_file_text (wav : string) (pcm : list byte) (sampleRate : Z) :
  base64_bytes wav = Ok (wav_file pcm sampleRate) -> truthy (Some wav) = true.
Proof. destruct wav; [discriminate|reflexivity]. Qed.

(** ** [generateSpeech] *)

Section Speech.
Context {W : Type}.
Variable service : Service W.
Variable exn_message : exn -> string.

Lemma speech_attempt_wav (text wav : string) (w0 w1 : World W) :
  speech_attempt service exn_message text w0 = (inl (Some wav), w1) ->
  exists (response : GenerateContentResponse) (s1 : W) (b : string) (pcm : list byte),
    generateContent service (speech_request text) (remote w0) = (inl response, s1)
    /\ first_data response = Some b
    /\ base64_bytes b = Ok pcm
    /\ base64_bytes wav = Ok (wav_file pcm 24000).
Proof.
  unfold speech_attempt.
  destruct (generateContent service (speech_request text) (remote w0))
    as [[response|error] s1]; [|discriminate].
  destruct (first_data response) as [b|] eqn:Eb; cbn [truthy]; [|discriminate].
  destruct b as [|c b]; [discriminate|]. cbn [from_option id].
  destruct (pcmToWav (String c b) 24000) as [out|e] eqn:Ew; [|discriminate].
  intros [= -> _].
  destruct (pcmToWav_file_inv _ _ _ Ew) as (pcm & Hb & Hf).
  now exists response, s1, (String c b), pcm.
Qed.

End Speech.

Lemma generateSpeech_of_blank {W : Type} (service : Service W)
  (exn_message : exn -> string) (text : string) (w : World W) :
  blank text -> generateSpeech service exn_message text w = (None, [], w).
Proof.
  intros H. unfold generateSpeech. apply blank_test in H. now rewrite H.
Qed.

(** [X18] [generateSpeech] sends nothing for a blank text: it makes no request
    exactly when the text is empty or all white space, and then it returns
    [null] and leaves the service and the console as they were. *)
Theorem generateSpeech_blank_text {W : Type} (service : Service W)
  (exn_message : exn -> string) (text : string) (w : World W) :
  let '(result, log, w') := generateSpeech service exn_message text w in
  (calls log = [] <-> blank text)
  /\ (blank text -> result = None /\ log = [] /\ w' = w).
Proof.
  unfold generateSpeech. pose proof (blank_test text) as Hb.
  destruct (negb (truthy (Some text)) || (String.length (trim text) =? 0)%nat).
  - split; [split; [intros _; now apply Hb|reflexivity]|now intros _].
  - unfold withRetry_default.
    pose proof (withRetry_calls (speech_attempt service exn_message text) 3 1000 w) as Hc.
    destruct (withRetry (speech_attempt service exn_message text) 3 1000 w)
      as [[settled log] w'].
    assert (Hn : ~ blank text) by (intros H; apply Hb in H; discriminate).
    assert (Hl : calls log <> []) by (intros E; rewrite E in Hc; cbn in Hc; lia).
    destruct settled; (split; [split; intros H; contradiction|intros H; contradiction]).
Qed.

Lemma generateSpeech_result {W : Type} (service : Service W)
  (exn_message : exn -> string) (text : string) (w : World W) :
  let '(result, log, w') := generateSpeech service exn_message text w in
  (length (calls log) <= 4)%nat
  /\ forall wav : string,
       result = Some wav ->
       truthy (Some wav) = true
       /\ exists (response : GenerateContentResponse) (s s' : W) (b : string)
            (pcm : list byte),
            generateContent service (speech_request text) s = (inl response, s')
            /\ first_data response = Some b
            /\ base64_bytes b = Ok pcm
            /\ base64_bytes wav = Ok (wav_file pcm 24000).
Proof.
  unfold generateSpeech.
  destruct (negb (truthy (Some text)) || (String.length (trim text) =? 0)%nat).
  - split; [cbn; lia|discriminate].
  - unfold withRetry_default.
    pose proof (withRetry_calls (speech_attempt service exn_message text) 3 1000 w) as Hc.
    pose proof (withRetry_outcome (speech_attempt service exn_message text) 3 1000 w) as Ho.
    destruct (withRetry (speech_attempt service exn_message text) 3 1000 w)
      as [[settled log] w'].
    destruct settled as [result|err]; (split; [lia|]); [|discriminate].
    intros wav ->. destruct Ho as (w0 & Ho).
    destruct (speech_attempt_wav _ _ _ _ _ _ Ho) as (response & s1 & b & pcm & H1 & H2 & H3 & H4).
    split; [now apply (wav_file_text _ pcm 24000)|].
    now exists response, (remote w0), s1, b, pcm.
Qed.

(** An operation that makes one request of the service each time it runs:
    [n] successive runs are [n] successive requests, and leave the service
    where those leave it. *)
Section Requests.
Context {W T : Type}.
Variable service : Service W.
Variable request : ContentRequest.
Variable fn : World W -> (T + thrown) * World W.
Variable related : T + thrown -> GenerateContentResponse + thrown -> Prop.
Hypothesis one_request :
  forall w0 : World W, exists (answer : GenerateContentResponse + thrown) (s1 : W),
    generateContent service request (remote w0) = (answer, s1)
    /\ remote (snd (fn w0)) = s1
    /\ related (fst (fn w0)) answer.

Lemma successive_requests (n : nat) :
  forall (w w' : World W) (os : list (T + thrown)),
    successive fn n w = (os, w') ->
    exists answers : list (GenerateContentResponse + thrown),
      successive (generateContent service request) n (remote w) = (answers, remote w')
      /\ Forall2 related os answers.
Proof.
  induction n as [|n IH]; intros w w' os H; cbn [successive] in H.
  - injection H as <- <-. exists []. split; [reflexivity|constructor].
  - destruct (one_request w) as (answer & s1 & Ha & Hs & Hrel).
    destruct (fn w) as [o w1]. cbn [fst snd] in Hs, Hrel.
    destruct (successive fn n w1) as [os' w2] eqn:E.
    injection H as <- <-. destruct (IH _ _ _ E) as (answers & Hsucc & Hall).
    exists (answer :: answers). split; [|now constructor].
    cbn [successive]. rewrite Ha. subst s1. now rewrite Hsucc.
Qed.

(** What [withRetry] makes of such an operation: as many requests as
    calls, at most [retries + 1], the last of them behind the result. *)
Lemma withRetry_requests (retries : nat) (delay : Z) (w : World W) :
  let '(final, log, w') := withRetry fn retries delay w in
  exists (earlier : list (GenerateContentResponse + thrown))
         (answer : GenerateContentResponse + thrown),
    successive (generateContent service request) (length (earlier ++ [answer])) (remote w)
    = (earlier ++ [answer], remote w')
    /\ length (calls log) = length (earlier ++ [answer])
    /\ (length (earlier ++ [answer]) <= retries + 1)%nat
    /\ related final answer.
Proof.
  pose proof (withRetry_trace fn retries delay w) as H.
  destruct (withRetry fn retries delay w) as [[final log] w'].
  destruct H as (before & Hcalls & Hle & Hsucc & _).
  destruct (successive_requests _ _ _ _ Hsucc) as (answers & Hreq & Hall).
  apply Forall2_app_inv_l in Hall.
  destruct Hall as (earlier & last_one & Hearlier & Hlast & ->).
  inversion Hlast as [|? answer ? ? Hrel Hnil]; subst. inversion Hnil; subst.
  exists earlier, answer.
  assert (Hlen : length (earlier ++ [answer]) = Datatypes.S (length before)).
  { rewrite length_app. cbn [length]. apply Forall2_length in Hearlier. lia. }
  rewrite Hlen, Hcalls, length_app. cbn [length].
  split; [exact Hreq|]. split; [lia|]. split; [lia|exact Hrel].
Qed.

End Requests.

Lemma speech_attempt_requests {W : Type} (service : Service W)
  (exn_message : exn -> string) (text : string) (w0 : World W) :
  exists (answer : GenerateContentResponse + thrown) (s1 : W),
    generateContent service (speech_request text) (remote w0) = (answer, s1)
    /\ remote (snd (speech_attempt service exn_message text w0)) = s1
    /\ (fun o a => forall wav, o = inl (Some wav) -> speech_answer wav a)
         (fst (speech_attempt service exn_message text w0)) answer.
Proof.
  destruct (generateContent service (speech_request text) (remote w0)) as [answer s1] eqn:E.
  exists answer, s1. split; [reflexivity|].
  destruct (speech_attempt service exn_message text w0) as [o w1] eqn:Ea. cbn [fst snd].
  split.
  - revert Ea. unfold speech_attempt. rewrite E.
    destruct answer as [response|error]; [|now intros [= _ <-]].
    destruct (truthy (first_data response)); [|now intros [= _ <-]].
    destruct (pcmToWav _ 24000); now intros [= _ <-].
  - intros wav ->.
    destruct (speech_attempt_wav _ _ _ _ _ _ Ea) as (response & s & b & pcm & H1 & H2 & H3 & H4).
    rewrite E in H1. injection H1 as -> _. now exists response, b, pcm.
Qed.

(** [X19] Whatever the service does, [generateSpeech] makes one request for
    the text each time its operation runs, one after the other and at most
    four: the service is left where that many requests leave it.  A string
    it returns is non-empty base64 text of a WAV file: the 44-byte header for
    24000 Hz, then the PCM bytes of the payload of the last answer. *)
Theorem generateSpeech_returns_wav {W : Type} (service : Service W)
  (exn_message : exn -> string) (text : string) (w : World W) :
  let '(result, log, w') := generateSpeech service exn_message text w in
  exists answers : list (GenerateContentResponse + thrown),
    successive (generateContent service (speech_request text)) (length answers) (remote w)
    = (answers, remote w')
    /\ length (calls log) = length answers
    /\ (length answers <= 4)%nat
    /\ forall wav : string,
         result = Some wav ->
         truthy (Some wav) = true
         /\ exists answer : GenerateContentResponse + thrown,
              last answers = Some answer /\ speech_answer wav answer.
Proof.
  unfold generateSpeech.
  destruct (negb (truthy (Some text)) || (String.length (trim text) =? 0)%nat).
  { exists []. split; [reflexivity|]. split; [reflexivity|]. split; [cbn; lia|discriminate]. }
  unfold withRetry_default.
  pose proof (withRetry_requests service (speech_request text)
                (speech_attempt service exn_message text) _
                (speech_attempt_requests service exn_message text) 3 1000 w) as H.
  destruct (withRetry (speech_attempt service exn_message text) 3 1000 w)
    as [[settled log] w'].
  destruct H as (earlier & answer & Hreq & Hcalls & Hle & Hrel).
  destruct settled as [result|err]; exists (earlier ++ [answer]);
    (split; [exact Hreq|]); (split; [exact Hcalls|]); (split; [exact Hle|]);
    [|discriminate].
  intros wav ->. specialize (Hrel wav eq_refl).
  split.
  - destruct Hrel as (response & b & pcm & _ & _ & _ & Hw).
    now apply (wav_file_text _ pcm 24000).
  - exists answer. split; [apply last_snoc|exact Hrel].
Qed.

(** [X20] When the service answers the first request with a payload that is
    base64 text, [generateSpeech] returns the WAV file of its bytes after
    that one request, without waiting and without a line on the console. *)
Theorem generateSpeech_first_answer {W : Type} (service : Service W)
  (exn_message : exn -> string) (text : string) (w : World W)
  (response : GenerateContentResponse) (s1 : W) (b : string) (pcm : list byte) :
  ~ blank text ->
  generateContent service (speech_request text) (remote w) = (inl response, s1) ->
  first_data response = Some b ->
  b <> EmptyString ->
  base64_bytes b = Ok pcm ->
  exists wav : string,
    generateSpeech service exn_message text w
    = (Some wav, [called (inl (Some wav))], answered w s1)
    /\ base64_bytes wav = Ok (wav_file pcm 24000).
Proof.
  intros Hn Hs Hd Hb Hp. destruct (pcmToWav_file b 24000 pcm Hp) as (wav & Hw & Hf).
  exists wav. split; [|exact Hf]. unfold generateSpeech.
  pose proof (blank_test text) as Ht.
  destruct (negb (truthy (Some text)) || (String.length (trim text) =? 0)%nat);
    [exfalso; now apply Hn, Ht|].
  unfold withRetry_default.
  rewrite (withRetry_once _ 3 1000 w (answered w s1) (inl (Some wav))); [reflexivity| |exact I].
  unfold speech_attempt. rewrite Hs, Hd. destruct b; [contradiction|].
  cbn [truthy from_option id]. now rewrite Hw.
Qed.

Lemma generateSpeech_first_answer_witness :
  exists wav : string,
    generateSpeech (answering (carrying "TWFu")) wording "Read this." quiet
    = (Some wav, [called (inl (Some wav))], answered quiet 1%nat)
    /\ base64_bytes wav = Ok (wav_file (list_byte_of_string "Man") 24000).
Proof.
  apply (generateSpeech_first_answer (answering (carrying "TWFu")) wording
           "Read this." quiet (carrying "TWFu") 1%nat "TWFu").
  - unfold blank. vm_compute. inversion 1. discriminate.
  - reflexivity.
  - reflexivity.
  - discriminate.
  - vm_compute. reflexivity.
Defined.

Lemma successive_failing {W T : Type} (fn : World W -> (T + thrown) * World W)
  (line : string) :
  (forall w0 : World W, exists (e : thrown) (s' : W),
      fn w0 = (inr e, log_line line (answered w0 s')) /\ shouldRetry e = true) ->
  forall (k : nat) (w w' : World W) (os : list (T + thrown)),
    successive fn k w = (os, w') ->
    Forall (fun o => exists e, o = inr e /\ shouldRetry e = true) os
    /\ console w' = console w ++ replicate k line.
Proof.
  intros Hfn. induction k as [|k IH]; intros w w' os H; cbn [successive] in H.
  - injection H as <- <-. split; [constructor|]. cbn. now rewrite app_nil_r.
  - destruct (Hfn w) as (e & s' & E & He). rewrite E in H.
    destruct (successive fn k (log_line line (answered w s'))) as [os' w2] eqn:Es.
    injection H as <- <-. destruct (IH _ _ _ Es) as [Hall Hc].
    split; [constructor; [now exists e|exact Hall]|].
    rewrite Hc. cbn [console log_line answered replicate]. now rewrite <- app_assoc.
Qed.

(** [X21] When the service keeps failing with retryable errors, [generateSpeech]
    runs its operation four times, waiting 1000, 2000 and 4000 ms in between,
    and leaves the service where four successive requests for the text leave
    it; it logs each of the four errors and then the final failure, and
    returns [null]. *)
Theorem generateSpeech_gives_up {W : Type} (service : Service W)
  (exn_message : exn -> string) (text : string) (w : World W) :
  ~ blank text ->
  (forall s : W, exists (e : thrown) (s' : W),
      generateContent service (speech_request text) s = (inr e, s')
      /\ shouldRetry e = true) ->
  let '(result, log, w') := generateSpeech service exn_message text w in
  result = None
  /\ length (calls log) = 4%nat
  /\ delays log = [1000; 2000; 4000]
  /\ (exists answers : list (GenerateContentResponse + thrown),
        successive (generateContent service (speech_request text)) 4 (remote w)
        = (answers, remote w'))
  /\ console w' = console w ++ replicate 4 "TTS Error:"%string
                    ++ ["Final TTS Failure:"%string].
Proof.
  intros Hn Hdown. unfold generateSpeech. pose proof (blank_test text) as Ht.
  destruct (negb (truthy (Some text)) || (String.length (trim text) =? 0)%nat);
    [exfalso; now apply Hn, Ht|].
  assert (Hfn : forall w0 : World W, exists (e : thrown) (s' : W),
             speech_attempt service exn_message text w0
             = (inr e, log_line "TTS Error:" (answered w0 s')) /\ shouldRetry e = true).
  { intros w0. destruct (Hdown (remote w0)) as (e & s' & E & He).
    exists e, s'. unfold speech_attempt. now rewrite E. }
  unfold withRetry_default.
  pose proof (withRetry_trace (speech_attempt service exn_message text) 3 1000 w) as H.
  destruct (withRetry (speech_attempt service exn_message text) 3 1000 w)
    as [[settled log] w'].
  destruct H as (before & Hcalls & Hle & Hsucc & _ & Hdelays & Hfinal).
  destruct (successive_failing _ _ Hfn _ _ _ _ Hsucc) as [Hall Hc].
  apply Forall_app in Hall. destruct Hall as [_ Hlast].
  inversion Hlast as [|? ? (e & -> & He) _]; subst.
  destruct Hfinal as [Hfinal|Hfinal]; [congruence|].
  destruct (successive_requests service (speech_request text) _ _
              (speech_attempt_requests service exn_message text) _ _ _ _ Hsucc)
    as (answers & Hreq & _).
  rewrite Hcalls, Hdelays, length_app, Hfinal. cbn [length log_line console remote].
  rewrite Hc, Hfinal in *. split; [reflexivity|]. split; [reflexivity|].
  split; [reflexivity|]. split; [now exists answers|]. now rewrite <- app_assoc.
Qed.

Lemma generateSpeech_gives_up_witness :
  let '(result, log, w') := generateSpeech overloaded wording "Read this." quiet in
  result = None
  /\ length (calls log) = 4%nat
  /\ delays log = [1000; 2000; 4000]
  /\ (exists answers : list (GenerateContentResponse + thrown),
        successive (generateContent overloaded (speech_request "Read this.")) 4
          (remote quiet)
        = (answers, remote w'))
  /\ console w' = console quiet ++ replicate 4 "TTS Error:"%string
                    ++ ["Final TTS Failure:"%string].
Proof.
  apply (generateSpeech_gives_up overloaded wording "Read this." quiet).
  - unfold blank. vm_compute. inversion 1. discriminate.
  - intros s. eexists. eexists. split; reflexivity.
Defined.

(** ** [generateImage] *)

Lemma jpeg_not_placeholder (base64 : string) :
  String.append "data:image/jpeg;base64," base64 <> placeholder.
Proof.
  intros H. apply (f_equal (String.prefix "data:image/svg")) in H.
  vm_compute in H. discriminate.
Qed.

Lemma png_not_placeholder (base64 : string) :
  String.append "data:image/png;base64," base64 <> placeholder.
Proof.
  intros H. apply (f_equal (String.prefix "data:image/svg")) in H.
  vm_compute in H. discriminate.
Qed.

Lemma image_attempt_resolves {W : Type} (service : Service W)
  (prompt aspectRatio : string) (w : World W) :
  exists url : string,
    fst (image_attempt service prompt aspectRatio w) = inl url
    /\ String.prefix "data:image/" url = true.
Proof.
  unfold image_attempt.
  destruct (generateImages service (imagen_request prompt aspectRatio) (remote w))
    as [[r1|e1] s1].
  - destruct (imagen_bytes r1) as [b|].
    + eexists. split; reflexivity.
    + cbn [remote answered].
      destruct (generateContent service (flash_image_request prompt) s1) as [[r2|e2] s2].
      * destruct (first_inlineData (first_parts r2)) as [d|];
          eexists; split; reflexivity.
      * eexists; split; reflexivity.
  - cbn [remote answered log_line].
    destruct (generateContent service (flash_image_request prompt) s1) as [[r2|e2] s2].
    + destruct (first_inlineData (first_parts r2)) as [d|];
        eexists; split; reflexivity.
    + eexists; split; reflexivity.
Qed.

(** [X22] [generateImage] always resolves, with the URL of an image, after a single
    run of its operation: [withRetry] never sees an error here, so it never
    warns, waits or retries. *)
Theorem generateImage_always_resolves {W : Type} (service : Service W)
  (prompt aspectRatio : string) (w : World W) :
  let '(final, log, _) := generateImage service prompt aspectRatio w in
  exists url : string,
    final = inl url
    /\ log = [called (inl url)]
    /\ String.prefix "data:image/" url = true.
Proof.
  unfold generateImage, withRetry_default.
  destruct (image_attempt_resolves service prompt aspectRatio w) as (url & E & Hp).
  destruct (image_attempt service prompt aspectRatio w) as [o w1] eqn:Ea.
  cbn [fst] in E. subst o.
  rewrite (withRetry_once _ 3 1000 w w1 (inl url) Ea I).
  now exists url.
Qed.

(** [X23] The order of the engines.  When Imagen returns image bytes, the result
    is their JPEG data URL and the fallback model is not asked.  Otherwise
    the fallback model is asked once, after Imagen.  The placeholder is the
    result exactly when neither engine produced an image. *)
Theorem generateImage_cascade {W : Type} (service : Service W)
  (prompt aspectRatio : string) (w : World W)
  (r1 : GenerateImagesResponse + thrown) (s1 : W)
  (r2 : GenerateContentResponse + thrown) (s2 : W) :
  generateImages service (imagen_request prompt aspectRatio) (remote w) = (r1, s1) ->
  generateContent service (flash_image_request prompt) s1 = (r2, s2) ->
  let '(final, _, w') := generateImage service prompt aspectRatio w in
  (forall base64 : string,
     imagen_image r1 = Some base64 ->
     final = inl (String.append "data:image/jpeg;base64," base64) /\ remote w' = s1)
  /\ (imagen_image r1 = None -> remote w' = s2)
  /\ (final = inl placeholder <-> imagen_image r1 = None /\ flash_image r2 = None).
Proof.
  intros H1 H2. unfold generateImage, withRetry_default.
  destruct (image_attempt service prompt aspectRatio w) as [o w1] eqn:E.
  assert (Ho : exists url, o = inl url).
  { destruct (image_attempt_resolves service prompt aspectRatio w) as (url & H & _).
    rewrite E in H. now exists url. }
  destruct Ho as (url & ->).
  rewrite (withRetry_once _ 3 1000 w w1 (inl url) E I).
  revert E. unfold image_attempt. rewrite H1.
  destruct r1 as [resp1|e1]; cbn [imagen_image].
  - destruct (imagen_bytes resp1) as [b|].
    + intros [= <- <-]. split; [now intros base64 [= <-]|]. split; [discriminate|].
      split; [intros [= H]; now apply jpeg_not_placeholder in H|now intros [? _]].
    + cbn [remote answered]. rewrite H2. destruct r2 as [resp2|e2]; cbn [flash_image].
      * destruct (first_inlineData (first_parts resp2)) as [d|]; intros [= <- <-].
        -- split; [discriminate|]. split; [reflexivity|].
           split; [intros [= H]; now apply png_not_placeholder in H|now intros [_ ?]].
        -- split; [discriminate|]. split; [reflexivity|]. now split.
      * intros [= <- <-]. split; [discriminate|]. split; [reflexivity|]. now split.
  - cbn [remote answered log_line]. rewrite H2. destruct r2 as [resp2|e2]; cbn [flash_image].
    + destruct (first_inlineData (first_parts resp2)) as [d|]; intros [= <- <-].
      * split; [discriminate|]. split; [reflexivity|].
        split; [intros [= H]; now apply png_not_placeholder in H|now intros [_ ?]].
      * split; [discriminate|]. split; [reflexivity|]. now split.
    + intros [= <- <-]. split; [discriminate|]. split; [reflexivity|]. now split.
Qed.

Lemma generateImage_cascade_witness :
  let '(final, _, w') :=
    generateImage (answering (carrying "iVBORw0KGgo=")) "a lighthouse" "16:9" quiet in
  (forall base64 : string,
     imagen_image (inr (error_object (Some 404) (Some "model not found"%string)))
     = Some base64 ->
     final = inl (String.append "data:image/jpeg;base64," base64) /\ remote w' = 1%nat)
  /\ (imagen_image (inr (error_object (Some 404) (Some "model not found"%string))) = None ->
      remote w' = 2%nat)
  /\ (final = inl placeholder
      <-> imagen_image (inr (error_object (Some 404) (Some "model not found"%string))) = None
          /\ flash_image (inl (carrying "iVBORw0KGgo=")) = None).
Proof.
  apply (generateImage_cascade (answering (carrying "iVBORw0KGgo=")) "a lighthouse" "16:9"
           quiet (inr (error_object (Some 404) (Some "model not found"%string))) 1%nat
           (inl (carrying "iVBORw0KGgo=")) 2%nat); reflexivity.
Defined.

(** ** [editImageWithPrompt] *)

Lemma after_comma_none (s : string) : no_comma s -> after_comma s = None.
Proof.
  unfold no_comma. induction s as [|c s IH]; [reflexivity|]. cbn.
  inversion 1 as [|? ? Hc Hs]; subst. apply Ascii.eqb_neq in Hc. rewrite Hc. now apply IH.
Qed.

Lemma before_comma_all (s : string) : no_comma s -> before_comma s = s.
Proof.
  unfold no_comma. induction s as [|c s IH]; [reflexivity|]. cbn.
  inversion 1 as [|? ? Hc Hs]; subst. apply Ascii.eqb_neq in Hc. rewrite Hc.
  now rewrite IH.
Qed.

Lemma after_comma_append (header rest : string) :
  no_comma header ->
  after_comma (String.append header (String ","%char rest)) = Some rest.
Proof.
  unfold no_comma. induction header as [|c h IH]; [reflexivity|]. cbn.
  inversion 1 as [|? ? Hc Hs]; subst. apply Ascii.eqb_neq in Hc. rewrite Hc. now apply IH.
Qed.

(** [X24] The prefix of a data URL is stripped before the image is sent: from a
    header without a comma, a comma and a non-empty payload without a comma
    (as base64 text is), [cleanBase64] keeps the payload; a payload given
    bare is kept as it is; and when nothing follows the comma the whole
    string is sent, header included. *)
Theorem cleanBase64_strips_prefix (header payload : string) :
  no_comma header -> no_comma payload -> payload <> EmptyString ->
  cleanBase64 (String.append header (String ","%char payload)) = payload
  /\ cleanBase64 payload = payload
  /\ cleanBase64 (String.append header (String ","%char EmptyString))
     = String.append header (String ","%char EmptyString).
Proof.
  intros Hh Hp Hne. unfold cleanBase64, split_comma_1.
  rewrite !(after_comma_append header _ Hh), (after_comma_none payload Hp).
  rewrite (before_comma_all payload Hp). cbn [before_comma truthy].
  destruct payload; [contradiction|]. cbn [truthy from_option id]. auto.
Qed.

Lemma cleanBase64_strips_prefix_witness :
  cleanBase64 (String.append "data:image/png;base64" (String ","%char "iVBORw0KGgo="))
  = "iVBORw0KGgo="%string
  /\ cleanBase64 "iVBORw0KGgo=" = "iVBORw0KGgo="%string
  /\ cleanBase64 (String.append "data:image/png;base64" (String ","%char EmptyString))
     = String.append "data:image/png;base64" (String ","%char EmptyString).
Proof.
  apply (cleanBase64_strips_prefix "data:image/png;base64" "iVBORw0KGgo=").
  - unfold no_comma. cbn. repeat constructor; discriminate.
  - unfold no_comma. cbn. repeat constructor; discriminate.
  - discriminate.
Defined.

Lemma prefix_append (s t : string) : String.prefix s (String.append s t) = true.
Proof.
  induction s as [|c s IH]; [now destruct t|]. cbn.
  destruct (ascii_dec c c); [exact IH|contradiction].
Qed.

Lemma edit_attempt_url {W : Type} (service : Service W)
  (base64Image prompt url : string) (w0 w1 : World W) :
  edit_attempt service base64Image prompt w0 = (inl url, w1) ->
  exists (response : GenerateContentResponse) (s1 : W) (d : InlineData),
    generateContent service (edit_request base64Image prompt) (remote w0)
    = (inl response, s1)
    /\ first_inlineData (first_parts response) = Some d
    /\ url = String.append "data:image/png;base64," (template (inline_data d)).
Proof.
  unfold edit_attempt.
  destruct (generateContent service (edit_request base64Image prompt) (remote w0))
    as [[response|error] s1]; [|discriminate].
  destruct (first_inlineData (first_parts response)) as [d|] eqn:Ed; [|discriminate].
  intros [= <- _]. now exists response, s1, d.
Qed.

(** [X25] An edit that comes back without an image is not retried: when the first
    response has no inline data in its first part, [editImageWithPrompt]
    rejects with the error "No image returned from edit" after that one
    request, logs it once, and never warns or waits. *)
Theorem editImageWithPrompt_no_image {W : Type} (service : Service W)
  (base64Image prompt : string) (w : World W)
  (response : GenerateContentResponse) (s1 : W) :
  generateContent service (edit_request base64Image prompt) (remote w) = (inl response, s1) ->
  first_inlineData (first_parts response) = None ->
  editImageWithPrompt service base64Image prompt w
  = (inr no_image, [called (inr no_image)],
     log_line "Error editing image:" (answered w s1)).
Proof.
  intros Hs Hd. unfold editImageWithPrompt, withRetry_default.
  apply withRetry_once; [|reflexivity].
  unfold edit_attempt. now rewrite Hs, Hd.
Qed.

Lemma editImageWithPrompt_no_image_witness :
  editImageWithPrompt (answering refusal) "data:image/png;base64,iVBORw0KGgo="
    "make it brighter" quiet
  = (inr no_image, [called (inr no_image)],
     log_line "Error editing image:" (answered quiet 1%nat)).
Proof.
  apply (editImageWithPrompt_no_image (answering refusal)
           "data:image/png;base64,iVBORw0KGgo=" "make it brighter" quiet refusal 1%nat);
    reflexivity.
Defined.

Lemma edit_attempt_requests {W : Type} (service : Service W)
  (base64Image prompt : string) (w0 : World W) :
  exists (answer : GenerateContentResponse + thrown) (s1 : W),
    generateContent service (edit_request base64Image prompt) (remote w0) = (answer, s1)
    /\ remote (snd (edit_attempt service base64Image prompt w0)) = s1
    /\ (fun o a => forall url, o = inl url -> edit_answer url a)
         (fst (edit_attempt service base64Image prompt w0)) answer.
Proof.
  destruct (generateContent service (edit_request base64Image prompt) (remote w0))
    as [answer s1] eqn:E.
  exists answer, s1. split; [reflexivity|].
  destruct (edit_attempt service base64Image prompt w0) as [o w1] eqn:Ea. cbn [fst snd].
  split.
  - revert Ea. unfold edit_attempt. rewrite E.
    destruct answer as [response|error]; [|now intros [= _ <-]].
    destruct (first_inlineData (first_parts response)); now intros [= _ <-].
  - intros url ->.
    destruct (edit_attempt_url _ _ _ _ _ _ Ea) as (response & s & d & H1 & H2 & H3).
    rewrite E in H1. injection H1 as -> _. now exists response, d.
Qed.

(** [X26] Whatever the service does, [editImageWithPrompt] makes one request
    for the edit each time its operation runs, one after the other, at
    least one and at most four: the service is left where that many requests
    leave it.  When it resolves, the result is a PNG data URL made from the
    first part of the last answer; a part whose inline data has no [data]
    gives the URL "data:image/png;base64,undefined". *)
Theorem editImageWithPrompt_resolves_png {W : Type} (service : Service W)
  (base64Image prompt : string) (w : World W) :
  let '(final, log, w') := editImageWithPrompt service base64Image prompt w in
  exists answers : list (GenerateContentResponse + thrown),
    successive (generateContent service (edit_request base64Image prompt))
      (length answers) (remote w)
    = (answers, remote w')
    /\ length (calls log) = length answers
    /\ (1 <= length answers <= 4)%nat
    /\ forall url : string,
         final = inl url ->
         String.prefix "data:image/png;base64," url = true
         /\ exists (response : GenerateContentResponse) (d : InlineData),
              last answers = Some (inl response)
              /\ first_inlineData (first_parts response) = Some d
              /\ url = String.append "data:image/png;base64," (template (inline_data d))
              /\ (inline_data d = None -> url = "data:image/png;base64,undefined"%string).
Proof.
  unfold editImageWithPrompt, withRetry_default.
  pose proof (withRetry_requests service (edit_request base64Image prompt)
                (edit_attempt service base64Image prompt) _
                (edit_attempt_requests service base64Image prompt) 3 1000 w) as H.
  destruct (withRetry (edit_attempt service base64Image prompt) 3 1000 w)
    as [[final log] w'].
  destruct H as (earlier & answer & Hreq & Hcalls & Hle & Hrel).
  exists (earlier ++ [answer]).
  split; [exact Hreq|]. split; [exact Hcalls|].
  split; [rewrite length_app in *; cbn [length] in *; lia|].
  intros url ->. destruct (Hrel url eq_refl) as (response & d & -> & Hd & ->).
  split; [apply prefix_append|]. exists response, d.
  split; [apply last_snoc|]. split; [exact Hd|]. split; [reflexivity|].
  now intros ->.
Qed.

(* ================================================================== *)
(** * App.tsx: the text-to-speech handler                              *)
(* ================================================================== *)

(** [X27] [handleGenerateTTS] on any state and service.  With an empty text it
    does nothing.  Otherwise it ends with the spinner off and the text kept,
    and either the player's source is the data URL of a WAV file that
    [generateSpeech] made and no alert is raised, or the one alert "Audio
    generation failed." is raised and the source is the one from before.  A
    text of white space only fails this way without a request to the
    service. *)
Theorem handleGenerateTTS_outcome {W : Type} (service : Service W)
  (exn_message : exn -> string) (st : TtsState) (w : World W) :
  let '(st', alerts, w') := handleGenerateTTS service exn_message st w in
  ttsText st' = ttsText st
  /\ (ttsText st = EmptyString -> st' = st /\ alerts = [] /\ w' = w)
  /\ (ttsText st <> EmptyString ->
      isGeneratingTTS st' = false
      /\ ((alerts = []
           /\ exists (wav : string) (pcm : list byte),
                ttsAudioSrc st' = Some (String.append "data:audio/wav;base64," wav)
                /\ base64_bytes wav = Ok (wav_file pcm 24000))
          \/ (alerts = ["Audio generation failed."%string]
              /\ ttsAudioSrc st' = ttsAudioSrc st)))
  /\ (ttsText st <> EmptyString -> blank (ttsText st) ->
      alerts = ["Audio generation failed."%string]
      /\ ttsAudioSrc st' = ttsAudioSrc st
      /\ w' = w).
Proof.
  unfold handleGenerateTTS. destruct (ttsText st) as [|c text] eqn:Et; cbn [truthy negb].
  - rewrite Et. split; [reflexivity|]. split; [now intros _|]. split; now intros H.
  - cbn [setIsGeneratingTTS ttsText]. rewrite Et.
    pose proof (generateSpeech_result service exn_message (String c text) w) as Hr.
    pose proof (generateSpeech_of_blank service exn_message (String c text) w) as Hb.
    destruct (generateSpeech service exn_message (String c text) w) as [[base64 log] w'].
    destruct Hr as [_ Hr]. destruct base64 as [wav|].
    + destruct (Hr wav eq_refl) as (Ht & response & s & s' & b & pcm & _ & _ & _ & Hw).
      rewrite Ht. cbn [setIsGeneratingTTS setTtsAudioSrc ttsText ttsAudioSrc
                         isGeneratingTTS from_option id].
      split; [exact Et|]. split; [discriminate|].
      split; [intros _; split; [reflexivity|left; split; [reflexivity|now exists wav, pcm]]|].
      intros _ H. specialize (Hb H). discriminate.
    + cbn [truthy setIsGeneratingTTS ttsText ttsAudioSrc isGeneratingTTS].
      split; [exact Et|]. split; [discriminate|].
      split; [intros _; split; [reflexivity|now right]|].
      intros _ H. specialize (Hb H). injection Hb as _ <-. auto.
Qed.
